(** * Course catalog: ordered index, dependency graph, cycle detection and
      prerequisite ordering

    A shallow embedding of [BinarySearchTree] from
    [src/enhanced/EnhancementTwo.cpp] (module [Enhanced]) and of the variant
    in [src/enhanced/EnhancementTwoTest.cpp] (module [Harness]).  The two
    files share [Course], [Node], [addNode], [FindCourse], the in-order
    printer and the body of [Insert]; they differ in [isValidCourseId],
    [BuildDependencyGraph], [validatePrerequisites],
    [ValidateAllPrerequisites] and in the writes of [hasCycle].

    Memory.  A [Course] lives on the C++ heap and is reached through a
    [Course*] both from the tree node that owns it and from [courseMap].
    The heap is an arena [list Course]; a pointer is an index into it.
    Strings are compared as [std::string] does, byte by byte. *)

From Stdlib Require Import String Ascii NArith Lia.
From stdpp Require Import base option list gmap strings relations sets sorting.

#[global] Set Warnings "-clear-no-such-hyp".

(** ** Outcomes of a call *)

Inductive exception : Type :=
| invalid_argument (what : string)
| runtime_error (what : string).

(** [Ok]: the call returns.  [Throw]: a C++ exception leaves the call.
    [Stuck]: the model has no result, because an address outside the arena
    is dereferenced or because the recursion budget of a traversal is used
    up; the theorems show that neither happens on a well-formed catalog. *)
Inductive outcome (A : Type) : Type :=
| Ok (a : A)
| Throw (e : exception)
| Stuck.
Arguments Ok {A} a.
Arguments Throw {A} e.
Arguments Stuck {A}.

#[global] Instance outcome_ret : MRet outcome := @Ok.
#[global] Instance outcome_bind : MBind outcome := λ A B f m,
  match m with Ok a => f a | Throw e => Throw e | Stuck => Stuck end.
#[global] Instance outcome_fmap : FMap outcome := λ A B f m,
  match m with Ok a => Ok (f a) | Throw e => Throw e | Stuck => Stuck end.

(** A [for] loop over a vector that threads a state and stops at the first
    exception. *)
Fixpoint for_each {A S : Type} (body : A → S → outcome S) (l : list A) (s : S)
  : outcome S :=
  match l with
  | [] => Ok s
  | x :: l' => s' ← body x s; for_each body l' s'
  end.

(** ** Data model *)

(** A [Course*]: an index into the arena. *)
Abbreviation ptr := nat (only parsing).

Record Course : Type := mkCourse {
  courseId : string;
  courseTitle : string;
  prereqs : list string;
  dependentCourses : list string;
  isVisited : bool;
  isProcessing : bool
}.

(** [Course(id, title)] *)
Definition new_Course (id title : string) : Course :=
  mkCourse id title [] [] false false.

Definition set_prereqs (ps : list string) (c : Course) : Course :=
  mkCourse (courseId c) (courseTitle c) ps (dependentCourses c)
           (isVisited c) (isProcessing c).
Definition set_dependentCourses (ds : list string) (c : Course) : Course :=
  mkCourse (courseId c) (courseTitle c) (prereqs c) ds
           (isVisited c) (isProcessing c).
Definition set_isVisited (b : bool) (c : Course) : Course :=
  mkCourse (courseId c) (courseTitle c) (prereqs c) (dependentCourses c)
           b (isProcessing c).
Definition set_isProcessing (b : bool) (c : Course) : Course :=
  mkCourse (courseId c) (courseTitle c) (prereqs c) (dependentCourses c)
           (isVisited c) b.
(** [c->dependentCourses.push_back(id)] *)
Definition push_dependent (id : string) (c : Course) : Course :=
  set_dependentCourses (dependentCourses c ++ [id]) c.

(** [unique_ptr<Node>]: [null] is the empty pointer. *)
Inductive Node : Type :=
| null
| node (course : ptr) (left right : Node).

(** A [BinarySearchTree] and the memory it points into: the arena of
    [Course] objects, [root] and [courseMap]. *)
Record State : Type := mkState {
  heap : list Course;
  root : Node;
  courseMap : gmap string ptr
}.

Definition empty_State : State := mkState [] null ∅.

Definition with_heap (h : list Course) (st : State) : State :=
  mkState h (root st) (courseMap st).

(** A member function that may write: its result and the state after the
    call.  A [const] member cannot change [root] or [courseMap], but it can
    write to a [Course] through a pointer. *)
Definition method (A : Type) : Type := State → outcome A * State.

(** [new Course(c)]: the next free cell of the arena. *)
Definition alloc (c : Course) (st : State) : ptr * State :=
  (length (heap st), with_heap (heap st ++ [c]) st).

(** Reading through a [Course*]. *)
Definition load (h : list Course) (p : ptr) : outcome Course :=
  match h !! p with Some c => Ok c | None => Stuck end.

(** Writing through a [Course*]: the object at [p] becomes [f] of it. *)
Definition store_with (f : Course → Course) (p : ptr) (h : list Course)
  : outcome (list Course) :=
  match h !! p with Some c => Ok (<[p := f c]> h) | None => Stuck end.

(** ** Character classes

    [isalpha] and [isdigit] in the C locale: ASCII letters and digits; a byte
    above 127 is neither. *)

Definition isdigit (c : ascii) : bool :=
  let n := nat_of_ascii c in (48 <=? n)%nat && (n <=? 57)%nat.

Definition isalpha (c : ascii) : bool :=
  let n := nat_of_ascii c in
  ((65 <=? n)%nat && (n <=? 90)%nat) || ((97 <=? n)%nat && (n <=? 122)%nat).

(** [while (i < courseId.length() && isalpha(courseId[i])) i++], the scan of
    the letter prefix in both builds: [rest] is [courseId] from index [i] on. *)
Fixpoint alpha_loop (rest : string) (i : nat) : nat * string :=
  match rest with
  | String ch rest' => if isalpha ch then alpha_loop rest' (S i) else (i, rest)
  | EmptyString => (i, rest)
  end.

(** ** Parts shared by both builds *)

(** [BinarySearchTree::FindCourse] *)
Definition FindCourse (st : State) (courseId : string) : option ptr :=
  courseMap st !! courseId.

(** [BinarySearchTree::addNode]: [course->courseId < node->course->courseId]
    descends left, anything else (equal keys too) descends right. *)
Fixpoint addNode (h : list Course) (nd : Node) (course : ptr) : outcome Node :=
  match nd with
  | null => Stuck
  | node c l r =>
    new ← load h course;
    cur ← load h c;
    if String.ltb (courseId new) (courseId cur) then
      match l with
      | null => Ok (node c (node course null null) r)
      | _ => l' ← addNode h l course; Ok (node c l' r)
      end
    else
      match r with
      | null => Ok (node c l (node course null null))
      | _ => r' ← addNode h r course; Ok (node c l r')
      end
  end.

Section Insert.
(** The two builds differ in the key-format check only. *)
Variable isValidCourseId : string → bool.

(** [BinarySearchTree::Insert] *)
Definition Insert_with (course : option ptr) : method unit := λ st,
  match course with
  | None => (Throw (invalid_argument "Cannot insert null course"), st)
  | Some p =>
    match heap st !! p with
    | None => (Stuck, st)
    | Some c =>
      if negb (isValidCourseId (courseId c)) then
        (Throw (invalid_argument
                  ("Invalid course ID format: " +:+ courseId c)), st)
      else
        let m := <[courseId c := p]> (courseMap st) in
        match root st with
        | null => (Ok (), mkState (heap st) (node p null null) m)
        | r =>
          match addNode (heap st) r p with
          | Ok r' => (Ok (), mkState (heap st) r' m)
          | Throw e => (Throw e, st)
          | Stuck => (Stuck, st)
          end
        end
    end
  end.
End Insert.

(** [BinarySearchTree::printSampleSchedule]: the lines written, as
    (courseId, courseTitle), left subtree first. *)
Fixpoint printSampleSchedule (h : list Course) (nd : Node)
  : outcome (list (string * string)) :=
  match nd with
  | null => Ok []
  | node c l r =>
    ls ← printSampleSchedule h l;
    cur ← load h c;
    rs ← printSampleSchedule h r;
    Ok (ls ++ (courseId cur, courseTitle cur) :: rs)
  end.

(** [enumerate()]: the keys in the order the catalog prints them. *)
Definition enumerate (st : State) : outcome (list string) :=
  fmap (M := outcome) (fmap fst) (printSampleSchedule (heap st) (root st)).

(** [loadDataStructure], one record: [new Course(...)], the prerequisites
    pushed, then [bst->Insert(course)]. *)
Definition insert_new (Insert : option ptr → method unit) (c : Course)
  : method unit := λ st,
  let '(p, st') := alloc c st in Insert (Some p) st'.

(** The loop shared by [topologicalSortUtil] and [GetPrerequisiteOrder]:
    every prerequisite that resolves and is not yet visited is descended
    into.  [Stack] has its top at the head. *)
Section topologicalSort_loop.
Variable st : State.
Variable descend : ptr → gset string → list ptr → outcome (gset string * list ptr).

Fixpoint topologicalSort_loop (ps : list string) (visited : gset string)
    (Stack : list ptr) : outcome (gset string * list ptr) :=
  match ps with
  | [] => Ok (visited, Stack)
  | prereqId :: ps' =>
    match FindCourse st prereqId with
    | None => topologicalSort_loop ps' visited Stack
    | Some prereq =>
      if decide (prereqId ∈ visited) then topologicalSort_loop ps' visited Stack
      else
        '(visited', Stack') ← descend prereq visited Stack;
        topologicalSort_loop ps' visited' Stack'
    end
  end.
End topologicalSort_loop.

(** [BinarySearchTree::topologicalSortUtil] *)
Fixpoint topologicalSortUtil (fuel : nat) (st : State) (course : ptr)
    (visited : gset string) (Stack : list ptr) : outcome (gset string * list ptr) :=
  match fuel with
  | 0 => Stuck
  | S fuel' =>
    c ← load (heap st) course;
    '(visited', Stack') ←
      topologicalSort_loop st (topologicalSortUtil fuel' st) (prereqs c)
                           ({[courseId c]} ∪ visited) Stack;
    Ok (visited', course :: Stack')
  end.

(** [while (!Stack.empty()) { result.push_back(Stack.top()); Stack.pop(); }] *)
Fixpoint drain (Stack result : list ptr) : list ptr :=
  match Stack with
  | [] => result
  | top :: rest => drain rest (result ++ [top])
  end.

(** [GetPrerequisiteOrder] of [EnhancementTwo.cpp] once the cycle test has
    passed: the loop over the prerequisites of the start record, then the
    stack emptied into [result] and [result] reversed. *)
Definition prerequisite_order (st : State) (course : ptr) : outcome (list ptr) :=
  c ← load (heap st) course;
  '(_, Stack) ←
    topologicalSort_loop st (topologicalSortUtil (size (courseMap st)) st)
                         (prereqs c) ∅ [];
  Ok (reverse (drain Stack [])).

(** ** Text written to the console *)

(** [endl], and the newline of a string literal. *)
Definition endl : string := String "010"%char EmptyString.

(** [string(length, symbol)] *)
Fixpoint fill (length : nat) (symbol : ascii) : string :=
  match length with
  | 0 => EmptyString
  | S n => String symbol (fill n symbol)
  end.

(** [printLine(symbol, length)]; the defaults are ['='] and [78]. *)
Definition printLine (symbol : ascii) (length : nat) : string :=
  "  " +:+ fill length symbol +:+ endl.

(** [printSubHeader] *)
Definition printSubHeader (text : string) : string :=
  endl +:+ "  " +:+ text +:+ endl +:+ "  " +:+ fill 58 "-" +:+ endl.

(** [printError] *)
Definition printError (message : string) : string :=
  endl +:+ "  [ERROR] " +:+ message +:+ endl +:+ endl +:+ printLine "=" 78.

(** [left << setw(w) << s]: [s], filled with spaces on the right up to
    [w] characters; a longer [s] is written whole. *)
Definition setw_left (w : nat) (s : string) : string :=
  s +:+ fill (w - String.length s) " ".

(** The line [printSampleSchedule] writes for one node. *)
Definition schedule_line (entry : string * string) : string :=
  "    " +:+ setw_left 10 entry.1 +:+ " | " +:+ entry.2 +:+ endl.

(** [for (const auto& x : v) cout << "        - " << x << endl], or
    ["        None"] for an empty vector. *)
Definition bullet_list (v : list string) : string :=
  match v with
  | [] => "        None" +:+ endl
  | _ => String.concat "" ((λ x, "        - " +:+ x +:+ endl) <$> v)
  end.

(** [BinarySearchTree::PrintSampleSchedule], the same in both builds: what it
    writes to [cout]. *)
Definition PrintSampleSchedule (st : State) : outcome string :=
  let header :=
    printSubHeader "Complete Course Catalog"
    +:+ "    COURSE ID  | COURSE TITLE" +:+ endl
    +:+ "  " +:+ fill 73 "-" +:+ endl in
  match root st with
  | null => Ok (header +:+ "    No courses available." +:+ endl)
  | r =>
    ls ← printSampleSchedule (heap st) r;
    Ok (header +:+ String.concat "" (schedule_line <$> ls)
        +:+ endl +:+ "    End of course catalog." +:+ endl +:+ endl
        +:+ printLine "=" 78)
  end.

(** ** Reading the course file *)

(** [isspace] in the C locale: the space and the characters 9 to 13. *)
Definition isspace (c : ascii) : bool :=
  let n := nat_of_ascii c in (n =? 32)%nat || ((9 <=? n)%nat && (n <=? 13)%nat).

(** [getline] until it fails: the lines of a file.  A newline ends a line; a
    last line needs none, and nothing follows a final newline. *)
Fixpoint getlines (contents : string) : list string :=
  match contents with
  | EmptyString => []
  | String ch rest =>
    if Ascii.eqb ch "010" then EmptyString :: getlines rest
    else match getlines rest with
         | line :: lines => String ch line :: lines
         | [] => [String ch EmptyString]
         end
  end.

(** The loop that cuts a line at its commas.  [field] is [line] from [start]
    up to the position reached and [rest] is what is left to scan; a field
    ended by a comma goes through [trim], the last one,
    [line.substr(start)], is pushed as it is. *)
Fixpoint parse_fields (trim : string → string) (field rest : string)
  : list string :=
  match rest with
  | EmptyString => [field]
  | String ch rest' =>
    if Ascii.eqb ch "," then trim field :: parse_fields trim EmptyString rest'
    else parse_fields trim (field +:+ String ch EmptyString) rest'
  end.

(** [new Course(courseInfo[0], courseInfo[1])] and the loop that pushes the
    fields from index 2 on that are not empty; [None] when there are fewer
    than two fields. *)
Definition course_of_fields (courseInfo : list string) : option Course :=
  match courseInfo with
  | id :: title :: rest =>
    Some (set_prereqs (filter (λ f, f ≠ EmptyString) rest) (new_Course id title))
  | _ => None
  end.

(** [while (!s.empty() && isspace(s.front())) s.erase(0, 1)] *)
Fixpoint trim_front (s : string) : string :=
  match s with
  | String ch s' => if isspace ch then trim_front s' else s
  | EmptyString => EmptyString
  end.

(** [while (!s.empty() && isspace(s.back())) s.pop_back()] *)
Fixpoint trim_back (s : string) : string :=
  match s with
  | String ch s' =>
    match trim_back s' with
    | EmptyString => if isspace ch then EmptyString else String ch EmptyString
    | kept => String ch kept
    end
  | EmptyString => EmptyString
  end.

(** The two loops one after the other, as the loader of
    [EnhancementTwoTest.cpp] runs them on a line and on a field. *)
Definition trim (s : string) : string := trim_back (trim_front s).

(** [e.what()] *)
Definition e_what (e : exception) : string :=
  match e with invalid_argument what | runtime_error what => what end.

(** What a call writes: the lines sent to [cout] and the lines sent to
    [cerr], each ended by [endl]. *)
Record written : Type := mkWritten {
  to_cout : list string;
  to_cerr : list string
}.

(** ** [EnhancementTwo.cpp] *)

Module Enhanced.

(** The second loop; [None] is its [return false]. *)
Fixpoint digit_loop (rest : string) (numCount : nat) : option nat :=
  match rest with
  | String ch rest' =>
    if negb (isdigit ch) then None else digit_loop rest' (S numCount)
  | EmptyString => Some numCount
  end.

(** [BinarySearchTree::isValidCourseId] *)
Definition isValidCourseId (courseId : string) : bool :=
  if (String.length courseId =? 0)%nat || (20 <? String.length courseId)%nat
  then false
  else
    let '(i, rest) := alpha_loop courseId 0 in
    if (i <? 2)%nat || (4 <? i)%nat then false
    else match digit_loop rest 0 with
         | None => false
         | Some numCount => if (numCount <? 3)%nat then false else true
         end.

Definition Insert : option ptr → method unit := Insert_with isValidCourseId.

(** [BinarySearchTree::validatePrerequisites] *)
Definition validatePrerequisites (st : State) (course : ptr) : outcome unit :=
  c ← load (heap st) course;
  for_each (λ prereqId _,
              match FindCourse st prereqId with
              | None => Throw (runtime_error ("Invalid prerequisite: " +:+ prereqId
                                              +:+ " for course " +:+ courseId c))
              | Some _ => Ok ()
              end) (prereqs c) ().

(** [BinarySearchTree::ValidateAllPrerequisites], for one iteration order of
    [courseMap]: the value returned and the lines written to [cerr]. *)
Fixpoint ValidateAllPrerequisites_in (st : State) (order : list (string * ptr))
  : outcome (bool * list string) :=
  match order with
  | [] => Ok (true, [])
  | entry :: rest =>
    match validatePrerequisites st entry.2 with
    | Ok _ => ValidateAllPrerequisites_in st rest
    | Throw (runtime_error what) => Ok (false, ["Validation error: " +:+ what])
    | Throw e => Throw e
    | Stuck => Stuck
    end
  end.

Definition ValidateAllPrerequisites (st : State) : outcome (bool * list string) :=
  ValidateAllPrerequisites_in st (map_to_list (courseMap st)).

(** [BinarySearchTree::BuildDependencyGraph], for one iteration order. *)
Definition clear_dependents (entry : string * ptr) (h : list Course)
  : outcome (list Course) :=
  store_with (set_dependentCourses []) entry.2 h.

Definition add_dependents (m : gmap string ptr) (entry : string * ptr)
    (h : list Course) : outcome (list Course) :=
  course ← load h entry.2;
  for_each (λ prereqId h,
              match m !! prereqId with
              | Some prereq => store_with (push_dependent (courseId course)) prereq h
              | None => Ok h
              end) (prereqs course) h.

Definition BuildDependencyGraph_in (order : list (string * ptr)) : method unit :=
  λ st,
  match h ← for_each clear_dependents order (heap st);
        for_each (add_dependents (courseMap st)) order h with
  | Ok h' => (Ok (), with_heap h' st)
  | Throw e => (Throw e, st)
  | Stuck => (Stuck, st)
  end.

Definition BuildDependencyGraph : method unit := λ st,
  BuildDependencyGraph_in (map_to_list (courseMap st)) st.

(** The [for] loop of [hasCycle]; [found = true] is its [return true]. *)
Section hasCycle_loop.
Variable st : State.
Variable descend : option ptr → gset string → gset string →
                   outcome (bool * gset string * gset string).

Fixpoint hasCycle_loop (ps : list string) (visited recursionStack : gset string)
  : outcome (bool * gset string * gset string) :=
  match ps with
  | [] => Ok (false, visited, recursionStack)
  | prereqId :: ps' =>
    match FindCourse st prereqId with
    | None => hasCycle_loop ps' visited recursionStack
    | Some prereq =>
      if decide (prereqId ∈ recursionStack) then Ok (true, visited, recursionStack)
      else if decide (prereqId ∈ visited)
           then hasCycle_loop ps' visited recursionStack
           else
             '(found, visited', recursionStack') ←
               descend (Some prereq) visited recursionStack;
             if found : bool then Ok (true, visited', recursionStack')
             else hasCycle_loop ps' visited' recursionStack'
    end
  end.
End hasCycle_loop.

(** [BinarySearchTree::hasCycle].  Every nested call first adds a key to
    [visited] that was not in it, so [fuel] bounds the nesting depth. *)
Fixpoint hasCycle (fuel : nat) (st : State) (course : option ptr)
    (visited recursionStack : gset string)
  : outcome (bool * gset string * gset string) :=
  match course with
  | None => Ok (false, visited, recursionStack)
  | Some p =>
    match fuel with
    | 0 => Stuck
    | S fuel' =>
      c ← load (heap st) p;
      '(found, visited', recursionStack') ←
        hasCycle_loop st (hasCycle fuel' st) (prereqs c)
                      ({[courseId c]} ∪ visited) ({[courseId c]} ∪ recursionStack);
      if found : bool then Ok (true, visited', recursionStack')
      else Ok (false, visited', recursionStack' ∖ {[courseId c]})
    end
  end.

(** [BinarySearchTree::HasPrerequisiteCycle] *)
Definition HasPrerequisiteCycle (courseId : string) : method bool := λ st,
  match FindCourse st courseId with
  | None => (Throw (invalid_argument ("Course not found: " +:+ courseId)), st)
  | Some course =>
    (fmap (M := outcome) (λ r, r.1.1)
          (hasCycle (size (courseMap st)) st (Some course) ∅ ∅), st)
  end.

(** [BinarySearchTree::GetPrerequisiteOrder] *)
Definition GetPrerequisiteOrder (courseId : string) : method (list ptr) := λ st,
  match FindCourse st courseId with
  | None => (Throw (invalid_argument ("Course not found: " +:+ courseId)), st)
  | Some course =>
    match HasPrerequisiteCycle courseId st with
    | (Ok true, st') =>
      (Throw (runtime_error ("Circular prerequisite dependency detected for: "
                             +:+ courseId)), st')
    | (Ok false, st') => (prerequisite_order st' course, st')
    | (Throw e, st') => (Throw e, st')
    | (Stuck, st') => (Stuck, st')
    end
  end.

(** What [printCourseInformation] writes for the node it stops at. *)
Definition course_details (cur : Course) : string :=
  printSubHeader "Course Details"
  +:+ "    Course ID:   " +:+ courseId cur +:+ endl
  +:+ "    Title:       " +:+ courseTitle cur +:+ endl
  +:+ "    Prerequisites:" +:+ endl
  +:+ bullet_list (prereqs cur)
  +:+ "    Required by:" +:+ endl
  +:+ bullet_list (dependentCourses cur)
  +:+ endl +:+ printLine "=" 78.

(** [BinarySearchTree::printCourseInformation]: the search of the tree for
    [id], and what it writes to [cout]. *)
Fixpoint printCourseInformation (h : list Course) (nd : Node) (id : string)
  : outcome string :=
  match nd with
  | null => Ok (printError ("Course " +:+ id +:+ " not found"))
  | node c l r =>
    cur ← load h c;
    if String.eqb id (courseId cur) then Ok (course_details cur)
    else if String.ltb id (courseId cur) then printCourseInformation h l id
    else printCourseInformation h r id
  end.

(** [BinarySearchTree::PrintCourseInformation] *)
Definition PrintCourseInformation (st : State) (id : string) : outcome string :=
  match root st with
  | null => Ok ("No courses available." +:+ endl)
  | r => printCourseInformation (heap st) r id
  end.

(** The [while (getline(inputFile, line))] loop of [loadDataStructure].  An
    exception that leaves [Insert] ends the loop; the record it was thrown
    for stays allocated. *)
Fixpoint load_loop (lines : list string) : method unit := λ st,
  match lines with
  | [] => (Ok (), st)
  | line :: lines' =>
    if String.eqb line EmptyString then load_loop lines' st
    else
      match course_of_fields (parse_fields id EmptyString line) with
      | None => load_loop lines' st
      | Some course =>
        match insert_new Insert course st with
        | (Ok _, st') => load_loop lines' st'
        | (Throw e, st') => (Throw e, st')
        | (Stuck, st') => (Stuck, st')
        end
      end
  end.

(** [loadDataStructure] once [bst] is known not to be null.  [contents] is
    the text of the file at [filepath], [None] when it cannot be opened.
    Both handlers, the one for [invalid_argument] around [Insert] and the
    one for [exception] around the whole loop, write the same line and
    return [false]. *)
Definition load_file (filepath : string) (contents : option string)
  : method (bool * written) := λ st,
  match contents with
  | None =>
    (Ok (false, mkWritten ["  Unable to open file: " +:+ filepath] []), st)
  | Some text =>
    let failed (e : exception) :=
      Ok (false, mkWritten [] ["Error processing file: " +:+ e_what e]) in
    match load_loop (getlines text) st with
    | (Ok _, st1) =>
      match BuildDependencyGraph st1 with
      | (Ok _, st2) =>
        match ValidateAllPrerequisites st2 with
        | Ok (true, lines) => (Ok (true, mkWritten [] lines), st2)
        | Ok (false, lines) =>
          (Ok (true,
               mkWritten
                 [] (lines
                     ++ ["Warning: Some prerequisites could not be validated"])),
           st2)
        | Throw e => (failed e, st2)
        | Stuck => (Stuck, st2)
        end
      | (Throw e, st2) => (failed e, st2)
      | (Stuck, st2) => (Stuck, st2)
      end
    | (Throw e, st1) => (failed e, st1)
    | (Stuck, st1) => (Stuck, st1)
    end
  end.

(** [loadDataStructure(filepath, bst)]; [bst = None] is the null pointer. *)
Definition loadDataStructure (filepath : string) (contents : option string)
    (bst : option State) : outcome (bool * written) * option State :=
  match bst with
  | None => (Ok (false, mkWritten ["  Unable to open BST pointer"] []), None)
  | Some st =>
    let '(r, st') := load_file filepath contents st in (r, Some st')
  end.

End Enhanced.

(** ** [EnhancementTwoTest.cpp] *)

Module Harness.

Definition validPrefixes : list string :=
  ["CIRC"; "PATH"; "DEEP"; "MULT"; "SPEC"; "CASE"; "SPACE"; "EMPTY"; "MAX";
   "DUP"; "SELF"; "CPX"; "BRANCH"; "CROSS"].

(** [courseId.substr(0, n) == prefix] *)
Definition substr_is (n : nat) (prefix courseId : string) : bool :=
  String.eqb (substring 0 n courseId) prefix.

(** [courseId.substr(0, prefix.length()) == prefix] for some listed prefix *)
Definition has_test_prefix (courseId : string) : bool :=
  existsb (λ prefix, substr_is (String.length prefix) prefix courseId)
          validPrefixes.

(** The last loop of [isValidCourseId]. *)
Fixpoint all_digits (rest : string) : bool :=
  match rest with
  | String ch rest' => if negb (isdigit ch) then false else all_digits rest'
  | EmptyString => true
  end.

(** [BinarySearchTree::isValidCourseId] *)
Definition isValidCourseId (courseId : string) : bool :=
  if has_test_prefix courseId then true
  else if (String.length courseId <? 5)%nat || (7 <? String.length courseId)%nat
  then false
  else
    let '(letterCount, rest) := alpha_loop courseId 0 in
    if (letterCount <? 2)%nat || (4 <? letterCount)%nat then false
    else if (String.length courseId - letterCount <? 3)%nat then false
    else all_digits rest.

Definition Insert : option ptr → method unit := Insert_with isValidCourseId.

(** [BinarySearchTree::isTestCase] *)
Definition isTestCase (courseId : string) : bool := has_test_prefix courseId.

(** [BinarySearchTree::getTestCaseType] *)
Definition getTestCaseType (courseId : string) : string :=
  if negb (isTestCase courseId) then "STANDARD"
  else if substr_is 4 "CIRC" courseId then "CIRCULAR_DEPENDENCY"
  else if substr_is 4 "PATH" courseId then "MULTIPLE_PATHS"
  else if substr_is 4 "DEEP" courseId then "DEEP_CHAIN"
  else if substr_is 4 "MULT" courseId then "MULTIPLE_PREREQUISITES"
  else if substr_is 4 "SPEC" courseId then "SPECIAL_CHARACTERS"
  else if substr_is 4 "CASE" courseId then "CASE_SENSITIVITY"
  else if substr_is 5 "SPACE" courseId then "WHITESPACE"
  else if substr_is 5 "EMPTY" courseId then "EMPTY_FIELDS"
  else if substr_is 3 "MAX" courseId then "MAXIMUM_CHAIN"
  else if substr_is 3 "DUP" courseId then "DUPLICATE_PREREQUISITES"
  else if substr_is 4 "SELF" courseId then "SELF_REFERENCE"
  else if substr_is 3 "CPX" courseId then "COMPLEX_PATHS"
  else if substr_is 6 "BRANCH" courseId then "BRANCH_PATHS"
  else if substr_is 5 "CROSS" courseId then "CROSS_DISCIPLINE"
  else "UNKNOWN_TEST".

(** The three messages of [validatePrerequisites]. *)
Definition SelfReference (id : string) : exception :=
  runtime_error ("Self-reference detected: " +:+ id
                 +:+ " requires itself as a prerequisite").
Definition DuplicatePrerequisite (prereqId id : string) : exception :=
  runtime_error ("Duplicate prerequisite detected: " +:+ prereqId
                 +:+ " listed multiple times for " +:+ id).
Definition UnknownPrerequisite (prereqId id : string) : exception :=
  runtime_error ("Invalid prerequisite: " +:+ prereqId
                 +:+ " for course " +:+ id).

(** The loop of [validatePrerequisites]: the first check that fails throws. *)
Fixpoint validate_loop (st : State) (id : string) (ps : list string)
    (uniquePrereqs : gset string) : outcome unit :=
  match ps with
  | [] => Ok ()
  | prereqId :: ps' =>
    if decide (prereqId = id) then Throw (SelfReference id)
    else if decide (prereqId ∈ uniquePrereqs)
    then Throw (DuplicatePrerequisite prereqId id)
    else match FindCourse st prereqId with
         | None => Throw (UnknownPrerequisite prereqId id)
         | Some _ => validate_loop st id ps' ({[prereqId]} ∪ uniquePrereqs)
         end
  end.

(** [BinarySearchTree::validatePrerequisites] *)
Definition validatePrerequisites (st : State) (course : ptr) : outcome unit :=
  c ← load (heap st) course;
  validate_loop st (courseId c) (prereqs c) ∅.

(** The records [ValidateAllPrerequisites] passes over with [continue]. *)
Definition exempt (courseId : string) : bool :=
  isTestCase courseId
  && (String.eqb (getTestCaseType courseId) "CIRCULAR_DEPENDENCY"
      || String.eqb (getTestCaseType courseId) "SELF_REFERENCE"
      || String.eqb (getTestCaseType courseId) "DUPLICATE_PREREQUISITES").

(** The loop of [ValidateAllPrerequisites]: [errors] and [isValid]. *)
Fixpoint validate_all_loop (st : State) (order : list (string * ptr))
    (errors : list string) (isValid : bool) : outcome (list string * bool) :=
  match order with
  | [] => Ok (errors, isValid)
  | entry :: rest =>
    course ← load (heap st) entry.2;
    if exempt (courseId course) then validate_all_loop st rest errors isValid
    else match validatePrerequisites st entry.2 with
         | Ok _ => validate_all_loop st rest errors isValid
         | Throw (runtime_error what) =>
           validate_all_loop st rest (errors ++ [what]) false
         | Throw e => Throw e
         | Stuck => Stuck
         end
  end.

(** [BinarySearchTree::ValidateAllPrerequisites], for one iteration order:
    the value returned and the lines written to [cerr]. *)
Definition ValidateAllPrerequisites_in (st : State) (order : list (string * ptr))
  : outcome (bool * list string) :=
  match validate_all_loop st order [] true with
  | Ok (errors, isValid) =>
    Ok (isValid, (λ error, "  Validation error: " +:+ error) <$> errors)
  | Throw e => Throw e
  | Stuck => Stuck
  end.

Definition ValidateAllPrerequisites (st : State) : outcome (bool * list string) :=
  ValidateAllPrerequisites_in st (map_to_list (courseMap st)).

(** The duplicate filter of [BuildDependencyGraph]: first occurrences, in
    order. *)
Fixpoint unique_loop (ps : list string) (seen : gset string)
    (uniquePrereqs : list string) : list string :=
  match ps with
  | [] => uniquePrereqs
  | prereqId :: ps' =>
    if decide (prereqId ∈ seen) then unique_loop ps' seen uniquePrereqs
    else unique_loop ps' ({[prereqId]} ∪ seen) (uniquePrereqs ++ [prereqId])
  end.

Definition clear_dependents (entry : string * ptr) (h : list Course)
  : outcome (list Course) :=
  store_with (λ c, set_isProcessing false
                     (set_isVisited false (set_dependentCourses [] c)))
             entry.2 h.

Definition add_dependents (m : gmap string ptr) (entry : string * ptr)
    (h : list Course) : outcome (list Course) :=
  course ← load h entry.2;
  let uniquePrereqs := unique_loop (prereqs course) ∅ [] in
  h1 ← store_with (set_prereqs uniquePrereqs) entry.2 h;
  for_each (λ prereqId h,
              match m !! prereqId with
              | Some prereq =>
                target ← load h prereq;
                if decide (courseId target ≠ courseId course)
                then store_with (push_dependent (courseId course)) prereq h
                else Ok h
              | None => Ok h
              end) uniquePrereqs h1.

(** [BinarySearchTree::BuildDependencyGraph], for one iteration order. *)
Definition BuildDependencyGraph_in (order : list (string * ptr)) : method unit :=
  λ st,
  match h ← for_each clear_dependents order (heap st);
        for_each (add_dependents (courseMap st)) order h with
  | Ok h' => (Ok (), with_heap h' st)
  | Throw e => (Throw e, st)
  | Stuck => (Stuck, st)
  end.

Definition BuildDependencyGraph : method unit := λ st,
  BuildDependencyGraph_in (map_to_list (courseMap st)) st.

(** The [for] loop of [hasCycle], with its writes to [isProcessing]. *)
Section hasCycle_loop.
Variable descend : option ptr → State → gset string → gset string →
                   outcome (bool * State * gset string * gset string).
Variable course : ptr.

Fixpoint hasCycle_loop (ps : list string) (st : State)
    (visited recursionStack : gset string)
  : outcome (bool * State * gset string * gset string) :=
  match ps with
  | [] => Ok (false, st, visited, recursionStack)
  | prereqId :: ps' =>
    match FindCourse st prereqId with
    | None => hasCycle_loop ps' st visited recursionStack
    | Some prereq =>
      if decide (prereqId ∈ recursionStack) then
        h1 ← store_with (set_isProcessing true) course (heap st);
        h2 ← store_with (set_isProcessing true) prereq h1;
        Ok (true, with_heap h2 st, visited, recursionStack)
      else if decide (prereqId ∈ visited)
      then hasCycle_loop ps' st visited recursionStack
      else
        h1 ← store_with (set_isProcessing true) prereq (heap st);
        '(found, st', visited', recursionStack') ←
          descend (Some prereq) (with_heap h1 st) visited recursionStack;
        if found : bool then Ok (true, st', visited', recursionStack')
        else
          h2 ← store_with (set_isProcessing false) prereq (heap st');
          hasCycle_loop ps' (with_heap h2 st') visited' recursionStack'
    end
  end.
End hasCycle_loop.

(** [BinarySearchTree::hasCycle] *)
Fixpoint hasCycle (fuel : nat) (course : option ptr) (st : State)
    (visited recursionStack : gset string)
  : outcome (bool * State * gset string * gset string) :=
  match course with
  | None => Ok (false, st, visited, recursionStack)
  | Some p =>
    match fuel with
    | 0 => Stuck
    | S fuel' =>
      c ← load (heap st) p;
      '(found, st', visited', recursionStack') ←
        hasCycle_loop (hasCycle fuel') p (prereqs c) st
                      ({[courseId c]} ∪ visited) ({[courseId c]} ∪ recursionStack);
      if found : bool then Ok (true, st', visited', recursionStack')
      else
        h ← store_with (set_isProcessing false) p (heap st');
        Ok (false, with_heap h st', visited', recursionStack' ∖ {[courseId c]})
    end
  end.

(** The lambda [processPrerequisites] of [GetPrerequisiteOrder]. *)
Fixpoint processPrerequisites (fuel : nat) (st : State) (current : option ptr)
    (visited : gset string) (Stack : list ptr) : outcome (gset string * list ptr) :=
  match current with
  | None => Ok (visited, Stack)
  | Some p =>
    match fuel with
    | 0 => Stuck
    | S fuel' =>
      c ← load (heap st) p;
      '(visited', Stack') ←
        topologicalSort_loop
          st (λ prereq, processPrerequisites fuel' st (Some prereq)) (prereqs c)
          ({[courseId c]} ∪ visited) Stack;
      Ok (visited', p :: Stack')
    end
  end.

(** [GetPrerequisiteOrder] once the cycle test has passed: [visited] is
    cleared, the prerequisites of the start record are processed, the stack
    is emptied into [result] and [result] is reversed. *)
Definition linearise (st : State) (course : ptr) : outcome (list ptr) :=
  c ← load (heap st) course;
  '(_, Stack) ←
    topologicalSort_loop
      st (λ prereq, processPrerequisites (size (courseMap st)) st (Some prereq))
      (prereqs c) ∅ [];
  Ok (reverse (drain Stack [])).

(** What a call of [hasCycle] from a public member leaves behind. *)
Definition run_hasCycle (course : ptr) (st : State) : outcome bool * State :=
  match hasCycle (size (courseMap st)) (Some course) st ∅ ∅ with
  | Ok (found, st', _, _) => (Ok found, st')
  | Throw e => (Throw e, st)
  | Stuck => (Stuck, st)
  end.

(** [BinarySearchTree::HasPrerequisiteCycle] *)
Definition HasPrerequisiteCycle (courseId : string) : method bool := λ st,
  match FindCourse st courseId with
  | None => (Throw (invalid_argument ("Course not found: " +:+ courseId)), st)
  | Some course => run_hasCycle course st
  end.

(** [BinarySearchTree::GetPrerequisiteOrder] *)
Definition GetPrerequisiteOrder (courseId : string) : method (list ptr) := λ st,
  match FindCourse st courseId with
  | None => (Throw (invalid_argument ("Course not found: " +:+ courseId)), st)
  | Some course =>
    match run_hasCycle course st with
    | (Ok true, st') =>
      (Throw (runtime_error ("Circular dependency detected:"
                             +:+ String "010"%char EmptyString)), st')
    | (Ok false, st') => (linearise st' course, st')
    | (Throw e, st') => (Throw e, st')
    | (Stuck, st') => (Stuck, st')
    end
  end.

(** [courseId.find(s) != string::npos] *)
Definition contains (s courseId : string) : bool :=
  match String.index 0 s courseId with Some _ => true | None => false end.

(** [groupedPrereqs[type].push_back(prereq)], the [std::map] kept as the
    list of its entries in ascending order of the key. *)
Fixpoint group_push (type prereq : string)
    (groupedPrereqs : list (string * list string))
  : list (string * list string) :=
  match groupedPrereqs with
  | [] => [(type, [prereq])]
  | group :: rest =>
    if String.eqb type group.1 then (group.1, group.2 ++ [prereq]) :: rest
    else if String.ltb type group.1 then (type, [prereq]) :: groupedPrereqs
    else group :: group_push type prereq rest
  end.

(** The prerequisites of a test case, grouped by their first four
    characters. *)
Definition grouped_list (ps : list string) : string :=
  let groupedPrereqs :=
    foldl (λ groups prereq, group_push (substring 0 4 prereq) prereq groups)
          [] ps in
  String.concat
    "" ((λ group : string * list string,
           "        Group " +:+ group.1 +:+ ":" +:+ endl
           +:+ String.concat
                 "" ((λ prereq, "            - " +:+ prereq +:+ endl) <$> group.2))
          <$> groupedPrereqs).

(** What [printCourseInformation] does at the node it stops at.  The result
    holds the text sent to [cout], the lines sent to [cerr] and how the call
    ended.  The operands of [<<] are taken from left to right, so the text
    before a call is written when the call is made. *)
Definition course_details (cur : Course) (id : string) (st : State)
  : (string * list string * outcome unit) * State :=
  let isTestCase := contains "TEST" id || contains "CIRC" id || contains "PATH" id in
  let text :=
    printSubHeader "Course Details"
    +:+ "    Course ID:   " +:+ courseId cur +:+ endl
    +:+ "    Title:       " +:+ courseTitle cur +:+ endl
    +:+ "    Prerequisites:" +:+ endl
    +:+ match prereqs cur with
        | [] => "        None" +:+ endl
        | ps => if isTestCase then grouped_list ps else bullet_list ps
        end
    +:+ "    Required by:" +:+ endl
    +:+ bullet_list (dependentCourses cur) in
  if isTestCase then
    let text := text +:+ endl +:+ "    Test Case Information:" +:+ endl in
    match ValidateAllPrerequisites st with
    | Ok (valid, lines) =>
      let text :=
        text +:+ "    - Validation Status: "
        +:+ (if valid : bool then "Valid" else "Invalid") +:+ endl in
      match HasPrerequisiteCycle id st with
      | (Ok cyclic, st') =>
        ((text +:+ "    - Circular Dependencies: "
          +:+ (if cyclic : bool then "Yes" else "No") +:+ endl
          +:+ endl +:+ printLine "=" 78, lines, Ok ()), st')
      | (Throw e, st') =>
        ((text +:+ "    - Circular Dependencies: ", lines, Throw e), st')
      | (Stuck, st') => ((text, lines, Stuck), st')
      end
    | Throw e => ((text, [], Throw e), st)
    | Stuck => ((text, [], Stuck), st)
    end
  else ((text +:+ endl +:+ printLine "=" 78, [], Ok ()), st).

(** [BinarySearchTree::printCourseInformation] *)
Fixpoint printCourseInformation (nd : Node) (id : string) (st : State)
  : (string * list string * outcome unit) * State :=
  match nd with
  | null => ((printError ("Course " +:+ id +:+ " not found"), [], Ok ()), st)
  | node c l r =>
    match heap st !! c with
    | Some cur =>
      if String.eqb id (courseId cur) then course_details cur id st
      else if String.ltb id (courseId cur) then printCourseInformation l id st
      else printCourseInformation r id st
    | None => ((EmptyString, [], Stuck), st)
    end
  end.

(** [BinarySearchTree::PrintCourseInformation] *)
Definition PrintCourseInformation (id : string) (st : State)
  : (string * list string * outcome unit) * State :=
  match root st with
  | null => (("No courses available." +:+ endl, [], Ok ()), st)
  | r => printCourseInformation r id st
  end.

(** The [while (getline(inputFile, line))] loop of [loadDataStructure],
    with its [errors] and [hasValidCourses]. *)
Fixpoint load_loop (lines : list string) (errors : list string)
    (hasValidCourses : bool) (st : State)
  : outcome (list string * bool) * State :=
  match lines with
  | [] => (Ok (errors, hasValidCourses), st)
  | line :: lines' =>
    if String.eqb line EmptyString
       || match line with String "#" _ => true | _ => false end
    then load_loop lines' errors hasValidCourses st
    else
      let line := trim line in
      if String.eqb line EmptyString
      then load_loop lines' errors hasValidCourses st
      else
        match course_of_fields (parse_fields trim EmptyString line) with
        | None =>
          load_loop lines'
                    (errors ++ ["Invalid course format in line: " +:+ line])
                    hasValidCourses st
        | Some course =>
          match insert_new Insert course st with
          | (Ok _, st') => load_loop lines' errors true st'
          | (Throw e, st') =>
            load_loop lines'
                      (errors ++ ["Error processing course: " +:+ e_what e])
                      hasValidCourses st'
          | (Stuck, st') => (Stuck, st')
          end
        end
  end.

(** [loadDataStructure] once [bst] is known not to be null.  [contents] is
    the text of the file at [filepath], [None] when it cannot be opened. *)
Definition load_file (filepath : string) (contents : option string)
  : method (bool * written) := λ st,
  match contents with
  | None =>
    (Ok (false, mkWritten ["  Unable to open file: " +:+ filepath] []), st)
  | Some text =>
    let failed (e : exception) :=
      Ok (false, mkWritten [] ["  Error processing file: " +:+ e_what e]) in
    match load_loop (getlines text) [] false st with
    | (Ok (errors, false), st1) =>
      (Ok (false,
           mkWritten ("  No valid courses were loaded"
                      :: ((λ error, "  Error: " +:+ error) <$> errors)) []),
       st1)
    | (Ok (errors, true), st1) =>
      match BuildDependencyGraph st1 with
      | (Ok _, st2) =>
        (Ok (true,
             mkWritten
               match errors with
               | [] => []
               | _ => (endl +:+ "  Warning: Some courses had errors "
                            +:+ "but file was loaded:")
                      :: ((λ error, "  - " +:+ error) <$> errors)
               end []), st2)
      | (Throw e, st2) => (failed e, st2)
      | (Stuck, st2) => (Stuck, st2)
      end
    | (Throw e, st1) => (failed e, st1)
    | (Stuck, st1) => (Stuck, st1)
    end
  end.

(** [loadDataStructure(filepath, bst)]; [bst = None] is the null pointer. *)
Definition loadDataStructure (filepath : string) (contents : option string)
    (bst : option State) : outcome (bool * written) * option State :=
  match bst with
  | None => (Ok (false, mkWritten ["  Unable to open BST pointer"] []), None)
  | Some st =>
    let '(r, st') := load_file filepath contents st in (r, Some st')
  end.

End Harness.

(** ** Vocabulary of the statements *)

(** Every character of [s] satisfies [P]. *)
Definition all_chars (P : ascii → bool) (s : string) : Prop :=
  Forall (λ ch, P ch = true) (list_ascii_of_string s).

(** 2 to 4 letters, then 3 or more digits, and nothing else. *)
Definition letters_then_digits (k : string) : Prop :=
  ∃ l d : string,
    k = l +:+ d ∧ all_chars isalpha l ∧ all_chars isdigit d ∧
    2 ≤ String.length l ≤ 4 ∧ 3 ≤ String.length d.

(** The catalog in the sense of [FindCourse]: the record stored under a key. *)
Definition record_of (st : State) (k : string) : option Course :=
  p ← courseMap st !! k; heap st !! p.

(** Every entry of [courseMap] points into the arena, at a record that
    carries the entry's key: what [courseMap[course->courseId] = course]
    sets up. *)
Definition map_wf (st : State) : Prop :=
  ∀ k p, courseMap st !! k = Some p →
         ∃ c, heap st !! p = Some c ∧ courseId c = k.

(** A prerequisite edge: [a] is in the catalog, lists [b], and [b] resolves
    to a record of the catalog. *)
Definition edge (st : State) (a b : string) : Prop :=
  ∃ c, record_of st a = Some c ∧ b ∈ prereqs c ∧ is_Some (courseMap st !! b).

(** A directed cycle can be reached from [k]. *)
Definition cycle_reachable (st : State) (k : string) : Prop :=
  ∃ x, rtc (edge st) k x ∧ tc (edge st) x x.

(** The pointers held by a tree, left to right. *)
Fixpoint inorder (nd : Node) : list ptr :=
  match nd with
  | null => []
  | node c l r => inorder l ++ c :: inorder r
  end.

(** [std::string]'s [operator<] and its complement. *)
Definition str_lt (a b : string) : Prop := String.ltb a b = true.
Definition str_le (a b : string) : Prop := String.ltb b a = false.

(** The search-tree shape [addNode] maintains: smaller keys to the left,
    the others to the right; every node's record is in the arena. *)
Fixpoint bst (h : list Course) (nd : Node) : Prop :=
  match nd with
  | null => True
  | node c l r =>
    ∃ cur, h !! c = Some cur ∧
      (∀ p x, p ∈ inorder l → h !! p = Some x → str_lt (courseId x) (courseId cur)) ∧
      (∀ p x, p ∈ inorder r → h !! p = Some x → str_le (courseId cur) (courseId x)) ∧
      (∀ p, p ∈ inorder l ++ inorder r → is_Some (h !! p)) ∧
      bst h l ∧ bst h r
  end.

(** Two arenas that agree up to the [isProcessing] flags. *)
Definition same_but_isProcessing (h h' : list Course) : Prop :=
  Forall2 (λ c c', c' = set_isProcessing (isProcessing c') c) h h'.

(** The catalog after a run of [insert_new]; a rejected record is skipped,
    as the loader of [EnhancementTwoTest.cpp] does. *)
Definition insert_all (Insert : option ptr → method unit) (cs : list Course)
    (st : State) : State :=
  foldl (λ st c, (insert_new Insert c st).2) st cs.

(** The invariant of a catalog built through [Insert]: the map is
    well-formed, the tree is a search tree, and every entry of the map is a
    node of the tree whose key passed the format check. *)
Definition catalog_wf (isValidCourseId : string → bool) (st : State) : Prop :=
  map_wf st ∧ bst (heap st) (root st) ∧
  ∀ k q, courseMap st !! k = Some q →
         q ∈ inorder (root st) ∧ isValidCourseId k = true.

(** The records a list of pointers designates. *)
Definition records_at (h : list Course) (ps : list ptr) (cs : list Course) : Prop :=
  Forall2 (λ p c, h !! p = Some c) ps cs.

(** A set of keys the traversal is done with: no edge leaves it and no
    cycle passes through it. *)
Definition finished (st : State) (B : gset string) : Prop :=
  (∀ x y, x ∈ B → edge st x y → y ∈ B) ∧ (∀ x, x ∈ B → ¬ tc (edge st) x x).

(** What a call of [hasCycle] on the record of [u], entered with [visited = V]
    and [recursionStack = S], promises about its result. *)
Definition hasCycle_post (st : State) (u : string) (V S : gset string)
    (r : bool * gset string * gset string) : Prop :=
  V ⊆ r.1.2 ∧ u ∈ r.1.2 ∧
  if r.1.1 then cycle_reachable st u
  else r.2 = S ∧ finished st (r.1.2 ∖ S).

(** The keys under which a list of pointers is stored in [courseMap]. *)
Definition keys_at (st : State) (ps : list ptr) (ks : list string) : Prop :=
  Forall2 (λ p k, courseMap st !! k = Some p) ps ks.

(** A stack of keys, top first, in which whatever a key requires lies
    deeper. *)
Fixpoint deps_below (st : State) (ks : list string) : Prop :=
  match ks with
  | [] => True
  | x :: ks' => (∀ y, edge st x y → y ∈ ks') ∧ deps_below st ks'
  end.

(** Two states with the same tree and map whose records agree up to
    [isProcessing]. *)
Definition same_catalog (st st' : State) : Prop :=
  same_but_isProcessing (heap st) (heap st') ∧
  root st = root st' ∧ courseMap st = courseMap st'.

(** Two arenas whose records differ in [dependentCourses] at most. *)
Definition only_dependents_differ (h h' : list Course) : Prop :=
  Forall2 (λ c c', c' = set_dependentCourses (dependentCourses c') c) h h'.

(** Two arenas whose records have the same key, title and set of
    prerequisites. *)
Definition same_declarations (h h' : list Course) : Prop :=
  Forall2 (λ c c', courseId c' = courseId c ∧ courseTitle c' = courseTitle c ∧
                   ∀ y, y ∈ prereqs c' ↔ y ∈ prereqs c) h h'.

(** [x] is the key of a record among [entries] that lists a key resolving to
    the record at [q]; with [skip_self], records listing themselves do not
    count. *)
Definition declared_by (skip_self : bool) (m : gmap string ptr) (h : list Course)
    (entries : list (string * ptr)) (q : ptr) (x : string) : Prop :=
  ∃ e c y target,
    e ∈ entries ∧ h !! e.2 = Some c ∧ x = courseId c ∧ y ∈ prereqs c ∧
    m !! y = Some q ∧ h !! q = Some target ∧
    (skip_self = true → courseId target ≠ courseId c).

(** A well-formed prerequisite list: no self-reference, no key twice, every
    key resolves. *)
Definition well_formed_prereqs (st : State) (id : string) (ps : list string) : Prop :=
  (id ∉ ps) ∧ NoDup ps ∧ ∀ y, y ∈ ps → is_Some (courseMap st !! y).

(** The first violation of a prerequisite list [ps = pre ++ y :: post], with
    its class. *)
Definition first_violation (st : State) (id : string) (ps : list string)
    (e : exception) : Prop :=
  ∃ pre y post,
    ps = pre ++ y :: post ∧ well_formed_prereqs st id pre ∧
    ((y = id ∧ e = Harness.SelfReference id) ∨
     (y ≠ id ∧ y ∈ pre ∧ e = Harness.DuplicatePrerequisite y id) ∨
     (y ≠ id ∧ (y ∉ pre) ∧ courseMap st !! y = None ∧
      e = Harness.UnknownPrerequisite y id)).

(** What the pass of [EnhancementTwoTest.cpp] records for one entry of the
    map: nothing for an exempt record or a well-formed one, else the message
    of its first violation. *)
Definition Harness_report (st : State) (entry : string * ptr) : option string :=
  match heap st !! entry.2 with
  | Some c =>
    if Harness.exempt (courseId c) then None
    else match Harness.validatePrerequisites st entry.2 with
         | Throw (runtime_error what) => Some what
         | _ => None
         end
  | None => None
  end.

(** [p] is listed before [q]: its key is smaller, or the keys are equal and
    [p] was allocated first. *)
Definition listed_before (h : list Course) (p q : ptr) : Prop :=
  ∃ cp cq, h !! p = Some cp ∧ h !! q = Some cq ∧
    (str_lt (courseId cp) (courseId cq) ∨ (courseId cp = courseId cq ∧ p < q)).

(** The record at address [i] was accepted by [Insert]. *)
Definition accepted (isValid : string → bool) (cs : list Course) (i : ptr) : Prop :=
  ∃ c, cs !! i = Some c ∧ isValid (courseId c) = true.

(** The record at address [i] was accepted by [Insert] under the key [k]. *)
Definition accepted_as (isValid : string → bool) (cs : list Course) (k : string)
    (i : ptr) : Prop :=
  ∃ c, cs !! i = Some c ∧ isValid (courseId c) = true ∧ courseId c = k.

(** Two arenas whose records carry the same keys. *)
Definition same_keys (h h' : list Course) : Prop :=
  Forall2 (λ c c', courseId c' = courseId c) h h'.

(** What [PrintSampleSchedule] writes for a catalog whose nodes hold the
    records [rs], left to right. *)
Definition schedule_text (rs : list Course) : string :=
  printSubHeader "Complete Course Catalog"
  +:+ "    COURSE ID  | COURSE TITLE" +:+ endl
  +:+ "  " +:+ fill 73 "-" +:+ endl
  +:+ match rs with
      | [] => "    No courses available." +:+ endl
      | _ =>
        String.concat
          "" ((λ c, "    " +:+ setw_left 10 (courseId c) +:+ " | "
                    +:+ courseTitle c +:+ endl) <$> rs)
        +:+ endl +:+ "    End of course catalog." +:+ endl +:+ endl
        +:+ printLine "=" 78
      end.

(** No character of [s] is [ch]. *)
Definition free_of (ch : ascii) (s : string) : Prop :=
  ch ∉ list_ascii_of_string s.

(** A record as a line of the course file: key, title and prerequisites,
    with commas between them. *)
Definition csv_line (c : Course) : string :=
  String.concat "," (courseId c :: courseTitle c :: prereqs c).

(** The records the loader of [EnhancementTwo.cpp] makes of the lines of a
    file: one for each line that has two fields or more. *)
Definition Enhanced_records (lines : list string) : list Course :=
  omap (λ line, course_of_fields (parse_fields id EmptyString line)) lines.

(** The lines the loader of [EnhancementTwoTest.cpp] goes on with: those
    that are not empty and do not start with [#], trimmed, and not empty
    after that. *)
Definition Harness_lines (lines : list string) : list string :=
  omap (λ line,
          if String.eqb line EmptyString
             || match line with String "#" _ => true | _ => false end
          then None
          else if String.eqb (trim line) EmptyString then None
               else Some (trim line)) lines.

(** The records it makes of them, and the entries it adds to [errors]: one
    for a line with fewer than two fields, one for a record whose key is
    rejected. *)
Definition Harness_records (lines : list string) : list Course :=
  omap (λ line, course_of_fields (parse_fields trim EmptyString line))
       (Harness_lines lines).

Definition Harness_errors (lines : list string) : list string :=
  omap (λ line,
          match course_of_fields (parse_fields trim EmptyString line) with
          | None => Some ("Invalid course format in line: " +:+ line)
          | Some c =>
            if Harness.isValidCourseId (courseId c) then None
            else Some ("Error processing course: Invalid course ID format: "
                       +:+ courseId c)
          end) (Harness_lines lines).

(** [s] neither starts nor ends with a character of the class [isspace]. *)
Definition trimmed (s : string) : Prop :=
  ∀ ch, head (list_ascii_of_string s) = Some ch
        ∨ last (list_ascii_of_string s) = Some ch → isspace ch = false.

(** [k] starts with [p]. *)
Definition starts_with (p k : string) : Prop := ∃ rest, k = p +:+ rest.

(** What the record [c] adds to the dependents of the record at [q]: its
    key, once for each of its prerequisites that resolves to [q]. *)
Definition dependents_from (m : gmap string ptr) (q : ptr) (c : Course)
  : list string :=
  (λ _, courseId c) <$> filter (λ y, m !! y = Some q) (prereqs c).

(** The dependents of the record at [q] after a rebuild that goes through
    the map in the order [order]. *)
Definition rebuilt_dependents (m : gmap string ptr) (h : list Course)
    (order : list (string * ptr)) (q : ptr) : list string :=
  e ← order; from_option (dependents_from m q) [] (h !! e.2).

(** The arena after a rebuild of [EnhancementTwo.cpp]: the records the map
    designates get their new dependents, nothing else changes. *)
Definition Enhanced_rebuilt (m : gmap string ptr) (order : list (string * ptr))
    (h : list Course) : list Course :=
  imap (λ q c, if decide (q ∈ order.*2)
               then set_dependentCourses (rebuilt_dependents m h order q) c
               else c) h.

(** How many times [x] occurs in [l]. *)
Definition occurrences (x : string) (l : list string) : nat :=
  length (filter (λ z, z = x) l).

(** The duplicate filter of [EnhancementTwoTest.cpp] on a whole list. *)
Definition unique (ps : list string) : list string :=
  Harness.unique_loop ps ∅ [].

(** What the record [c] adds to the dependents of the record at [q], whose
    key is [kq], in [EnhancementTwoTest.cpp]: nothing when [c] carries the
    key [kq] itself, and else its key, once for each of its prerequisites,
    duplicates removed, that resolves to [q]. *)
Definition Harness_dependents_from (m : gmap string ptr) (q : ptr) (kq : string)
    (c : Course) : list string :=
  if decide (kq ≠ courseId c)
  then (λ _, courseId c) <$> filter (λ y, m !! y = Some q) (unique (prereqs c))
  else [].

(** The dependents that a rebuild of [EnhancementTwoTest.cpp] gives the
    record at [q], whose key is [kq]: the contributions of the records of
    the map, in iteration order. *)
Definition Harness_rebuilt_dependents (m : gmap string ptr) (h : list Course)
    (order : list (string * ptr)) (q : ptr) (kq : string) : list string :=
  e ← order; from_option (Harness_dependents_from m q kq) [] (h !! e.2).

(** The arena after a rebuild of [EnhancementTwoTest.cpp]. *)
Definition Harness_rebuilt (m : gmap string ptr) (order : list (string * ptr))
    (h : list Course) : list Course :=
  imap (λ q c, if decide (q ∈ order.*2)
               then mkCourse (courseId c) (courseTitle c) (unique (prereqs c))
                      (Harness_rebuilt_dependents m h order q (courseId c))
                      false false
               else c) h.

(** Two arenas of which the second is the first with some [isProcessing]
    flags cleared. *)
Definition flags_cleared (h h' : list Course) : Prop :=
  Forall2 (λ c c', c' = c ∨ c' = set_isProcessing false c) h h'.

(** ** Sample catalogs *)

Definition course (id title : string) (ps : list string) : Course :=
  set_prereqs ps (new_Course id title).

(** CS100 requires CS200 and CS200 requires CS100. *)
Definition two_cycle : State :=
  insert_all Enhanced.Insert
    [course "CS100" "Algorithms" ["CS200"];
     course "CS200" "Data Structures" ["CS100"]] empty_State.

(** CS100 requires nothing, CS200 requires CS100, CS300 requires CS200;
    loaded in the order CS300, CS100, CS200. *)
Definition chain : State :=
  insert_all Enhanced.Insert
    [course "CS300" "Compilers" ["CS200"];
     course "CS100" "Programming" [];
     course "CS200" "Data Structures" ["CS100"]] empty_State.

(** One record, and a second record with the same key allocated but not yet
    inserted (at address 1). *)
Definition one_course : State :=
  (alloc (course "CS101" "Second" [])
         (insert_all Enhanced.Insert [course "CS101" "First" []] empty_State)).2.

(** A record allocated with a key no build accepts (at address 0). *)
Definition bad_key : State := (alloc (course "1" "Nameless" []) empty_State).2.

(** A record that lists itself. *)
Definition self_reference : State :=
  insert_all Harness.Insert [course "SELF101" "Itself" ["SELF101"]] empty_State.

(** Two records, each listing a key that no record carries. *)
Definition two_unknown : State :=
  insert_all Enhanced.Insert
    [course "CS100" "Algorithms" ["XX999"];
     course "CS200" "Data Structures" ["YY999"]] empty_State.

(** A record with a self-reference followed by an unknown key. *)
Definition two_violations : State :=
  insert_all Harness.Insert [course "CS100" "Algorithms" ["CS100"; "XX999"]]
             empty_State.

(** ** Sample course files and catalogs with duplicates *)

(** A course file: CS300, an empty line, CS100, CS200. *)
Definition sample_file : string :=
  "CS300,Compilers,CS200" +:+ endl +:+ endl
  +:+ "CS100,Programming" +:+ endl
  +:+ "CS200,Data Structures,CS100" +:+ endl.

(** A course file whose second line carries a key that is rejected. *)
Definition rejected_file : string :=
  "CS100,Programming" +:+ endl
  +:+ "1,Nameless" +:+ endl
  +:+ "CS200,Data Structures,CS100" +:+ endl.

(** A file for the loader of [EnhancementTwoTest.cpp]: a comment, a record
    with blanks around its fields, a record whose key is too short, a line
    with one field, and a record. *)
Definition harness_file : string :=
  "# courses" +:+ endl
  +:+ "  CS100 , Programming " +:+ endl
  +:+ "CS1,Too short" +:+ endl
  +:+ "justone" +:+ endl
  +:+ "CS200,Data Structures,CS100" +:+ endl.

(** A record CS200 that lists CS100 twice. *)
Definition listed_twice : State :=
  insert_all Enhanced.Insert
    [course "CS100" "Programming" [];
     course "CS200" "Data Structures" ["CS100"; "CS100"]] empty_State.

(** A record DUP101 that lists CS100 twice, in a catalog of
    [EnhancementTwoTest.cpp]. *)
Definition duplicate_prerequisite : State :=
  insert_all Harness.Insert
    [course "CS100" "Programming" [];
     course "DUP101" "Twice" ["CS100"; "CS100"]] empty_State.

(** A test case on a cycle: the details of CIRC101 are shown, the call
    returns, and the flag of CIRC101 is set afterwards. *)
Definition circular_test_case : list Course :=
  [course "CIRC101" "First" ["CIRC102"]; course "CIRC102" "Second" ["CIRC101"]].

(** The catalog after a file was loaded, changed and loaded again: CS200
    required CS101 in the first version and requires nothing in the second. *)
Definition reloaded : list Course :=
  [course "CS101" "First" []; course "CS200" "Data Structures" ["CS101"];
   course "CS101" "Second" []; course "CS200" "Data Structures" []].

(** The arena of that catalog before the second rebuild: the first rebuild
    made CS200 a dependent of the first CS101. *)
Definition reloaded_arena : list Course :=
  [mkCourse "CS101" "First" [] ["CS200"] false false;
   course "CS200" "Data Structures" ["CS101"];
   course "CS101" "Second" []; course "CS200" "Data Structures" []].

(** CS100 requires CS200, and a second CS100 that requires nothing is
    inserted after it: the first one stays in the tree, the map holds the
    second. *)
Definition shadowing : State :=
  insert_all Enhanced.Insert
    [course "CS100" "First" ["CS200"]; course "CS200" "Data Structures" [];
     course "CS100" "Second" []] empty_State.

(** A record that lists an unknown key and itself, shadowed in the map by a
    later record with the same key. *)
Definition shadowed_violations : State :=
  insert_all Enhanced.Insert
    [course "CS100" "First" ["ZZ999"; "CS100"]; course "CS100" "Second" []]
    empty_State.

(** * Proofs *)

(** ** Key format *)

Lemma isdigit_not_isalpha ch : isdigit ch = true → isalpha ch = false.
Proof.
  unfold isdigit, isalpha. intros H.
  apply andb_true_iff in H as [H1 H2].
  apply Nat.leb_le in H1, H2.
  apply orb_false_iff; split; apply andb_false_iff.
  - left. apply Nat.leb_gt. lia.
  - left. apply Nat.leb_gt. lia.
Qed.

Lemma all_chars_nil P : all_chars P EmptyString.
Proof. constructor. Qed.

Lemma all_chars_cons P ch s :
  all_chars P (String ch s) ↔ P ch = true ∧ all_chars P s.
Proof. unfold all_chars; simpl. apply (Forall_cons (λ x, P x = true)). Qed.

Lemma alpha_loop_spec s i :
  ∃ l rest, alpha_loop s i = (i + String.length l, rest) ∧ s = l +:+ rest ∧
            all_chars isalpha l ∧
            match rest with String ch _ => isalpha ch = false | EmptyString => True end.
Proof.
  revert i. induction s as [|ch s IH]; intros i; simpl.
  - exists EmptyString, EmptyString. simpl. rewrite Nat.add_0_r.
    repeat split; auto using all_chars_nil.
  - destruct (isalpha ch) eqn:Hch.
    + destruct (IH (S i)) as (l & rest & Heq & -> & Hl & Hrest).
      exists (String ch l), rest. simpl. rewrite Heq.
      repeat split; auto.
      * f_equal. lia.
      * apply all_chars_cons; auto.
    + exists EmptyString, (String ch s). simpl. rewrite Nat.add_0_r.
      repeat split; auto using all_chars_nil.
Qed.

Lemma alpha_loop_app l d i :
  all_chars isalpha l →
  match d with String ch _ => isalpha ch = false | EmptyString => True end →
  alpha_loop (l +:+ d) i = (i + String.length l, d).
Proof.
  revert i. induction l as [|ch l IH]; intros i Hl Hd; simpl.
  - rewrite Nat.add_0_r. destruct d as [|ch d]; simpl; [done|]. by rewrite Hd.
  - apply all_chars_cons in Hl as [-> Hl]. rewrite IH by done. f_equal. lia.
Qed.

Lemma digit_loop_spec s n m :
  Enhanced.digit_loop s n = Some m ↔ all_chars isdigit s ∧ m = n + String.length s.
Proof.
  revert n. induction s as [|ch s IH]; intros n; simpl.
  - split.
    + intros [= <-]. split; [apply all_chars_nil | lia].
    + intros [_ ->]. f_equal. lia.
  - rewrite all_chars_cons. destruct (isdigit ch); simpl.
    + rewrite IH. split; intros [? ->]; (split; [tauto | lia]).
    + split; [done | intros [[? _] _]; done].
Qed.

Lemma all_digits_spec s : Harness.all_digits s = true ↔ all_chars isdigit s.
Proof.
  induction s as [|ch s IH]; simpl.
  - split; auto using all_chars_nil.
  - rewrite all_chars_cons. destruct (isdigit ch); simpl; [tauto|].
    split; [done | intros [? _]; done].
Qed.

Lemma length_append (a b : string) :
  String.length (a +:+ b) = String.length a + String.length b.
Proof. induction a as [|ch a IH]; simpl; [done | by rewrite IH]. Qed.

Lemma digits_head_not_alpha d :
  all_chars isdigit d →
  match d with String ch _ => isalpha ch = false | EmptyString => True end.
Proof.
  destruct d as [|ch d]; [done|].
  intros [H _]%all_chars_cons. by apply isdigit_not_isalpha.
Qed.

(** The check of [EnhancementTwo.cpp]. *)
Lemma Enhanced_isValidCourseId_spec k :
  Enhanced.isValidCourseId k = true ↔
  letters_then_digits k ∧ String.length k ≤ 20.
Proof.
  unfold Enhanced.isValidCourseId, letters_then_digits. split.
  - destruct (alpha_loop_spec k 0) as (l & rest & Heq & Hk & Hl & Hrest).
    rewrite Heq. simpl.
    destruct (String.length k =? 0)%nat eqn:H0; [done|].
    destruct (20 <? String.length k)%nat eqn:H20; [done|]. simpl.
    destruct (String.length l <? 2)%nat eqn:H2; [done|].
    destruct (4 <? String.length l)%nat eqn:H4; [done|]. simpl.
    destruct (Enhanced.digit_loop rest 0) as [numCount|] eqn:Hd; [|done].
    apply digit_loop_spec in Hd as [Hd ->]. simpl.
    destruct (String.length rest <? 3)%nat eqn:H3; [done|]. intros _.
    apply Nat.ltb_ge in H20, H2, H4, H3.
    split; [|lia]. exists l, rest. repeat split; auto; lia.
  - intros [(l & d & -> & Hl & Hd & Hll & Hld) Hlen].
    rewrite length_append in *.
    rewrite (alpha_loop_app l d 0 Hl (digits_head_not_alpha d Hd)). simpl.
    destruct (String.length l + String.length d =? 0)%nat eqn:H0;
      [apply Nat.eqb_eq in H0; lia|].
    destruct (20 <? String.length l + String.length d)%nat eqn:H20;
      [apply Nat.ltb_lt in H20; lia|]. simpl.
    destruct (String.length l <? 2)%nat eqn:H2; [apply Nat.ltb_lt in H2; lia|].
    destruct (4 <? String.length l)%nat eqn:H4; [apply Nat.ltb_lt in H4; lia|].
    simpl.
    destruct (Enhanced.digit_loop d 0) as [numCount|] eqn:Hdl.
    + apply digit_loop_spec in Hdl as [_ ->]. simpl.
      destruct (String.length d <? 3)%nat eqn:H3; [apply Nat.ltb_lt in H3; lia|done].
    + assert (Enhanced.digit_loop d 0 = Some (0 + String.length d)) as Hs
        by (by apply digit_loop_spec).
      congruence.
Qed.

(** The check of [EnhancementTwoTest.cpp]. *)
Lemma Harness_isValidCourseId_spec k :
  Harness.isValidCourseId k = true ↔
  Harness.has_test_prefix k = true ∨
  (letters_then_digits k ∧ 5 ≤ String.length k ≤ 7).
Proof.
  unfold Harness.isValidCourseId, letters_then_digits.
  destruct (Harness.has_test_prefix k); [split; auto|].
  split.
  - destruct (alpha_loop_spec k 0) as (l & rest & Heq & Hk & Hl & Hrest).
    rewrite Heq. simpl.
    destruct (String.length k <? 5)%nat eqn:H5; [done|].
    destruct (7 <? String.length k)%nat eqn:H7; [done|]. simpl.
    destruct (String.length l <? 2)%nat eqn:H2; [done|].
    destruct (4 <? String.length l)%nat eqn:H4; [done|]. simpl.
    destruct (String.length k - String.length l <? 3)%nat eqn:H3; [done|].
    intros Hd%all_digits_spec. right.
    apply Nat.ltb_ge in H5, H7, H2, H4, H3.
    split; [|lia]. exists l, rest. subst k. rewrite length_append in *.
    repeat split; auto; lia.
  - intros [?|[(l & d & -> & Hl & Hd & Hll & Hld) Hlen]]; [done|].
    rewrite length_append in *.
    rewrite (alpha_loop_app l d 0 Hl (digits_head_not_alpha d Hd)). simpl.
    destruct (String.length l + String.length d <? 5)%nat eqn:H5;
      [apply Nat.ltb_lt in H5; lia|].
    destruct (7 <? String.length l + String.length d)%nat eqn:H7;
      [apply Nat.ltb_lt in H7; lia|]. simpl.
    destruct (String.length l <? 2)%nat eqn:H2; [apply Nat.ltb_lt in H2; lia|].
    destruct (4 <? String.length l)%nat eqn:H4; [apply Nat.ltb_lt in H4; lia|].
    simpl.
    destruct (String.length l + String.length d - String.length l <? 3)%nat eqn:H3;
      [apply Nat.ltb_lt in H3; lia|].
    by apply all_digits_spec.
Qed.

(** ** The order of [std::string] *)

Section string_order.

Lemma ascii_compare_refl ch : Ascii.compare ch ch = Eq.
Proof. unfold Ascii.compare. apply N.compare_refl. Qed.

Lemma ascii_compare_lt_trans a b c :
  Ascii.compare a b = Lt → Ascii.compare b c = Lt → Ascii.compare a c = Lt.
Proof.
  unfold Ascii.compare. rewrite !N.compare_lt_iff. apply N.lt_trans.
Qed.

Lemma string_compare_refl s : String.compare s s = Eq.
Proof.
  induction s as [|ch s IH]; simpl; [done|]. by rewrite ascii_compare_refl.
Qed.

Lemma string_compare_lt_trans a b c :
  String.compare a b = Lt → String.compare b c = Lt → String.compare a c = Lt.
Proof.
  revert b c. induction a as [|x a IH]; intros [|y b] [|z c]; simpl; try done.
  destruct (Ascii.compare x y) eqn:Hxy; try done.
  - apply Ascii.compare_eq_iff in Hxy as ->.
    destruct (Ascii.compare y z) eqn:Hyz; try done. apply IH.
  - intros _. destruct (Ascii.compare y z) eqn:Hyz; try done.
    + apply Ascii.compare_eq_iff in Hyz as <-. by rewrite Hxy.
    + by rewrite (ascii_compare_lt_trans x y z).
Qed.

Lemma str_lt_irrefl a : ¬ str_lt a a.
Proof. unfold str_lt, String.ltb. by rewrite string_compare_refl. Qed.

Lemma str_lt_compare a b : str_lt a b ↔ String.compare a b = Lt.
Proof. unfold str_lt, String.ltb. destruct (String.compare a b); naive_solver. Qed.

Lemma str_lt_trans a b c : str_lt a b → str_lt b c → str_lt a c.
Proof. rewrite !str_lt_compare. apply string_compare_lt_trans. Qed.

Lemma str_lt_total a b : str_lt a b ∨ a = b ∨ str_lt b a.
Proof.
  rewrite !str_lt_compare. rewrite (String.compare_antisym b a).
  destruct (String.compare a b) eqn:H; simpl; auto.
  right; left. by apply String.compare_eq_iff.
Qed.

Lemma str_le_not_lt a b : str_le a b ↔ ¬ str_lt b a.
Proof. unfold str_le, str_lt. destruct (String.ltb b a); naive_solver. Qed.

Lemma str_le_refl a : str_le a a.
Proof. apply str_le_not_lt, str_lt_irrefl. Qed.

Lemma str_lt_le a b : str_lt a b → str_le a b.
Proof.
  rewrite str_le_not_lt. intros H1 H2.
  exact (str_lt_irrefl a (str_lt_trans _ _ _ H1 H2)).
Qed.

Lemma str_lt_le_trans a b c : str_lt a b → str_le b c → str_lt a c.
Proof.
  rewrite str_le_not_lt. intros H1 H2.
  destruct (str_lt_total a c) as [?|[->|H3]]; [done|done|].
  destruct H2. by apply str_lt_trans with a.
Qed.

Lemma str_le_lt_trans a b c : str_le a b → str_lt b c → str_lt a c.
Proof.
  rewrite str_le_not_lt. intros H1 H2.
  destruct (str_lt_total a c) as [?|[->|H3]]; [done|done|].
  destruct H1. by apply str_lt_trans with c.
Qed.

Lemma str_le_trans a b c : str_le a b → str_le b c → str_le a c.
Proof.
  intros H1 H2. apply str_le_not_lt. intros H3.
  apply str_le_not_lt in H1. apply H1. by apply str_le_lt_trans with c.
Qed.

Lemma str_le_neq_lt a b : str_le a b → a ≠ b → str_lt a b.
Proof.
  rewrite str_le_not_lt. intros H1 H2.
  destruct (str_lt_total a b) as [?|[?|?]]; done.
Qed.

#[global] Instance str_le_transitive : Transitive str_le := str_le_trans.
#[global] Instance str_lt_transitive : Transitive str_lt := str_lt_trans.

End string_order.

(** ** The ordered tree *)

Section tree.
Implicit Types (h : list Course) (nd : Node) (p q : ptr).

Lemma inorder_node c l r : inorder (node c l r) = inorder l ++ c :: inorder r.
Proof. done. Qed.

Lemma bst_ptr_valid h nd p : bst h nd → p ∈ inorder nd → is_Some (h !! p).
Proof.
  destruct nd as [|c l r]; simpl; [by intros _ ?%elem_of_nil|].
  intros (cur & Hc & _ & _ & Hv & _) [?|[->|?]%elem_of_cons]%elem_of_app.
  - apply Hv. set_solver.
  - eauto.
  - apply Hv. set_solver.
Qed.

(** Allocating a record leaves the tree a search tree. *)
Lemma bst_heap_app h nd c : bst h nd → bst (h ++ [c]) nd.
Proof.
  induction nd as [|c0 l IHl r IHr]; simpl; [done|].
  intros (cur & Hc & Hl & Hr & Hv & Bl & Br).
  exists cur. split_and!; auto.
  - by apply lookup_app_l_Some.
  - intros p x Hp Hx. destruct (Hv p) as [y Hy]; [set_solver|].
    rewrite (lookup_app_l_Some _ _ _ _ Hy) in Hx. simplify_eq. eauto.
  - intros p x Hp Hx. destruct (Hv p) as [y Hy]; [set_solver|].
    rewrite (lookup_app_l_Some _ _ _ _ Hy) in Hx. simplify_eq. eauto.
  - intros p Hp. destruct (Hv p Hp) as [y Hy].
    exists y. by apply lookup_app_l_Some.
Qed.

Lemma bst_leaf h p c : h !! p = Some c → bst h (node p null null).
Proof.
  intros Hp. simpl. exists c. split_and!; auto.
  - by intros ?? ?%elem_of_nil.
  - by intros ?? ?%elem_of_nil.
  - by intros ? ?%elem_of_nil.
Qed.

(** [addNode] returns, keeps the search-tree shape, and puts the new
    pointer after every record with a key that is not greater and before
    every record with a greater key. *)
Lemma addNode_spec h nd p new :
  bst h nd → nd ≠ null → h !! p = Some new →
  ∃ nd' l1 l2,
    addNode h nd p = Ok nd' ∧ bst h nd' ∧
    inorder nd = l1 ++ l2 ∧ inorder nd' = l1 ++ p :: l2 ∧
    (∀ q x, q ∈ l1 → h !! q = Some x → str_le (courseId x) (courseId new)) ∧
    (∀ q x, q ∈ l2 → h !! q = Some x → str_lt (courseId new) (courseId x)).
Proof.
  intros Hb Hnn Hp. induction nd as [|c l IHl r IHr]; [done|]. clear Hnn.
  destruct Hb as (cur & Hc & Hl & Hr & Hv & Bl & Br).
  cbn [addNode]. unfold load. rewrite Hp, Hc. cbn [mbind outcome_bind].
  destruct (String.ltb (courseId new) (courseId cur)) eqn:Hlt.
  - assert (∀ q x, q ∈ c :: inorder r → h !! q = Some x →
                   str_lt (courseId new) (courseId x)) as Hgt.
    { intros q x [->|Hq]%elem_of_cons Hx.
      - by simplify_eq.
      - eapply str_lt_le_trans; [exact Hlt|]. eauto. }
    destruct l as [|lc ll lr].
    + exists (node c (node p null null) r), [], (c :: inorder r).
      split_and!; auto.
      * exists cur. split_and!; auto.
        -- intros q x ->%list_elem_of_singleton Hx. by simplify_eq.
        -- intros q [->%list_elem_of_singleton|Hq]%elem_of_app; [eauto|].
           apply Hv. set_solver.
        -- by eapply bst_leaf.
      * by intros ?? ?%elem_of_nil.
    + cbv iota. remember (node lc ll lr) as l eqn:El in *.
      destruct (IHl Bl) as (l' & l1 & l2 & -> & Bl' & Hin & Hin' & H1 & H2);
        [by rewrite El|]. clear El.
      exists (node c l' r), l1, (l2 ++ c :: inorder r).
      cbn [mbind outcome_bind]. rewrite !inorder_node, Hin, Hin'.
      split_and!; auto.
      * exists cur. split_and!; auto.
        -- intros q x Hq Hx. rewrite Hin' in Hq.
           apply elem_of_app in Hq as [Hq|[->|Hq]%elem_of_cons].
           ++ apply (Hl q x); [rewrite Hin; set_solver | done].
           ++ by simplify_eq.
           ++ apply (Hl q x); [rewrite Hin; set_solver | done].
        -- intros q Hq. rewrite Hin' in Hq.
           destruct (decide (q = p)) as [->|Hne]; [eauto|].
           apply Hv. rewrite Hin, !elem_of_app.
           rewrite !elem_of_app, elem_of_cons in Hq. tauto.
      * by rewrite <- app_assoc.
      * by rewrite <- app_assoc.
      * intros q x [Hq|Hq]%elem_of_app Hx; eauto.
  - assert (∀ q x, q ∈ inorder l ++ [c] → h !! q = Some x →
                   str_le (courseId x) (courseId new)) as Hle.
    { intros q x [Hq| ->%list_elem_of_singleton]%elem_of_app Hx.
      - apply str_lt_le. eapply str_lt_le_trans; [by eapply Hl|]. exact Hlt.
      - by simplify_eq. }
    destruct r as [|rc rl rr].
    + exists (node c l (node p null null)), (inorder l ++ [c]), [].
      cbn [inorder]. split_and!; auto.
      * exists cur. split_and!; auto.
        -- intros q x ->%list_elem_of_singleton Hx. by simplify_eq.
        -- intros q [Hq| ->%list_elem_of_singleton]%elem_of_app; [|eauto].
           apply Hv. set_solver.
        -- by eapply bst_leaf.
      * by rewrite app_nil_r.
      * by rewrite <- app_assoc.
      * by intros ?? ?%elem_of_nil.
    + cbv iota. remember (node rc rl rr) as r eqn:Er in *.
      destruct (IHr Br) as (r' & l1 & l2 & -> & Br' & Hin & Hin' & H1 & H2);
        [by rewrite Er|]. clear Er.
      exists (node c l r'), (inorder l ++ c :: l1), l2.
      cbn [mbind outcome_bind]. rewrite !inorder_node, Hin, Hin'.
      split_and!; auto.
      * exists cur. split_and!; auto.
        -- intros q x Hq Hx. rewrite Hin' in Hq.
           apply elem_of_app in Hq as [Hq|[->|Hq]%elem_of_cons].
           ++ apply (Hr q x); [rewrite Hin; set_solver | done].
           ++ by simplify_eq.
           ++ apply (Hr q x); [rewrite Hin; set_solver | done].
        -- intros q Hq. rewrite Hin' in Hq.
           destruct (decide (q = p)) as [->|Hne]; [eauto|].
           apply Hv. rewrite Hin, !elem_of_app.
           rewrite !elem_of_app, elem_of_cons in Hq. tauto.
      * by rewrite <- app_assoc.
      * by rewrite <- app_assoc.
      * intros q x [Hq|[->|Hq]%elem_of_cons]%elem_of_app Hx.
        -- apply (Hle q x); [set_solver | done].
        -- apply (Hle c x); [set_solver | done].
        -- eauto.
Qed.

End tree.

(** ** Enumeration *)

Section enumeration.
Implicit Types (h : list Course) (nd : Node) (cs : list Course).

Lemma records_at_app_inv h ps1 ps2 cs :
  records_at h (ps1 ++ ps2) cs →
  ∃ cs1 cs2, cs = cs1 ++ cs2 ∧ records_at h ps1 cs1 ∧ records_at h ps2 cs2.
Proof.
  intros (cs1 & cs2 & H1 & H2 & ->)%Forall2_app_inv_l. by exists cs1, cs2.
Qed.

Lemma records_at_elem h ps cs c :
  records_at h ps cs → c ∈ cs → ∃ p, p ∈ ps ∧ h !! p = Some c.
Proof.
  intros HF [i Hi]%list_elem_of_lookup.
  destruct (Forall2_lookup_r _ _ _ _ _ HF Hi) as (p & Hp & Hpc).
  exists p. split; [by eapply list_elem_of_lookup_2 | done].
Qed.

Lemma records_at_heap_app h ps cs c :
  records_at h ps cs → records_at (h ++ [c]) ps cs.
Proof.
  unfold records_at. intros H. eapply Forall2_impl; [exact H|].
  intros p x. apply lookup_app_l_Some.
Qed.

Lemma records_at_exists h ps :
  (∀ p, p ∈ ps → is_Some (h !! p)) → ∃ cs, records_at h ps cs.
Proof.
  induction ps as [|p ps IH]; intros Hv.
  - exists []. constructor.
  - destruct (Hv p) as [c Hc]; [by left|].
    destruct IH as [cs Hcs]; [intros q Hq; apply Hv; by right|].
    exists (c :: cs). by constructor.
Qed.

Lemma printSampleSchedule_spec h nd cs :
  records_at h (inorder nd) cs →
  printSampleSchedule h nd = Ok ((λ c, (courseId c, courseTitle c)) <$> cs).
Proof.
  revert cs. induction nd as [|c l IHl r IHr]; intros cs Hcs.
  - apply Forall2_nil_inv_l in Hcs as ->. done.
  - rewrite inorder_node in Hcs.
    apply records_at_app_inv in Hcs as (cs1 & cs2 & -> & H1 & H2).
    apply Forall2_cons_inv_l in H2 as (cur & cs3 & Hc & H3 & ->).
    cbn [printSampleSchedule]. rewrite (IHl _ H1), (IHr _ H3).
    unfold load. rewrite Hc. cbn [mbind outcome_bind].
    by rewrite fmap_app, fmap_cons.
Qed.

Lemma bst_sorted h nd cs :
  bst h nd → records_at h (inorder nd) cs →
  StronglySorted str_le (courseId <$> cs).
Proof.
  revert cs. induction nd as [|c l IHl r IHr]; intros cs Hb Hcs.
  - apply Forall2_nil_inv_l in Hcs as ->. constructor.
  - rewrite inorder_node in Hcs.
    destruct Hb as (cur & Hc & Hl & Hr & Hv & Bl & Br).
    apply records_at_app_inv in Hcs as (cs1 & cs2 & -> & H1 & H2).
    apply Forall2_cons_inv_l in H2 as (cur' & cs3 & Hc' & H3 & ->).
    assert (cur' = cur) as -> by congruence.
    rewrite fmap_app, fmap_cons.
    apply StronglySorted_app. split_and!.
    + intros k1 k2 (x & -> & Hx)%list_elem_of_fmap Hk2.
      destruct (records_at_elem _ _ _ _ H1 Hx) as (p & Hp & Hpx).
      pose proof (Hl p x Hp Hpx) as Hlt.
      apply elem_of_cons in Hk2 as [->|(y & -> & Hy)%list_elem_of_fmap].
      * by apply str_lt_le.
      * destruct (records_at_elem _ _ _ _ H3 Hy) as (q & Hq & Hqy).
        apply str_lt_le. eapply str_lt_le_trans; [exact Hlt|]. eauto.
    + by apply IHl.
    + apply StronglySorted_cons. split; [|by apply IHr].
      apply Forall_forall. intros k (y & -> & Hy)%list_elem_of_fmap.
      destruct (records_at_elem _ _ _ _ H3 Hy) as (q & Hq & Hqy). eauto.
Qed.

Lemma bst_records h nd : bst h nd → ∃ cs, records_at h (inorder nd) cs.
Proof. intros Hb. apply records_at_exists. intros p. by apply bst_ptr_valid. Qed.

Lemma enumerate_spec st cs :
  records_at (heap st) (inorder (root st)) cs →
  enumerate st = Ok (courseId <$> cs).
Proof.
  intros Hcs. unfold enumerate. rewrite (printSampleSchedule_spec _ _ _ Hcs).
  cbn [fmap outcome_fmap]. f_equal. rewrite <- list_fmap_compose. done.
Qed.

Lemma sorted_nodup_strict (ks : list string) :
  StronglySorted str_le ks → NoDup ks → StronglySorted str_lt ks.
Proof.
  induction 1 as [|k ks Hs IH Hk]; [constructor|].
  intros [Hnin Hnd]%NoDup_cons. constructor; [by apply IH|].
  apply Forall_forall. intros x Hx. apply str_le_neq_lt.
  - rewrite Forall_forall in Hk. by apply Hk.
  - intros ->. done.
Qed.

End enumeration.

(** ** Insertion *)

Section insertion.
Variable isValid : string → bool.

Lemma catalog_wf_empty : catalog_wf isValid empty_State.
Proof.
  split_and!; simpl; [|done|]; intros k p Hk; cbn in Hk;
    by rewrite lookup_empty in Hk.
Qed.

Lemma alloc_lookup c st : heap (alloc c st).2 !! (alloc c st).1 = Some c.
Proof. simpl. apply list_lookup_middle. done. Qed.

Lemma catalog_wf_alloc c st :
  catalog_wf isValid st → catalog_wf isValid (alloc c st).2.
Proof.
  intros (Hm & Hb & Hk). split_and!; simpl.
  - intros k p Hp. destruct (Hm k p Hp) as (x & Hx & Hid).
    exists x. split; [by apply lookup_app_l_Some | done].
  - by apply bst_heap_app.
  - done.
Qed.

(** A key that fails the format check: [invalid_argument], nothing written. *)
Lemma Insert_rejects p c st :
  heap st !! p = Some c → isValid (courseId c) = false →
  Insert_with isValid (Some p) st
  = (Throw (invalid_argument ("Invalid course ID format: " +:+ courseId c)), st).
Proof. intros Hp Hv. unfold Insert_with. by rewrite Hp, Hv. Qed.

(** A key that passes it: the call returns, the map entry of the key is
    (over)written, one node is added to the tree, the arena is untouched. *)
Lemma Insert_accepts p c st :
  catalog_wf isValid st → heap st !! p = Some c → isValid (courseId c) = true →
  ∃ r' l1 l2,
    Insert_with isValid (Some p) st
    = (Ok (), mkState (heap st) r' (<[courseId c := p]> (courseMap st))) ∧
    inorder (root st) = l1 ++ l2 ∧ inorder r' = l1 ++ p :: l2 ∧
    (∀ q x, q ∈ l1 → heap st !! q = Some x → str_le (courseId x) (courseId c)) ∧
    (∀ q x, q ∈ l2 → heap st !! q = Some x → str_lt (courseId c) (courseId x)) ∧
    catalog_wf isValid (mkState (heap st) r' (<[courseId c := p]> (courseMap st))).
Proof.
  intros (Hm & Hb & Hk) Hp Hv. unfold Insert_with. rewrite Hp, Hv. cbn [negb].
  assert (∀ r' l1 l2,
    bst (heap st) r' → inorder (root st) = l1 ++ l2 → inorder r' = l1 ++ p :: l2 →
    catalog_wf isValid (mkState (heap st) r' (<[courseId c := p]> (courseMap st))))
    as Hwf.
  { intros r' l1 l2 Hb' Hin Hin'. split_and!; simpl; [|done|].
    - unfold map_wf. simpl. intros k q. rewrite lookup_insert.
      case_decide as Hkc.
      + intros [= <-]. eauto.
      + apply Hm.
    - intros k q. rewrite lookup_insert. case_decide as Hkc.
      + intros [= <-]. subst k. split; [|done]. rewrite Hin'.
        apply elem_of_app. right. by left.
      + intros Hq. destruct (Hk k q Hq) as [Hq' ?]. split; [|done].
        rewrite Hin in Hq'. rewrite Hin', elem_of_app, elem_of_cons.
        apply elem_of_app in Hq'. tauto. }
  destruct (root st) as [|rc rl rr] eqn:Hroot.
  - exists (node p null null), [], []. split_and!; auto.
    + by intros ?? ?%elem_of_nil.
    + by intros ?? ?%elem_of_nil.
    + apply (Hwf _ [] []); [by eapply bst_leaf|done|done].
  - destruct (addNode_spec (heap st) (node rc rl rr) p c Hb) as
      (r' & l1 & l2 & Hadd & Hb' & Hin & Hin' & H1 & H2); [done|done|].
    rewrite Hadd. exists r', l1, l2. split_and!; auto.
    by apply (Hwf _ l1 l2).
Qed.

(** One record loaded: the invariant is kept, and the records of the tree
    are the old ones plus the new one exactly when its key is accepted. *)
Lemma insert_new_spec c st cs :
  catalog_wf isValid st → records_at (heap st) (inorder (root st)) cs →
  ∃ cs', catalog_wf isValid (insert_new (Insert_with isValid) c st).2 ∧
         records_at (heap (insert_new (Insert_with isValid) c st).2)
                    (inorder (root (insert_new (Insert_with isValid) c st).2)) cs' ∧
         cs' ≡ₚ (if isValid (courseId c) then c :: cs else cs).
Proof.
  intros Hwf Hcs. unfold insert_new.
  pose proof (catalog_wf_alloc c st Hwf) as Hwf'.
  pose proof (alloc_lookup c st) as Hp.
  pose proof (records_at_heap_app _ _ _ c Hcs) as Hcs'.
  destruct (alloc c st) as [p st'] eqn:Halloc. simpl in Hwf', Hp.
  assert (heap st' = heap st ++ [c] ∧ root st' = root st) as [Hh Hr].
  { unfold alloc in Halloc. by simplify_eq. }
  rewrite <- Hh, <- Hr in Hcs'.
  destruct (isValid (courseId c)) eqn:Hv.
  - destruct (Insert_accepts p c st' Hwf' Hp Hv) as
      (r' & l1 & l2 & -> & Hin & Hin' & _ & _ & Hwf''). simpl.
    rewrite Hin in Hcs'.
    apply records_at_app_inv in Hcs' as (cs1 & cs2 & -> & H1 & H2).
    exists (cs1 ++ c :: cs2). split_and!; [done| |].
    + rewrite Hin'. apply Forall2_app; [done|]. by constructor.
    + by rewrite Permutation_middle.
  - rewrite (Insert_rejects p c st' Hp Hv). simpl. by exists cs.
Qed.

Lemma insert_all_snoc Insert cs c st :
  insert_all Insert (cs ++ [c]) st
  = (insert_new Insert c (insert_all Insert cs st)).2.
Proof. unfold insert_all. by rewrite foldl_snoc. Qed.

Lemma insert_all_spec cs :
  ∃ rs, catalog_wf isValid (insert_all (Insert_with isValid) cs empty_State) ∧
        records_at (heap (insert_all (Insert_with isValid) cs empty_State))
                   (inorder (root (insert_all (Insert_with isValid) cs empty_State)))
                   rs ∧
        rs ≡ₚ filter (λ c, isValid (courseId c)) cs.
Proof.
  induction cs as [|c cs IH] using rev_ind.
  - exists []. split_and!; [apply catalog_wf_empty|constructor|done].
  - destruct IH as (rs & Hwf & Hrs & Hperm). rewrite insert_all_snoc.
    destruct (insert_new_spec c _ rs Hwf Hrs) as (rs' & Hwf' & Hrs' & Hperm').
    exists rs'. split_and!; [done|done|].
    rewrite Hperm', filter_app.
    destruct (isValid (courseId c)) eqn:Hv.
    + rewrite filter_cons_True by (cbn; by rewrite Hv). rewrite filter_nil.
      rewrite Hperm. by rewrite <- Permutation_cons_append.
    + rewrite filter_cons_False by (cbn; rewrite Hv; tauto). rewrite filter_nil.
      by rewrite app_nil_r.
Qed.

End insertion.

(** ** The prerequisite graph *)

Section graph.
Variable st : State.
Hypothesis Hwf : map_wf st.

Lemma record_of_Some k p c :
  courseMap st !! k = Some p → heap st !! p = Some c → record_of st k = Some c.
Proof. intros Hk Hp. unfold record_of. rewrite Hk. done. Qed.

Lemma record_of_inv k c :
  record_of st k = Some c →
  ∃ p, courseMap st !! k = Some p ∧ heap st !! p = Some c ∧ courseId c = k.
Proof.
  unfold record_of. destruct (courseMap st !! k) as [p|] eqn:Hk; [|done].
  simpl. intros Hp. destruct (Hwf k p Hk) as (c' & Hc' & Hid).
  exists p. split_and!; auto. congruence.
Qed.

Lemma edge_intro a p c b :
  courseMap st !! a = Some p → heap st !! p = Some c →
  b ∈ prereqs c → is_Some (courseMap st !! b) → edge st a b.
Proof. intros Ha Hp Hb Hr. exists c. eauto using record_of_Some. Qed.

Lemma edge_inv a p c b :
  courseMap st !! a = Some p → heap st !! p = Some c → edge st a b →
  b ∈ prereqs c ∧ is_Some (courseMap st !! b).
Proof.
  intros Ha Hp (c' & Hrec & Hb & Hr).
  rewrite (record_of_Some a p c Ha Hp) in Hrec. by simplify_eq.
Qed.

Lemma edge_dom a b : edge st a b → is_Some (courseMap st !! a).
Proof. intros (c & (p & Hp & _)%record_of_inv & _). eauto. Qed.

Lemma tc_inv_l (a b : string) :
  tc (edge st) a b → ∃ y, edge st a y ∧ rtc (edge st) y b.
Proof.
  inversion 1 as [x y Hxy|x y z Hxy Hyz]; subst.
  - exists b. split; [done | apply rtc_refl].
  - exists y. split; [done | by apply tc_rtc].
Qed.

Lemma finished_empty : finished st ∅.
Proof. clear Hwf. split; intros x; set_solver. Qed.

Lemma finished_rtc B x y : finished st B → x ∈ B → rtc (edge st) x y → y ∈ B.
Proof. intros [Hcl _] Hx Hxy. induction Hxy; eauto. Qed.

Lemma finished_no_cycle B k : finished st B → k ∈ B → ¬ cycle_reachable st k.
Proof.
  intros HB Hk (x & Hkx & Hxx). destruct HB as [Hcl Hac].
  apply (Hac x); [|done]. by eapply finished_rtc.
Qed.

(** Finishing [u]: all its resolved prerequisites are finished, and [u]
    itself is still on the recursion stack. *)
Lemma finished_add B u :
  finished st B → u ∉ B →
  (∀ y, edge st u y → y ∈ B) →
  finished st ({[u]} ∪ B).
Proof.
  intros HB Hu Hsucc. split.
  - intros x y [->%elem_of_singleton|Hx]%elem_of_union Hxy.
    + apply elem_of_union_r. by apply Hsucc.
    + apply elem_of_union_r. destruct HB as [Hcl _]. eauto.
  - intros x [->%elem_of_singleton|Hx]%elem_of_union Hxx.
    + apply tc_inv_l in Hxx as (y & Huy & Hyu).
      apply Hu. eapply finished_rtc; [done| |done]. by apply Hsucc.
    + destruct HB as [_ Hac]. by apply (Hac x).
Qed.

Lemma size_unvisited_lt (u : string) (V : gset string) :
  is_Some (courseMap st !! u) → u ∉ V →
  size (dom (courseMap st) ∖ ({[u]} ∪ V)) < size (dom (courseMap st) ∖ V).
Proof.
  clear Hwf. intros Hu%elem_of_dom HV. apply subset_size.
  apply strict_spec_alt. split; [set_solver|].
  intros Heq. assert (u ∈ dom (courseMap st) ∖ V) as Hin by set_solver.
  rewrite <- Heq in Hin. set_solver.
Qed.

Lemma size_unvisited_mono (V V' : gset string) :
  V ⊆ V' → size (dom (courseMap st) ∖ V') ≤ size (dom (courseMap st) ∖ V).
Proof. clear Hwf. intros HV. apply subseteq_size. set_solver. Qed.

End graph.

(** ** Cycle detection *)

Section hasCycle.
Variable st : State.
Hypothesis Hwf : map_wf st.

Local Abbreviation G := (edge st).
Local Abbreviation D := (dom (courseMap st)).

Lemma cycle_reachable_step u y :
  edge st u y → cycle_reachable st y → cycle_reachable st u.
Proof. intros Huy (x & Hyx & Hxx). exists x. split; [by eapply rtc_l|done]. Qed.

(** The loop over the prerequisites of [u], given that the nested calls
    behave. *)
Lemma hasCycle_loop_spec n descend u p c :
  (∀ q v V S,
      courseMap st !! v = Some q → v ∉ V → S ⊆ V → finished st (V ∖ S) →
      (∀ s, s ∈ S → rtc G s v) → size (D ∖ V) ≤ n →
      ∃ r, descend (Some q) V S = Ok r ∧ hasCycle_post st v V S r) →
  courseMap st !! u = Some p → heap st !! p = Some c →
  ∀ ps V1 S1,
    (∀ y, y ∈ ps → y ∈ prereqs c) →
    u ∈ S1 → S1 ⊆ V1 → finished st (V1 ∖ S1) →
    (∀ s, s ∈ S1 → rtc G s u) → size (D ∖ V1) ≤ n →
    ∃ r, Enhanced.hasCycle_loop st descend ps V1 S1 = Ok r ∧ V1 ⊆ r.1.2 ∧
         if r.1.1 then cycle_reachable st u
         else r.2 = S1 ∧ finished st (r.1.2 ∖ S1) ∧
              ∀ y, y ∈ ps → is_Some (courseMap st !! y) → y ∈ r.1.2 ∖ S1.
Proof.
  intros Hdesc Hu Hp. induction ps as [|y ps IH]; intros V1 S1 Hps HuS HSV Hfin Hstack Hsize.
  - exists (false, V1, S1). simpl. split_and!; auto.
    by intros y ?%elem_of_nil.
  - assert (∀ y', y' ∈ ps → y' ∈ prereqs c) as Hps'
      by (intros y' Hy'; apply Hps; by right).
    cbn [Enhanced.hasCycle_loop]. unfold FindCourse.
    destruct (courseMap st !! y) as [q|] eqn:Hy.
    + assert (edge st u y) as Huy.
      { eapply edge_intro; eauto. apply Hps. by left. }
      destruct (decide (y ∈ S1)) as [HyS|HyS].
      { exists (true, V1, S1). simpl. split_and!; auto.
        exists u. split; [apply rtc_refl|].
        eapply tc_rtc_r; [by apply tc_once|]. by apply Hstack. }
      destruct (decide (y ∈ V1)) as [HyV|HyV].
      { destruct (IH V1 S1) as (r & Hr & HV & Hpost); auto.
        exists r. split_and!; auto.
        destruct r as [[[] V'] S']; simpl in *; [done|].
        destruct Hpost as (-> & Hfin' & Hdone). split_and!; auto.
        intros y' [->|Hy']%elem_of_cons Hres; [set_solver|auto]. }
      destruct (Hdesc q y V1 S1) as ([[b V'] S'] & -> & HV & HyV' & Hpost); auto.
      { intros s Hs. eapply rtc_r; [by apply Hstack|done]. }
      simpl in HV, HyV', Hpost. cbn [mbind outcome_bind].
      destruct b.
      { exists (true, V', S'). simpl. split_and!; auto.
        by eapply cycle_reachable_step. }
      destruct Hpost as [-> Hfin'].
      destruct (IH V' S1) as (r & Hr & HV' & Hpost); auto.
      { set_solver. }
      { etrans; [by apply size_unvisited_mono|done]. }
      exists r. split_and!; auto.
      { set_solver. }
      destruct r as [[[] V''] S'']; simpl in *; [done|].
      destruct Hpost as (-> & Hfin'' & Hdone). split_and!; auto.
      intros y' [->|Hy']%elem_of_cons Hres; [set_solver|auto].
    + destruct (IH V1 S1) as (r & Hr & HV & Hpost); auto.
      exists r. split_and!; auto.
      destruct r as [[[] V'] S']; simpl in *; [done|].
      destruct Hpost as (-> & Hfin' & Hdone). split_and!; auto.
      intros y' [->|Hy']%elem_of_cons Hres; [|auto].
      rewrite Hy in Hres. by destruct Hres.
Qed.

(** [hasCycle] returns; [true] means a cycle can be reached, [false] means
    everything newly visited is finished.  The budget needed is the number
    of catalog keys not yet visited. *)
Lemma hasCycle_spec fuel :
  ∀ q v V S,
    courseMap st !! v = Some q → v ∉ V → S ⊆ V → finished st (V ∖ S) →
    (∀ s, s ∈ S → rtc G s v) → size (D ∖ V) ≤ fuel →
    ∃ r, Enhanced.hasCycle fuel st (Some q) V S = Ok r ∧ hasCycle_post st v V S r.
Proof.
  induction fuel as [|fuel IH]; intros q v V S Hv HvV HSV Hfin Hstack Hsize.
  { pose proof (size_unvisited_lt st v V (mk_is_Some _ _ Hv) HvV). lia. }
  destruct (Hwf v q Hv) as (c & Hc & Hid).
  cbn [Enhanced.hasCycle]. unfold load. rewrite Hc. cbn [mbind outcome_bind].
  rewrite Hid.
  destruct (hasCycle_loop_spec fuel (Enhanced.hasCycle fuel st) v q c IH Hv Hc
              (prereqs c) ({[v]} ∪ V) ({[v]} ∪ S))
    as ([[b V'] S'] & -> & HV & Hpost); auto.
  { set_solver. }
  { set_solver. }
  { by replace (({[v]} ∪ V) ∖ ({[v]} ∪ S)) with (V ∖ S) by set_solver. }
  { intros s [->%elem_of_singleton|Hs]%elem_of_union; [apply rtc_refl|auto]. }
  { pose proof (size_unvisited_lt st v V (mk_is_Some _ _ Hv) HvV). lia. }
  simpl in HV, Hpost. destruct b.
  - exists (true, V', S'). unfold hasCycle_post. simpl.
    split_and!; [done|set_solver|set_solver|done].
  - destruct Hpost as (-> & Hfin' & Hdone).
    exists (false, V', ({[v]} ∪ S) ∖ {[v]}). unfold hasCycle_post. simpl.
    split_and!; [done|set_solver|set_solver|set_solver|].
    replace (V' ∖ S) with ({[v]} ∪ V' ∖ ({[v]} ∪ S)).
    + apply finished_add; [done|set_solver|].
      intros y Hy. destruct (edge_inv st v q c y Hv Hc Hy) as [Hin Hres]. auto.
    + apply set_eq. intros x. rewrite elem_of_union, !elem_of_difference,
        elem_of_union, elem_of_singleton.
      split; [intros [->|H]; [|tauto] | destruct (decide (x = v)); tauto].
      split; [set_solver|set_solver].
Qed.

(** [HasPrerequisiteCycle] on a key of the catalog: the call returns, and
    it returns [true] exactly when a cycle can be reached. *)
Lemma hasCycle_top k p :
  courseMap st !! k = Some p →
  ∃ b V S, Enhanced.hasCycle (size (courseMap st)) st (Some p) ∅ ∅ = Ok (b, V, S) ∧
           (b = true ↔ cycle_reachable st k).
Proof.
  intros Hk.
  destruct (hasCycle_spec (size (courseMap st)) p k ∅ ∅) as
    ([[b V] S] & Hr & HV & HkV & Hpost); auto.
  { set_solver. }
  { replace (∅ ∖ ∅ : gset string) with (∅ : gset string) by set_solver.
    apply finished_empty. }
  { set_solver. }
  { rewrite <- size_dom. apply subseteq_size. set_solver. }
  exists b, V, S. split; [done|]. simpl in *. destruct b.
  - tauto.
  - destruct Hpost as [_ Hfin]. split; [done|]. intros Hcyc.
    exfalso. eapply finished_no_cycle; [exact Hfin| |exact Hcyc]. set_solver.
Qed.

End hasCycle.

(** ** Prerequisite ordering *)

Section topologicalSort.
Variable st : State.
Hypothesis Hwf : map_wf st.

Local Abbreviation G := (edge st).
Local Abbreviation D := (dom (courseMap st)).

Lemma deps_below_edge ks x y : deps_below st ks → x ∈ ks → G x y → y ∈ ks.
Proof.
  induction ks as [|k ks IH]; [by intros _ ?%elem_of_nil|].
  intros [Hk Hks] [->|Hx]%elem_of_cons Hxy.
  - right. by apply Hk.
  - right. by apply IH.
Qed.

Lemma deps_below_rtc ks x y : deps_below st ks → x ∈ ks → rtc G x y → y ∈ ks.
Proof. intros Hks Hx Hxy. induction Hxy; eauto using deps_below_edge. Qed.

Lemma deps_below_app ks1 ks2 : deps_below st (ks1 ++ ks2) → deps_below st ks2.
Proof. induction ks1 as [|k ks1 IH]; [done|]. intros [_ H]. by apply IH. Qed.

(** Everything a key of the stack requires, directly or not, lies deeper. *)
Lemma deps_below_tc ks a x b y :
  deps_below st ks → ks = a ++ x :: b → tc G x y → y ∈ b.
Proof.
  intros Hks -> Hxy. apply deps_below_app in Hks as [Hx Hb].
  apply tc_inv_l in Hxy as (z & Hxz & Hzy).
  eapply deps_below_rtc; [done| |done]. by apply Hx.
Qed.

Lemma drain_spec Stack result : drain Stack result = result ++ Stack.
Proof.
  revert result. induction Stack as [|top rest IH]; intros result; simpl.
  - by rewrite app_nil_r.
  - by rewrite IH, <- app_assoc.
Qed.

(** The loop over the prerequisites of [u], given that the nested calls
    behave.  [ks] are the keys of [Stack]; [new] is what the loop pushes. *)
Lemma topologicalSort_loop_spec n descend u p c :
  (∀ q v V Stack ks,
      courseMap st !! v = Some q → v ∉ V →
      keys_at st Stack ks → NoDup ks → deps_below st ks →
      (∀ k, k ∈ ks → k ∈ V) → (∀ w, w ∈ V → w ∉ ks → tc G w v) →
      ¬ cycle_reachable st v → size (D ∖ V) ≤ n →
      ∃ V' newp new,
        descend q V Stack = Ok (V', newp ++ Stack) ∧
        keys_at st newp new ∧ NoDup (new ++ ks) ∧ deps_below st (new ++ ks) ∧
        (∀ k, k ∈ V' ↔ k ∈ V ∨ k ∈ new) ∧ v ∈ new ∧
        (∀ k, k ∈ new → rtc G v k ∧ k ∉ V)) →
  courseMap st !! u = Some p → heap st !! p = Some c →
  ¬ cycle_reachable st u →
  ∀ ps V Stack ks,
    (∀ y, y ∈ ps → y ∈ prereqs c) →
    keys_at st Stack ks → NoDup ks → deps_below st ks →
    (∀ k, k ∈ ks → k ∈ V) → (∀ w, w ∈ V → w ∉ ks → rtc G w u) →
    size (D ∖ V) ≤ n →
    ∃ V' newp new,
      topologicalSort_loop st descend ps V Stack = Ok (V', newp ++ Stack) ∧
      keys_at st newp new ∧ NoDup (new ++ ks) ∧ deps_below st (new ++ ks) ∧
      (∀ k, k ∈ V' ↔ k ∈ V ∨ k ∈ new) ∧
      (∀ k, k ∈ new → tc G u k ∧ k ∉ V) ∧
      (∀ y, y ∈ ps → is_Some (courseMap st !! y) → y ∈ new ++ ks).
Proof.
  intros Hdesc Hu Hp Hacyc.
  induction ps as [|y ps IH]; intros V Stack ks Hps Hkeys Hnd Hdeps HksV Hprog Hsize.
  - exists V, [], []. simpl. split_and!; auto.
    + constructor.
    + intros k. rewrite elem_of_nil. tauto.
    + by intros k ?%elem_of_nil.
    + by intros y ?%elem_of_nil.
  - assert (∀ y', y' ∈ ps → y' ∈ prereqs c) as Hps'
      by (intros y' Hy'; apply Hps; by right).
    cbn [topologicalSort_loop]. unfold FindCourse.
    destruct (courseMap st !! y) as [q|] eqn:Hy.
    + assert (G u y) as Huy.
      { eapply edge_intro; eauto. apply Hps. by left. }
      destruct (decide (y ∈ V)) as [HyV|HyV].
      { assert (y ∈ ks) as Hyks.
        { destruct (decide (y ∈ ks)) as [|Hn]; [done|]. destruct Hacyc.
          exists u. split; [apply rtc_refl|].
          eapply tc_rtc_r; [by apply tc_once|]. by apply Hprog. }
        destruct (IH V Stack ks) as (V' & newp & new & Hr & H1 & H2 & H3 & H4 & H5 & H6);
          auto.
        exists V', newp, new. split_and!; auto.
        intros y' [->|Hy']%elem_of_cons Hres; [|auto].
        apply elem_of_app. by right. }
      destruct (Hdesc q y V Stack ks) as
        (V1 & newp1 & new1 & -> & Hk1 & Hnd1 & Hdeps1 & HV1 & Hy1 & Hnew1); auto.
      { intros w Hw Hwks. eapply tc_rtc_l; [by apply Hprog|by apply tc_once]. }
      { intros Hc. apply Hacyc. by eapply cycle_reachable_step. }
      cbn [mbind outcome_bind].
      destruct (IH V1 (newp1 ++ Stack) (new1 ++ ks))
        as (V' & newp & new & Hr & H1 & H2 & H3 & H4 & H5 & H6); auto.
      { by apply Forall2_app. }
      { intros k [Hk|Hk]%elem_of_app; apply HV1; auto. }
      { intros w Hw%HV1 Hwn. rewrite elem_of_app in Hwn.
        apply Hprog; tauto. }
      { etrans; [apply size_unvisited_mono|exact Hsize].
        intros k Hk. apply HV1. by left. }
      exists V', (newp ++ newp1), (new ++ new1).
      rewrite <- !app_assoc. split_and!; auto.
      * by apply Forall2_app.
      * intros k. rewrite H4, HV1, elem_of_app. tauto.
      * intros k [Hk|Hk]%elem_of_app.
        -- destruct (H5 k Hk) as [Htc HkV1]. split; [done|].
           intros HkV. apply HkV1, HV1. by left.
        -- destruct (Hnew1 k Hk) as [Hrtc HkV]. split; [|done].
           eapply tc_rtc_r; [by apply tc_once|done].
      * intros y' [->|Hy']%elem_of_cons Hres; [|auto].
        rewrite !elem_of_app. tauto.
    + destruct (IH V Stack ks) as (V' & newp & new & Hr & H1 & H2 & H3 & H4 & H5 & H6);
        auto.
      exists V', newp, new. split_and!; auto.
      intros y' [->|Hy']%elem_of_cons Hres; [|auto].
      rewrite Hy in Hres. by destruct Hres.
Qed.

(** [topologicalSortUtil] on the record of [v]: it returns, and pushes [v]
    on top of everything [v] requires that was not on the stack yet. *)
Lemma topologicalSortUtil_spec fuel :
  ∀ q v V Stack ks,
    courseMap st !! v = Some q → v ∉ V →
    keys_at st Stack ks → NoDup ks → deps_below st ks →
    (∀ k, k ∈ ks → k ∈ V) → (∀ w, w ∈ V → w ∉ ks → tc G w v) →
    ¬ cycle_reachable st v → size (D ∖ V) ≤ fuel →
    ∃ V' newp new,
      topologicalSortUtil fuel st q V Stack = Ok (V', newp ++ Stack) ∧
      keys_at st newp new ∧ NoDup (new ++ ks) ∧ deps_below st (new ++ ks) ∧
      (∀ k, k ∈ V' ↔ k ∈ V ∨ k ∈ new) ∧ v ∈ new ∧
      (∀ k, k ∈ new → rtc G v k ∧ k ∉ V).
Proof.
  induction fuel as [|fuel IH];
    intros q v V Stack ks Hv HvV Hkeys Hnd Hdeps HksV Hprog Hacyc Hsize.
  { pose proof (size_unvisited_lt st v V (mk_is_Some _ _ Hv) HvV). lia. }
  destruct (Hwf v q Hv) as (c & Hc & Hid).
  cbn [topologicalSortUtil]. unfold load. rewrite Hc. cbn [mbind outcome_bind].
  rewrite Hid.
  destruct (topologicalSort_loop_spec fuel (topologicalSortUtil fuel st) v q c
              IH Hv Hc Hacyc (prereqs c) ({[v]} ∪ V) Stack ks)
    as (V' & newp & new & -> & H1 & H2 & H3 & H4 & H5 & H6); auto.
  { intros k Hk. apply elem_of_union_r. auto. }
  { intros w [->%elem_of_singleton|Hw]%elem_of_union Hwks; [apply rtc_refl|].
    apply tc_rtc. auto. }
  { pose proof (size_unvisited_lt st v V (mk_is_Some _ _ Hv) HvV). lia. }
  cbn [mbind outcome_bind].
  assert (v ∉ new ++ ks) as Hvn.
  { intros [Hn|Hk]%elem_of_app.
    - destruct (H5 v Hn) as [_ Hn']. apply Hn'. set_solver.
    - auto. }
  exists V', (q :: newp), (v :: new). split_and!; auto.
  - by constructor.
  - simpl. by apply NoDup_cons.
  - simpl. split; [|done]. intros y Hy.
    destruct (edge_inv st v q c y Hv Hc Hy) as [Hin Hres]. auto.
  - intros k. rewrite H4, elem_of_union, elem_of_singleton, elem_of_cons. tauto.
  - by left.
  - intros k [->|Hk]%elem_of_cons; [split; [apply rtc_refl|done]|].
    destruct (H5 k Hk) as [Htc HkV]. split; [by apply tc_rtc|].
    intros HkV'. apply HkV. by apply elem_of_union_r.
Qed.

(** The linearisation of an acyclic region: every key the start key
    requires, directly or not, once, each after everything it requires. *)
Lemma prerequisite_order_spec k p c :
  courseMap st !! k = Some p → heap st !! p = Some c →
  ¬ cycle_reachable st k →
  ∃ order ks,
    prerequisite_order st p = Ok order ∧ keys_at st order ks ∧ NoDup ks ∧
    (∀ y, y ∈ ks ↔ tc G k y) ∧
    (∀ l1 x l2, ks = l1 ++ x :: l2 → ∀ y, tc G x y → y ∈ l1) ∧
    (prereqs c = [] → order = []).
Proof.
  intros Hk Hc Hacyc. unfold prerequisite_order, load. rewrite Hc.
  cbn [mbind outcome_bind].
  destruct (topologicalSort_loop_spec (size (courseMap st))
              (topologicalSortUtil (size (courseMap st)) st) k p c
              (topologicalSortUtil_spec (size (courseMap st))) Hk Hc Hacyc
              (prereqs c) ∅ [] [])
    as (V' & newp & new & Hr & H1 & H2 & H3 & H4 & H5 & H6); auto.
  { constructor. }
  { constructor. }
  { done. }
  { by intros k' ?%elem_of_nil. }
  { intros w Hw. set_solver. }
  { rewrite <- size_dom. apply subseteq_size. set_solver. }
  rewrite !app_nil_r in *. rewrite Hr. cbn [mbind outcome_bind].
  rewrite drain_spec, app_nil_l.
  exists (reverse newp), (reverse new). split_and!; auto.
  - by apply Forall2_reverse.
  - by rewrite reverse_Permutation.
  - intros y. rewrite elem_of_reverse. split; [by intros [? _]%H5|].
    intros (z & Hkz & Hzy)%tc_inv_l.
    eapply deps_below_rtc; [done| |done].
    destruct (edge_inv st k p c z Hk Hc Hkz) as [Hin Hres]. auto.
  - intros l1 x l2 Hsplit y Hxy. apply elem_of_reverse.
    apply (deps_below_tc new (reverse l2) x (reverse l1) y); [done| |done].
    rewrite <- (reverse_involutive new), Hsplit.
    by rewrite reverse_app, reverse_cons, <- app_assoc.
  - intros Hnil. rewrite Hnil in Hr. simpl in Hr. by simplify_eq.
Qed.

End topologicalSort.

(** ** The public members of [EnhancementTwo.cpp] *)

Section Enhanced_public.
Variable st : State.

Lemma Enhanced_HasPrerequisiteCycle_absent k :
  courseMap st !! k = None →
  Enhanced.HasPrerequisiteCycle k st
  = (Throw (invalid_argument ("Course not found: " +:+ k)), st).
Proof. intros Hk. unfold Enhanced.HasPrerequisiteCycle, FindCourse. by rewrite Hk. Qed.

Lemma Enhanced_HasPrerequisiteCycle_present k :
  map_wf st → is_Some (courseMap st !! k) →
  ∃ b, Enhanced.HasPrerequisiteCycle k st = (Ok b, st) ∧
       (b = true ↔ cycle_reachable st k).
Proof.
  intros Hwf [p Hk]. unfold Enhanced.HasPrerequisiteCycle, FindCourse. rewrite Hk.
  destruct (hasCycle_top st Hwf k p Hk) as (b & V & S & -> & Hb).
  exists b. by split.
Qed.

(** Acyclicity of a concrete catalog can be read off a run. *)
Lemma Enhanced_no_cycle_by_run k :
  map_wf st → is_Some (courseMap st !! k) →
  (Enhanced.HasPrerequisiteCycle k st).1 = Ok false → ¬ cycle_reachable st k.
Proof.
  intros Hwf Hk Hrun.
  destruct (Enhanced_HasPrerequisiteCycle_present k Hwf Hk) as (b & Hr & Hb).
  rewrite Hr in Hrun. simpl in Hrun. injection Hrun as ->.
  intros Hc. apply Hb in Hc. done.
Qed.

Lemma Enhanced_GetPrerequisiteOrder_absent k :
  courseMap st !! k = None →
  Enhanced.GetPrerequisiteOrder k st
  = (Throw (invalid_argument ("Course not found: " +:+ k)), st).
Proof. intros Hk. unfold Enhanced.GetPrerequisiteOrder, FindCourse. by rewrite Hk. Qed.

Lemma Enhanced_GetPrerequisiteOrder_after_true k :
  (Enhanced.HasPrerequisiteCycle k st).1 = Ok true →
  Enhanced.GetPrerequisiteOrder k st
  = (Throw (runtime_error ("Circular prerequisite dependency detected for: "
                           +:+ k)), st).
Proof.
  unfold Enhanced.GetPrerequisiteOrder, Enhanced.HasPrerequisiteCycle, FindCourse.
  destruct (courseMap st !! k) as [p|]; [|done]. simpl.
  destruct (Enhanced.hasCycle _ _ _ _ _) as [[[[] V] S]| |]; simpl; done.
Qed.

Lemma Enhanced_GetPrerequisiteOrder_cyclic k :
  map_wf st → is_Some (courseMap st !! k) → cycle_reachable st k →
  Enhanced.GetPrerequisiteOrder k st
  = (Throw (runtime_error ("Circular prerequisite dependency detected for: "
                           +:+ k)), st).
Proof.
  intros Hwf Hk Hc. apply Enhanced_GetPrerequisiteOrder_after_true.
  destruct (Enhanced_HasPrerequisiteCycle_present k Hwf Hk) as (b & -> & Hb).
  simpl. f_equal. by apply Hb.
Qed.

Lemma Enhanced_GetPrerequisiteOrder_acyclic k p :
  map_wf st → courseMap st !! k = Some p → ¬ cycle_reachable st k →
  Enhanced.GetPrerequisiteOrder k st = (prerequisite_order st p, st).
Proof.
  intros Hwf Hk Hc. unfold Enhanced.GetPrerequisiteOrder.
  destruct (Enhanced_HasPrerequisiteCycle_present k Hwf (mk_is_Some _ _ Hk))
    as (b & -> & Hb).
  unfold FindCourse. rewrite Hk. destruct b; [|done]. destruct Hc. by apply Hb.
Qed.

End Enhanced_public.

(** ** [hasCycle] of [EnhancementTwoTest.cpp]: same answer, marked records *)

Section Harness_hasCycle.

Lemma set_isProcessing_id c : set_isProcessing (isProcessing c) c = c.
Proof. by destruct c. Qed.

Lemma same_but_isProcessing_refl h : same_but_isProcessing h h.
Proof.
  unfold same_but_isProcessing. apply Forall2_same_length_lookup.
  split; [done|]. intros i c c' Hc Hc'. simplify_eq.
  by rewrite set_isProcessing_id.
Qed.

Lemma same_catalog_refl st : same_catalog st st.
Proof. split_and!; auto using same_but_isProcessing_refl. Qed.

Lemma same_but_isProcessing_lookup h h' p c :
  same_but_isProcessing h h' → h !! p = Some c →
  ∃ c', h' !! p = Some c' ∧ c' = set_isProcessing (isProcessing c') c.
Proof. intros HF Hp. by destruct (Forall2_lookup_l _ _ _ _ _ HF Hp) as (c' & ? & ?); eauto. Qed.

Lemma same_but_isProcessing_store h h' p c b :
  same_but_isProcessing h h' → h !! p = Some c →
  ∃ h'', store_with (set_isProcessing b) p h' = Ok h'' ∧
         same_but_isProcessing h h''.
Proof.
  intros HF Hp.
  destruct (same_but_isProcessing_lookup _ _ _ _ HF Hp) as (c' & Hc' & Heq).
  unfold store_with. rewrite Hc'. eexists. split; [done|].
  rewrite <- (list_insert_id h p c Hp).
  apply Forall2_insert; [done|]. rewrite Heq. by destruct c.
Qed.

Lemma same_catalog_store st0 st p c b :
  same_catalog st0 st → heap st0 !! p = Some c →
  ∃ h, store_with (set_isProcessing b) p (heap st) = Ok h ∧
       same_catalog st0 (with_heap h st).
Proof.
  intros (Hh & Hr & Hm) Hp.
  destruct (same_but_isProcessing_store _ _ p c b Hh Hp) as (h & Hs & Hh').
  exists h. split; [done|]. by split_and!.
Qed.

Variable st0 : State.
Hypothesis Hwf : map_wf st0.

Lemma Harness_hasCycle_loop_sim descend0 descend p c0 :
  (∀ course st V S r,
      same_catalog st0 st → descend0 course V S = Ok r →
      ∃ st', descend course st V S = Ok (r.1.1, st', r.1.2, r.2) ∧
             same_catalog st0 st') →
  heap st0 !! p = Some c0 →
  ∀ ps st V S r,
    same_catalog st0 st →
    Enhanced.hasCycle_loop st0 descend0 ps V S = Ok r →
    ∃ st', Harness.hasCycle_loop descend p ps st V S = Ok (r.1.1, st', r.1.2, r.2) ∧
           same_catalog st0 st'.
Proof.
  intros Hdesc Hp. induction ps as [|y ps IH]; intros st V S r Hsame Hrun.
  - simpl in Hrun. injection Hrun as <-. exists st. by split.
  - cbn [Enhanced.hasCycle_loop Harness.hasCycle_loop] in *.
    unfold FindCourse in *.
    assert (courseMap st = courseMap st0) as Hm by (by destruct Hsame as (_ & _ & ->)).
    rewrite Hm. destruct (courseMap st0 !! y) as [q|] eqn:Hy; [|by apply IH].
    destruct (Hwf y q Hy) as (cq & Hq & _).
    destruct (decide (y ∈ S)) as [HyS|HyS].
    { injection Hrun as <-.
      destruct (same_catalog_store st0 st p c0 true Hsame Hp) as (h1 & -> & Hs1).
      destruct (same_catalog_store st0 (with_heap h1 st) q cq true Hs1 Hq)
        as (h2 & Hst2 & Hs2).
      simpl in Hst2. cbn [mbind outcome_bind]. rewrite Hst2.
      exists (with_heap h2 st). split; [done|].
      destruct Hs2 as (? & ? & ?). by split_and!. }
    destruct (decide (y ∈ V)) as [HyV|HyV]; [by apply IH|].
    destruct (same_catalog_store st0 st q cq true Hsame Hq) as (h1 & -> & Hs1).
    cbn [mbind outcome_bind].
    destruct (descend0 (Some q) V S) as [[[b V1] S1]| |] eqn:Hd0; [|done|done].
    destruct (Hdesc (Some q) (with_heap h1 st) V S _ Hs1 Hd0) as (st1 & -> & Hs2).
    cbn [mbind outcome_bind] in *. simpl. destruct b.
    { injection Hrun as <-. exists st1. by split. }
    destruct (same_catalog_store st0 st1 q cq false Hs2 Hq) as (h2 & -> & Hs3).
    cbn [mbind outcome_bind]. by apply IH.
Qed.

Lemma Harness_hasCycle_sim fuel :
  ∀ course st V S r,
    same_catalog st0 st →
    Enhanced.hasCycle fuel st0 course V S = Ok r →
    ∃ st', Harness.hasCycle fuel course st V S = Ok (r.1.1, st', r.1.2, r.2) ∧
           same_catalog st0 st'.
Proof.
  induction fuel as [|fuel IH]; intros [p|] st V S r Hsame Hrun;
    cbn [Enhanced.hasCycle Harness.hasCycle] in *; try done.
  - injection Hrun as <-. exists st. by split.
  - unfold load in *.
    destruct (heap st0 !! p) as [c0|] eqn:Hp; [|done].
    cbn [mbind outcome_bind] in Hrun.
    destruct Hsame as (Hh & Hr & Hm).
    destruct (same_but_isProcessing_lookup _ _ _ _ Hh Hp) as (c & Hc & Heq).
    rewrite Hc. cbn [mbind outcome_bind].
    assert (prereqs c = prereqs c0 ∧ courseId c = courseId c0) as [-> ->]
      by (rewrite Heq; by destruct c0).
    destruct (Enhanced.hasCycle_loop _ _ _ _ _) as [[[b V1] S1]| |] eqn:Hloop;
      [|done|done].
    destruct (Harness_hasCycle_loop_sim (Enhanced.hasCycle fuel st0)
                (Harness.hasCycle fuel) p c0 IH Hp _ st _ _ _
                (conj Hh (conj Hr Hm)) Hloop) as (st1 & -> & Hs1).
    cbn [mbind outcome_bind] in *. simpl. destruct b.
    + injection Hrun as <-. exists st1. by split.
    + injection Hrun as <-.
      destruct (same_catalog_store st0 st1 p c0 false Hs1 Hp) as (h2 & -> & Hs2).
      cbn [mbind outcome_bind]. eexists. by split.
  - injection Hrun as <-. exists st. by split.
Qed.

End Harness_hasCycle.

(** ** The public members of [EnhancementTwoTest.cpp] *)

Section Harness_public.
Variable st : State.

Lemma Harness_run_hasCycle k p :
  map_wf st → courseMap st !! k = Some p →
  ∃ b st', Harness.run_hasCycle p st = (Ok b, st') ∧ same_catalog st st' ∧
           (b = true ↔ cycle_reachable st k).
Proof.
  intros Hwf Hk. destruct (hasCycle_top st Hwf k p Hk) as (b & V & S & Hrun & Hb).
  destruct (Harness_hasCycle_sim st Hwf _ _ st _ _ _ (same_catalog_refl st) Hrun)
    as (st' & Hrun' & Hsame).
  exists b, st'. unfold Harness.run_hasCycle. rewrite Hrun'. by split_and!.
Qed.

Lemma Harness_HasPrerequisiteCycle_absent k :
  courseMap st !! k = None →
  Harness.HasPrerequisiteCycle k st
  = (Throw (invalid_argument ("Course not found: " +:+ k)), st).
Proof. intros Hk. unfold Harness.HasPrerequisiteCycle, FindCourse. by rewrite Hk. Qed.

Lemma Harness_HasPrerequisiteCycle_present k :
  map_wf st → is_Some (courseMap st !! k) →
  ∃ b st', Harness.HasPrerequisiteCycle k st = (Ok b, st') ∧ same_catalog st st' ∧
           (b = true ↔ cycle_reachable st k).
Proof.
  intros Hwf [p Hk]. unfold Harness.HasPrerequisiteCycle, FindCourse. rewrite Hk.
  by apply Harness_run_hasCycle.
Qed.

Lemma Harness_GetPrerequisiteOrder_absent k :
  courseMap st !! k = None →
  Harness.GetPrerequisiteOrder k st
  = (Throw (invalid_argument ("Course not found: " +:+ k)), st).
Proof. intros Hk. unfold Harness.GetPrerequisiteOrder, FindCourse. by rewrite Hk. Qed.

Lemma Harness_GetPrerequisiteOrder_after_true k :
  (Harness.HasPrerequisiteCycle k st).1 = Ok true →
  (Harness.GetPrerequisiteOrder k st).1
  = Throw (runtime_error ("Circular dependency detected:"
                          +:+ String "010"%char EmptyString)).
Proof.
  unfold Harness.GetPrerequisiteOrder, Harness.HasPrerequisiteCycle, FindCourse.
  destruct (courseMap st !! k) as [p|]; [|done].
  destruct (Harness.run_hasCycle p st) as [[[]| |] st']; simpl; done.
Qed.

Lemma Harness_GetPrerequisiteOrder_cyclic k :
  map_wf st → is_Some (courseMap st !! k) → cycle_reachable st k →
  (Harness.GetPrerequisiteOrder k st).1
  = Throw (runtime_error ("Circular dependency detected:"
                          +:+ String "010"%char EmptyString)).
Proof.
  intros Hwf Hk Hc. apply Harness_GetPrerequisiteOrder_after_true.
  destruct (Harness_HasPrerequisiteCycle_present k Hwf Hk) as (b & st' & -> & _ & Hb).
  simpl. f_equal. by apply Hb.
Qed.

(** Both queries leave the tree, the map and every field but
    [isProcessing] as they were. *)
Lemma Harness_HasPrerequisiteCycle_frame k :
  map_wf st → same_catalog st (Harness.HasPrerequisiteCycle k st).2.
Proof.
  intros Hwf. destruct (courseMap st !! k) as [p|] eqn:Hk.
  - destruct (Harness_HasPrerequisiteCycle_present k Hwf (mk_is_Some _ _ Hk))
      as (b & st' & -> & Hs & _). done.
  - rewrite (Harness_HasPrerequisiteCycle_absent k Hk). apply same_catalog_refl.
Qed.

Lemma Harness_GetPrerequisiteOrder_frame k :
  map_wf st → same_catalog st (Harness.GetPrerequisiteOrder k st).2.
Proof.
  intros Hwf. destruct (courseMap st !! k) as [p|] eqn:Hk.
  - unfold Harness.GetPrerequisiteOrder, FindCourse. rewrite Hk.
    destruct (Harness_run_hasCycle k p Hwf Hk) as (b & st' & -> & Hs & _).
    by destruct b.
  - rewrite (Harness_GetPrerequisiteOrder_absent k Hk). apply same_catalog_refl.
Qed.

End Harness_public.

(** ** Rebuilding the dependents *)

Section loops.
Context {A S : Type}.

(** A loop invariant indexed by the elements already handled. *)
Lemma for_each_inv (I : list A → S → Prop) (body : A → S → outcome S) l :
  (∀ done x s, I done s → x ∈ l → ∃ s', body x s = Ok s' ∧ I (done ++ [x]) s') →
  ∀ s, I [] s → ∃ s', for_each body l s = Ok s' ∧ I l s'.
Proof.
  intros Hstep.
  assert (∀ rest done s, (∀ x, x ∈ rest → x ∈ l) → I done s →
            ∃ s', for_each body rest s = Ok s' ∧ I (done ++ rest) s') as Hgen.
  { induction rest as [|x rest IH]; intros done s Hsub HI.
    - exists s. by rewrite app_nil_r.
    - destruct (Hstep done x s HI) as (s1 & Hb & HI1); [apply Hsub; by left|].
      destruct (IH (done ++ [x]) s1) as (s' & Hr & HI'); [|done|].
      { intros y Hy. apply Hsub. by right. }
      exists s'. simpl. rewrite Hb. cbn [mbind outcome_bind].
      by rewrite <- app_assoc in HI'. }
  intros s HI. by apply (Hgen l [] s).
Qed.
End loops.

Section rebuild_common.
Implicit Types (h : list Course) (m : gmap string ptr).

Lemma store_with_Some f p h c :
  h !! p = Some c → store_with f p h = Ok (<[p := f c]> h).
Proof. unfold store_with. by intros ->. Qed.

Lemma load_Some p h c : h !! p = Some c → load h p = Ok c.
Proof. unfold load. by intros ->. Qed.

(** A relation between records that a write respects carries over to the
    arena. *)
Lemma Forall2_store (R : Course → Course → Prop) h0 h p c0 c c' :
  Forall2 R h0 h → h0 !! p = Some c0 → h !! p = Some c → R c0 c' →
  Forall2 R h0 (<[p := c']> h).
Proof.
  intros HF H0 Hp HR. rewrite <- (list_insert_id h0 p c0 H0).
  by apply Forall2_insert.
Qed.

Lemma lookup_store_cases h p (c' : Course) q x :
  <[p := c']> h !! q = Some x →
  (q = p ∧ x = c') ∨ (q ≠ p ∧ h !! q = Some x).
Proof.
  destruct (decide (q = p)) as [->|Hne].
  - intros Hq. left. split; [done|].
    assert (p < length h) as Hlt.
    { apply lookup_lt_Some in Hq. by rewrite length_insert in Hq. }
    rewrite list_lookup_insert_eq in Hq by done. by simplify_eq.
  - rewrite list_lookup_insert_ne by done. auto.
Qed.

End rebuild_common.

Section Enhanced_rebuild.
Variable m : gmap string ptr.

Lemma only_dependents_differ_refl h : only_dependents_differ h h.
Proof.
  unfold only_dependents_differ. apply Forall2_same_length_lookup.
  split; [done|]. intros i c c' Hc Hc'.
  assert (c' = c) as -> by congruence. by destruct c.
Qed.

Lemma only_dependents_differ_trans h1 h2 h3 :
  only_dependents_differ h1 h2 → only_dependents_differ h2 h3 →
  only_dependents_differ h1 h3.
Proof.
  unfold only_dependents_differ. intros H12 H23.
  eapply Forall2_trans; [|exact H12|exact H23].
  intros c1 c2 c3 -> ->. by destruct c1.
Qed.

Lemma only_dependents_differ_fields h h' p c c' :
  only_dependents_differ h h' → h !! p = Some c → h' !! p = Some c' →
  courseId c' = courseId c ∧ prereqs c' = prereqs c.
Proof.
  intros HF Hc Hc'. destruct (Forall2_lookup_l _ _ _ _ _ HF Hc) as (c2 & Hc2 & Heq).
  assert (c2 = c') as -> by congruence. rewrite Heq. by destruct c.
Qed.

(** First loop: the dependents of every record of the map are emptied. *)
Lemma Enhanced_clear_spec h0 order :
  (∀ e, e ∈ order → is_Some (h0 !! e.2)) →
  ∃ h1, for_each Enhanced.clear_dependents order h0 = Ok h1 ∧
        only_dependents_differ h0 h1 ∧
        ∀ e c, e ∈ order → h1 !! e.2 = Some c → dependentCourses c = [].
Proof.
  intros Hvalid.
  apply (for_each_inv
           (λ done h, only_dependents_differ h0 h ∧
                      ∀ e c, e ∈ done → h !! e.2 = Some c → dependentCourses c = [])).
  - intros done e h [Hrel Hdone] He.
    destruct (Hvalid e He) as [c0 Hc0].
    destruct (Forall2_lookup_l _ _ _ _ _ Hrel Hc0) as (c & Hc & Heq).
    unfold Enhanced.clear_dependents. rewrite (store_with_Some _ _ _ _ Hc).
    eexists. split; [done|]. split.
    + eapply Forall2_store; eauto. rewrite Heq. by destruct c0.
    + intros e' c' He' [[? ->]|[Hne Hc']]%lookup_store_cases; [done|].
      apply elem_of_app in He' as [He'| ->%list_elem_of_singleton]; [eauto|done].
  - split; [apply only_dependents_differ_refl|]. by intros e c ?%elem_of_nil.
Qed.

(** The loop over the prerequisites of one record [c]: its key is appended
    to the dependents of every record one of them resolves to. *)
Lemma Enhanced_add_one_spec h1 h c (base : ptr → string → Prop) :
  (∀ y q, m !! y = Some q → is_Some (h1 !! q)) →
  only_dependents_differ h1 h →
  (∀ q c', h !! q = Some c' → ∀ x, x ∈ dependentCourses c' ↔ base q x) →
  ∃ h', for_each (λ prereqId h,
                   match m !! prereqId with
                   | Some prereq => store_with (push_dependent (courseId c)) prereq h
                   | None => Ok h
                   end) (prereqs c) h = Ok h' ∧
        only_dependents_differ h1 h' ∧
        ∀ q c', h' !! q = Some c' →
                ∀ x, x ∈ dependentCourses c' ↔
                     base q x ∨ (x = courseId c ∧ ∃ y, y ∈ prereqs c ∧ m !! y = Some q).
Proof.
  intros Hm Hrel Hbase.
  apply (for_each_inv
           (λ done h', only_dependents_differ h1 h' ∧
              ∀ q c', h' !! q = Some c' →
                ∀ x, x ∈ dependentCourses c' ↔
                     base q x ∨ (x = courseId c ∧ ∃ y, y ∈ done ∧ m !! y = Some q))).
  - intros done y h' [Hrel' Hdeps] Hy.
    destruct (m !! y) as [q0|] eqn:Hq0.
    + destruct (Hm y q0 Hq0) as [c1 Hc1].
      destruct (Forall2_lookup_l _ _ _ _ _ Hrel' Hc1) as (c0 & Hc0 & Heq).
      rewrite (store_with_Some _ _ _ _ Hc0). eexists. split; [done|]. split.
      * eapply Forall2_store; eauto. rewrite Heq. by destruct c1.
      * intros q c' [[-> ->]|[Hne Hc']]%lookup_store_cases x.
        -- unfold push_dependent. simpl. rewrite elem_of_app, list_elem_of_singleton.
           rewrite (Hdeps q0 c0 Hc0 x). split.
           ++ intros [[?|(-> & y' & Hy' & Hq')]| ->]; [by left| |].
              ** right. split; [done|]. exists y'. split; [|done].
                 apply elem_of_app. by left.
              ** right. split; [done|]. exists y. split; [|done].
                 apply elem_of_app. right. by apply list_elem_of_singleton.
           ++ intros [?|(-> & y' & Hy' & Hq')]; [by left; left|].
              apply elem_of_app in Hy' as [Hy'| ->%list_elem_of_singleton].
              ** left. right. eauto.
              ** by right.
        -- rewrite (Hdeps q c' Hc' x). split.
           ++ intros [?|(-> & y' & Hy' & Hq')]; [by left|].
              right. split; [done|]. exists y'. split; [|done].
              apply elem_of_app. by left.
           ++ intros [?|(-> & y' & Hy' & Hq')]; [by left|].
              apply elem_of_app in Hy' as [Hy'| ->%list_elem_of_singleton].
              ** right. eauto.
              ** congruence.
    + exists h'. split; [done|]. split; [done|].
      intros q c' Hc' x. rewrite (Hdeps q c' Hc' x). split.
      * intros [?|(-> & y' & Hy' & Hq')]; [by left|].
        right. split; [done|]. exists y'. split; [|done]. apply elem_of_app. by left.
      * intros [?|(-> & y' & Hy' & Hq')]; [by left|].
        apply elem_of_app in Hy' as [Hy'| ->%list_elem_of_singleton].
        -- right. eauto.
        -- congruence.
  - split; [done|]. intros q c' Hc' x. rewrite (Hbase q c' Hc' x). split; [by left|].
    intros [?|(_ & y & Hy%elem_of_nil & _)]; done.
Qed.

End Enhanced_rebuild.

Section declared_by.
Lemma declared_by_app skip m h es1 es2 q x :
  declared_by skip m h (es1 ++ es2) q x ↔
  declared_by skip m h es1 q x ∨ declared_by skip m h es2 q x.
Proof.
  unfold declared_by. split.
  - intros (e & c & y & t & [He|He]%elem_of_app & H); [left|right]; by exists e, c, y, t.
  - intros [(e & c & y & t & He & H)|(e & c & y & t & He & H)];
      exists e, c, y, t; (split; [|done]); apply elem_of_app; auto.
Qed.

Lemma declared_by_nil skip m h q x : ¬ declared_by skip m h [] q x.
Proof. by intros (e & c & y & t & He%elem_of_nil & _). Qed.

Lemma map_wf_inj st k k' q :
  map_wf st → courseMap st !! k = Some q → courseMap st !! k' = Some q → k = k'.
Proof.
  intros Hwf Hk Hk'. destruct (Hwf k q Hk) as (c & Hc & <-).
  destruct (Hwf k' q Hk') as (c' & Hc' & <-). congruence.
Qed.
End declared_by.

Section Enhanced_rebuild_all.
Variable m : gmap string ptr.

(** Second loop: every record of the map is appended to the dependents of
    the records its prerequisites resolve to. *)
Lemma Enhanced_add_spec h1 order :
  (∀ y q, m !! y = Some q → is_Some (h1 !! q)) →
  (∀ e, e ∈ order → is_Some (h1 !! e.2)) →
  ∃ h2, for_each (Enhanced.add_dependents m) order h1 = Ok h2 ∧
        only_dependents_differ h1 h2 ∧
        ∀ q c1 c2, h1 !! q = Some c1 → h2 !! q = Some c2 →
          ∀ x, x ∈ dependentCourses c2 ↔
               x ∈ dependentCourses c1 ∨ declared_by false m h1 order q x.
Proof.
  intros Hm Hvalid.
  apply (for_each_inv
           (λ done h, only_dependents_differ h1 h ∧
              ∀ q c1 c, h1 !! q = Some c1 → h !! q = Some c →
                ∀ x, x ∈ dependentCourses c ↔
                     x ∈ dependentCourses c1 ∨ declared_by false m h1 done q x)).
  - intros done e h [Hrel Hdeps] He.
    destruct (Hvalid e He) as [ce1 Hce1].
    destruct (Forall2_lookup_l _ _ _ _ _ Hrel Hce1) as (ce & Hce & _).
    destruct (only_dependents_differ_fields _ _ _ _ _ Hrel Hce1 Hce) as [Hid Hps].
    unfold Enhanced.add_dependents. rewrite (load_Some _ _ _ Hce).
    cbn [mbind outcome_bind].
    destruct (Enhanced_add_one_spec m h1 h ce
                (λ q x, ∃ c1, h1 !! q = Some c1 ∧
                   (x ∈ dependentCourses c1 ∨ declared_by false m h1 done q x))
                Hm Hrel) as (h' & -> & Hrel' & Hdeps').
    { intros q c' Hc' x.
      destruct (Forall2_lookup_r _ _ _ _ _ Hrel Hc') as (c1 & Hc1 & _).
      rewrite (Hdeps q c1 c' Hc1 Hc' x). split; [by exists c1|].
      intros (c1' & Hc1' & H). by simplify_eq. }
    exists h'. split; [done|]. split; [done|].
    intros q c1 c' Hc1 Hc' x. rewrite (Hdeps' q c' Hc' x), declared_by_app. split.
    + intros [(c1' & Hc1' & H)|(-> & y & Hy & Hq)];
        [assert (c1' = c1) as -> by congruence; tauto|].
      right; right. exists e, ce1, y, c1. rewrite <- Hps, <- Hid.
      split_and!; auto. by apply list_elem_of_singleton.
    + intros [?|[?|(e' & c & y & t & ->%list_elem_of_singleton & Hc & -> & Hy & Hq & _)]].
      * left. exists c1. auto.
      * left. exists c1. auto.
      * right. assert (c = ce1) as -> by congruence.
        rewrite Hid, Hps. eauto.
  - split; [apply only_dependents_differ_refl|].
    intros q c1 c Hc1 Hc x. assert (c = c1) as -> by congruence.
    split; [by left|]. intros [?|?%declared_by_nil]; done.
Qed.

End Enhanced_rebuild_all.

(** [BuildDependencyGraph] of [EnhancementTwo.cpp], for any iteration order
    over the entries of the map: the call returns, only [dependentCourses]
    changes, and the dependents of the record stored under [k] are exactly
    the keys of the stored records that list [k]. *)
Lemma Enhanced_BuildDependencyGraph_spec st order :
  map_wf st →
  (∀ e, e ∈ order ↔ courseMap st !! e.1 = Some e.2) →
  ∃ h', Enhanced.BuildDependencyGraph_in order st = (Ok (), with_heap h' st) ∧
        only_dependents_differ (heap st) h' ∧
        ∀ k q c', courseMap st !! k = Some q → h' !! q = Some c' →
          ∀ x, x ∈ dependentCourses c' ↔
               ∃ cx, record_of st x = Some cx ∧ k ∈ prereqs cx.
Proof.
  intros Hwf Horder.
  assert (∀ e, e ∈ order → ∃ c, heap st !! e.2 = Some c ∧ courseId c = e.1) as Hent.
  { intros e He. apply Horder in He. by apply Hwf. }
  destruct (Enhanced_clear_spec (heap st) order) as (h1 & Hrun1 & Hrel1 & Hclr).
  { intros e He. destruct (Hent e He) as (c & Hc & _). eauto. }
  assert (∀ p c, heap st !! p = Some c → is_Some (h1 !! p)) as Hv1.
  { intros p c Hc. destruct (Forall2_lookup_l _ _ _ _ _ Hrel1 Hc) as (c1 & ? & _). eauto. }
  destruct (Enhanced_add_spec (courseMap st) h1 order) as (h2 & Hrun2 & Hrel2 & Hdeps).
  { intros y q Hy. destruct (Hwf y q Hy) as (c & Hc & _). eauto. }
  { intros e He. destruct (Hent e He) as (c & Hc & _). eauto. }
  exists h2. unfold Enhanced.BuildDependencyGraph_in. rewrite Hrun1.
  cbn [mbind outcome_bind]. rewrite Hrun2. split; [done|].
  split; [by eapply only_dependents_differ_trans|].
  intros k q c2 Hk Hc2 x.
  destruct (Forall2_lookup_r _ _ _ _ _ Hrel2 Hc2) as (c1 & Hc1 & _).
  rewrite (Hdeps q c1 c2 Hc1 Hc2 x).
  rewrite (Hclr (k, q) c1); [|by apply Horder|done]. split.
  - intros [?%elem_of_nil|(e & c & y & t & He & Hc & -> & Hy & Hq & _)]; [done|].
    destruct (Hent e He) as (c0 & Hc0 & Hid0).
    destruct (only_dependents_differ_fields _ _ _ _ _ Hrel1 Hc0 Hc) as [Hid Hps].
    exists c0. rewrite Hid, Hid0. split.
    + apply Horder in He. unfold record_of. rewrite He. done.
    + rewrite <- Hps. by rewrite (map_wf_inj st k y q Hwf Hk Hq).
  - intros (cx & (px & Hpx & Hcx & Hidx)%(record_of_inv st Hwf) & Hkx).
    right. destruct (Hv1 px cx Hcx) as [c1x Hc1x].
    destruct (only_dependents_differ_fields _ _ _ _ _ Hrel1 Hcx Hc1x) as [Hid Hps].
    exists (x, px), c1x, k, c1. rewrite Hid, Hps.
    split_and!; auto. by apply Horder.
Qed.

Section Harness_rebuild.
Variable m : gmap string ptr.

Lemma unique_loop_elem ps seen acc y :
  y ∈ Harness.unique_loop ps seen acc ↔ y ∈ acc ∨ (y ∈ ps ∧ y ∉ seen).
Proof.
  revert seen acc. induction ps as [|p ps IH]; intros seen acc; simpl.
  - rewrite elem_of_nil. tauto.
  - destruct (decide (p ∈ seen)) as [Hp|Hp]; rewrite IH, elem_of_cons.
    + split; [tauto|]. intros [?|[[->|?] ?]]; tauto.
    + rewrite elem_of_app, list_elem_of_singleton, elem_of_union, elem_of_singleton.
      destruct (decide (y = p)) as [->|Hne]; tauto.
Qed.

Lemma unique_loop_same ps y : y ∈ Harness.unique_loop ps ∅ [] ↔ y ∈ ps.
Proof. rewrite unique_loop_elem, elem_of_nil. set_solver. Qed.

Lemma same_declarations_refl h : same_declarations h h.
Proof.
  unfold same_declarations. apply Forall2_same_length_lookup.
  split; [done|]. intros i c c' Hc Hc'.
  assert (c' = c) as -> by congruence. done.
Qed.

Lemma same_declarations_trans h1 h2 h3 :
  same_declarations h1 h2 → same_declarations h2 h3 → same_declarations h1 h3.
Proof.
  unfold same_declarations. intros H12 H23.
  eapply Forall2_trans; [|exact H12|exact H23].
  intros c1 c2 c3 (-> & -> & H1) (-> & -> & H2). split_and!; auto.
  intros y. by rewrite H2.
Qed.

Lemma same_declarations_fields h h' p c c' :
  same_declarations h h' → h !! p = Some c → h' !! p = Some c' →
  courseId c' = courseId c ∧ ∀ y, y ∈ prereqs c' ↔ y ∈ prereqs c.
Proof.
  intros HF Hc Hc'. destruct (Forall2_lookup_l _ _ _ _ _ HF Hc) as (c2 & Hc2 & Heq).
  assert (c2 = c') as -> by congruence. tauto.
Qed.

(** First loop: dependents emptied and both flags reset. *)
Lemma Harness_clear_spec h0 order :
  (∀ e, e ∈ order → is_Some (h0 !! e.2)) →
  ∃ h1, for_each Harness.clear_dependents order h0 = Ok h1 ∧
        same_declarations h0 h1 ∧
        ∀ e c, e ∈ order → h1 !! e.2 = Some c → dependentCourses c = [].
Proof.
  intros Hvalid.
  apply (for_each_inv
           (λ done h, same_declarations h0 h ∧
                      ∀ e c, e ∈ done → h !! e.2 = Some c → dependentCourses c = [])).
  - intros done e h [Hrel Hdone] He.
    destruct (Hvalid e He) as [c0 Hc0].
    destruct (Forall2_lookup_l _ _ _ _ _ Hrel Hc0) as (c & Hc & Heq).
    unfold Harness.clear_dependents. rewrite (store_with_Some _ _ _ _ Hc).
    eexists. split; [done|]. split.
    + eapply Forall2_store; eauto.
    + intros e' c' He' [[? ->]|[Hne Hc']]%lookup_store_cases; [done|].
      apply elem_of_app in He' as [He'| ->%list_elem_of_singleton]; [eauto|done].
  - split; [apply same_declarations_refl|]. by intros e c ?%elem_of_nil.
Qed.

(** The loop over the filtered prerequisites [ps] of one record with key
    [id]: the key is appended to the dependents of every other record one
    of them resolves to. *)
Lemma Harness_add_one_spec h1 h id ps (base : ptr → string → Prop) :
  (∀ y q, m !! y = Some q → is_Some (h1 !! q)) →
  same_declarations h1 h →
  (∀ q c', h !! q = Some c' → ∀ x, x ∈ dependentCourses c' ↔ base q x) →
  ∃ h', for_each (λ prereqId h,
                   match m !! prereqId with
                   | Some prereq =>
                     target ← load h prereq;
                     if decide (courseId target ≠ id)
                     then store_with (push_dependent id) prereq h
                     else Ok h
                   | None => Ok h
                   end) ps h = Ok h' ∧
        same_declarations h1 h' ∧
        ∀ q c', h' !! q = Some c' →
                ∀ x, x ∈ dependentCourses c' ↔
                     base q x ∨ (x = id ∧ courseId c' ≠ id ∧
                                 ∃ y, y ∈ ps ∧ m !! y = Some q).
Proof.
  intros Hm Hrel Hbase.
  apply (for_each_inv
           (λ done h', same_declarations h1 h' ∧
              ∀ q c', h' !! q = Some c' →
                ∀ x, x ∈ dependentCourses c' ↔
                     base q x ∨ (x = id ∧ courseId c' ≠ id ∧
                                 ∃ y, y ∈ done ∧ m !! y = Some q))).
  - intros done y h' [Hrel' Hdeps] Hy.
    assert (∀ q c' x,
              h' !! q = Some c' → m !! y ≠ Some q ∨ courseId c' = id →
              x ∈ dependentCourses c' ↔
              base q x ∨ (x = id ∧ courseId c' ≠ id ∧
                          ∃ y', y' ∈ done ++ [y] ∧ m !! y' = Some q)) as Hsame.
    { intros q c' x Hc' Hno. rewrite (Hdeps q c' Hc' x). split.
      - intros [?|(-> & Hne & y' & Hy' & Hq')]; [by left|].
        right. split_and!; auto. exists y'. split; [|done]. apply elem_of_app. by left.
      - intros [?|(-> & Hne & y' & Hy' & Hq')]; [by left|].
        apply elem_of_app in Hy' as [Hy'| ->%list_elem_of_singleton].
        + right. eauto.
        + destruct Hno; done. }
    destruct (m !! y) as [q0|] eqn:Hq0.
    + destruct (Hm y q0 Hq0) as [c1 Hc1].
      destruct (Forall2_lookup_l _ _ _ _ _ Hrel' Hc1) as (c0 & Hc0 & Heq).
      rewrite (load_Some _ _ _ Hc0). cbn [mbind outcome_bind].
      destruct (decide (courseId c0 ≠ id)) as [Hne|Heqid].
      * rewrite (store_with_Some _ _ _ _ Hc0). eexists. split; [done|]. split.
        -- eapply Forall2_store; eauto.
        -- intros q c' [[-> ->]|[Hneq Hc']]%lookup_store_cases x.
           ++ unfold push_dependent. simpl.
              rewrite elem_of_app, list_elem_of_singleton.
              rewrite (Hdeps q0 c0 Hc0 x). split.
              ** intros [[?|(-> & ? & y' & Hy' & Hq')]| ->]; [by left| |].
                 --- right. split_and!; auto. exists y'. split; [|done].
                     apply elem_of_app. by left.
                 --- right. split_and!; auto. exists y. split; [|done].
                     apply elem_of_app. right. by apply list_elem_of_singleton.
              ** intros [?|(-> & ? & y' & Hy' & Hq')]; [by left; left|].
                 apply elem_of_app in Hy' as [Hy'| ->%list_elem_of_singleton].
                 --- left. right. eauto.
                 --- by right.
           ++ apply Hsame; [done|]. left. congruence.
      * exists h'. split; [done|]. split; [done|].
        intros q c' Hc' x. apply Hsame; [done|].
        destruct (decide (q = q0)) as [->|Hneq]; [|left; congruence].
        right. assert (c' = c0) as -> by congruence.
        by destruct (decide (courseId c0 = id)); [|destruct Heqid].
    + exists h'. split; [done|]. split; [done|].
      intros q c' Hc' x. apply Hsame; [done|]. by left.
  - split; [done|]. intros q c' Hc' x. rewrite (Hbase q c' Hc' x). split; [by left|].
    intros [?|(_ & _ & y & Hy%elem_of_nil & _)]; done.
Qed.

End Harness_rebuild.

Section Harness_rebuild_all.
Variable m : gmap string ptr.

Lemma Harness_add_spec h1 order :
  (∀ y q, m !! y = Some q → is_Some (h1 !! q)) →
  (∀ e, e ∈ order → is_Some (h1 !! e.2)) →
  ∃ h2, for_each (Harness.add_dependents m) order h1 = Ok h2 ∧
        same_declarations h1 h2 ∧
        ∀ q c1 c2, h1 !! q = Some c1 → h2 !! q = Some c2 →
          ∀ x, x ∈ dependentCourses c2 ↔
               x ∈ dependentCourses c1 ∨ declared_by true m h1 order q x.
Proof.
  intros Hm Hvalid.
  apply (for_each_inv
           (λ done h, same_declarations h1 h ∧
              ∀ q c1 c, h1 !! q = Some c1 → h !! q = Some c →
                ∀ x, x ∈ dependentCourses c ↔
                     x ∈ dependentCourses c1 ∨ declared_by true m h1 done q x)).
  - intros done e h [Hrel Hdeps] He.
    destruct (Hvalid e He) as [ce1 Hce1].
    destruct (Forall2_lookup_l _ _ _ _ _ Hrel Hce1) as (ce & Hce & Hfe).
    destruct (same_declarations_fields _ _ _ _ _ Hrel Hce1 Hce) as [Hid Hps].
    unfold Harness.add_dependents. rewrite (load_Some _ _ _ Hce).
    cbn [mbind outcome_bind]. rewrite (store_with_Some _ _ _ _ Hce).
    cbn [mbind outcome_bind].
    set (unique := Harness.unique_loop (prereqs ce) ∅ []).
    set (hA := <[e.2 := set_prereqs unique ce]> h).
    assert (same_declarations h1 hA) as HrelA.
    { eapply Forall2_store; eauto. simpl. destruct Hfe as (? & ? & ?).
      split_and!; auto. intros y. unfold unique. by rewrite unique_loop_same. }
    destruct (Harness_add_one_spec m h1 hA (courseId ce) unique
                (λ q x, ∃ c1, h1 !! q = Some c1 ∧
                   (x ∈ dependentCourses c1 ∨ declared_by true m h1 done q x))
                Hm HrelA) as (h' & -> & Hrel' & Hdeps').
    { intros q c' Hc' x.
      destruct (Forall2_lookup_r _ _ _ _ _ HrelA Hc') as (c1 & Hc1 & _).
      assert (∃ c, h !! q = Some c ∧ dependentCourses c' = dependentCourses c)
        as (c & Hc & ->).
      { apply lookup_store_cases in Hc' as [[-> ->]|[Hne Hc']]; eauto. }
      rewrite (Hdeps q c1 c Hc1 Hc x). split; [by exists c1|].
      intros (c1' & Hc1' & H). by simplify_eq. }
    exists h'. split; [done|]. split; [done|].
    intros q c1 c' Hc1 Hc' x. rewrite (Hdeps' q c' Hc' x), declared_by_app.
    destruct (same_declarations_fields _ _ _ _ _ Hrel' Hc1 Hc') as [Hidq _].
    split.
    + intros [(c1' & Hc1' & H)|(-> & Hne & y & Hy & Hq)];
        [assert (c1' = c1) as -> by congruence; tauto|].
      right; right. exists e, ce1, y, c1.
      split_and!; auto; [by apply list_elem_of_singleton| |congruence].
      apply Hps. by apply unique_loop_same.
    + intros [?|[?|(e' & c & y & t & ->%list_elem_of_singleton & Hc & -> & Hy & Hq
                    & Ht & Hne)]].
      * left. exists c1. auto.
      * left. exists c1. auto.
      * right. assert (c = ce1) as -> by congruence.
        assert (t = c1) as -> by congruence.
        split_and!; [done|rewrite Hidq, Hid; auto|].
        exists y. split; [|done]. apply unique_loop_same. by apply Hps.
  - split; [apply same_declarations_refl|].
    intros q c1 c Hc1 Hc x. assert (c = c1) as -> by congruence.
    split; [by left|]. intros [?|?%declared_by_nil]; done.
Qed.

End Harness_rebuild_all.

(** [BuildDependencyGraph] of [EnhancementTwoTest.cpp]: as above, except
    that a record listing its own key is not made its own dependent, and
    that the prerequisite lists lose their repetitions. *)
Lemma Harness_BuildDependencyGraph_spec st order :
  map_wf st →
  (∀ e, e ∈ order ↔ courseMap st !! e.1 = Some e.2) →
  ∃ h', Harness.BuildDependencyGraph_in order st = (Ok (), with_heap h' st) ∧
        same_declarations (heap st) h' ∧
        ∀ k q c', courseMap st !! k = Some q → h' !! q = Some c' →
          ∀ x, x ∈ dependentCourses c' ↔
               x ≠ k ∧ ∃ cx, record_of st x = Some cx ∧ k ∈ prereqs cx.
Proof.
  intros Hwf Horder.
  assert (∀ e, e ∈ order → ∃ c, heap st !! e.2 = Some c ∧ courseId c = e.1) as Hent.
  { intros e He. apply Horder in He. by apply Hwf. }
  destruct (Harness_clear_spec (heap st) order) as (h1 & Hrun1 & Hrel1 & Hclr).
  { intros e He. destruct (Hent e He) as (c & Hc & _). eauto. }
  assert (∀ p c, heap st !! p = Some c → is_Some (h1 !! p)) as Hv1.
  { intros p c Hc. destruct (Forall2_lookup_l _ _ _ _ _ Hrel1 Hc) as (c1 & ? & _). eauto. }
  destruct (Harness_add_spec (courseMap st) h1 order) as (h2 & Hrun2 & Hrel2 & Hdeps).
  { intros y q Hy. destruct (Hwf y q Hy) as (c & Hc & _). eauto. }
  { intros e He. destruct (Hent e He) as (c & Hc & _). eauto. }
  exists h2. unfold Harness.BuildDependencyGraph_in. rewrite Hrun1.
  cbn [mbind outcome_bind]. rewrite Hrun2. split; [done|].
  split; [by eapply same_declarations_trans|].
  intros k q c2 Hk Hc2 x.
  destruct (Forall2_lookup_r _ _ _ _ _ Hrel2 Hc2) as (c1 & Hc1 & _).
  destruct (Hwf k q Hk) as (c0 & Hc0 & Hid0).
  destruct (same_declarations_fields _ _ _ _ _ Hrel1 Hc0 Hc1) as [Hid1 _].
  rewrite (Hdeps q c1 c2 Hc1 Hc2 x).
  rewrite (Hclr (k, q) c1); [|by apply Horder|done]. split.
  - intros [?%elem_of_nil|(e & c & y & t & He & Hc & -> & Hy & Hq & Ht & Hne)]; [done|].
    destruct (Hent e He) as (ce & Hce & Hide).
    destruct (same_declarations_fields _ _ _ _ _ Hrel1 Hce Hc) as [Hid Hps].
    assert (t = c1) as -> by congruence.
    split; [intros Heq; apply Hne; [done|congruence]|].
    exists ce. rewrite Hid, Hide. split.
    + apply Horder in He. unfold record_of. rewrite He. done.
    + apply Hps. by rewrite (map_wf_inj st k y q Hwf Hk Hq).
  - intros (Hne & cx & (px & Hpx & Hcx & Hidx)%(record_of_inv st Hwf) & Hkx).
    right. destruct (Hv1 px cx Hcx) as [c1x Hc1x].
    destruct (same_declarations_fields _ _ _ _ _ Hrel1 Hcx Hc1x) as [Hid Hps].
    exists (x, px), c1x, k, c1.
    split_and!; auto; [by apply Horder|congruence|by apply Hps|congruence].
Qed.

(** ** Validation *)

Local Ltac solve_nil :=
  first [ done
        | by intros ?%elem_of_nil
        | by intros ? ?%elem_of_nil
        | by constructor ].

Section validation.
Variable st : State.

(** [validatePrerequisites] of [EnhancementTwo.cpp] looks for unknown keys
    only, and stops at the first. *)
Lemma Enhanced_validatePrerequisites_spec p c :
  heap st !! p = Some c →
  (Enhanced.validatePrerequisites st p = Ok () ∧
   ∀ y, y ∈ prereqs c → is_Some (courseMap st !! y)) ∨
  (∃ pre y post,
      prereqs c = pre ++ y :: post ∧
      (∀ y', y' ∈ pre → is_Some (courseMap st !! y')) ∧
      courseMap st !! y = None ∧
      Enhanced.validatePrerequisites st p
      = Throw (Harness.UnknownPrerequisite y (courseId c))).
Proof.
  intros Hp. unfold Enhanced.validatePrerequisites, FindCourse.
  rewrite (load_Some _ _ _ Hp).
  cbn [mbind outcome_bind]. generalize (courseId c) as id. intros id.
  induction (prereqs c) as [|y ps IH]; cbn [for_each].
  - left. split; [done|]. by intros y ?%elem_of_nil.
  - destruct (courseMap st !! y) as [q|] eqn:Hy.
    + cbn [mbind outcome_bind].
      destruct IH as [[-> Hall]|(pre & y' & post & -> & Hpre & Hy' & ->)].
      * left. split; [done|]. intros y' [->|?]%elem_of_cons; eauto.
      * right. exists (y :: pre), y', post. split_and!; auto.
        intros y'' [->|?]%elem_of_cons; eauto.
    + right. exists [], y, ps. split_and!; auto. by intros y' ?%elem_of_nil.
Qed.

(** The pass of [EnhancementTwo.cpp]: [true] and no line when every record
    passes; else [false] and the one line of the first record that fails. *)
Lemma Enhanced_ValidateAllPrerequisites_spec order :
  (∀ e, e ∈ order → is_Some (heap st !! e.2)) →
  (Enhanced.ValidateAllPrerequisites_in st order = Ok (true, []) ∧
   ∀ e, e ∈ order → Enhanced.validatePrerequisites st e.2 = Ok ()) ∨
  (∃ pre e post what,
      order = pre ++ e :: post ∧
      (∀ e', e' ∈ pre → Enhanced.validatePrerequisites st e'.2 = Ok ()) ∧
      Enhanced.validatePrerequisites st e.2 = Throw (runtime_error what) ∧
      Enhanced.ValidateAllPrerequisites_in st order
      = Ok (false, ["Validation error: " +:+ what])).
Proof.
  induction order as [|e order IH]; intros Hvalid; simpl.
  - left. split; [done|]. by intros e ?%elem_of_nil.
  - destruct (Hvalid e) as [c Hc]; [by left|].
    destruct (Enhanced_validatePrerequisites_spec e.2 c Hc)
      as [[Hok _]|(ps1 & y & ps2 & _ & _ & _ & Hthrow)].
    + rewrite Hok.
      destruct IH as [[-> Hall]|(pre & e' & post & what & -> & Hpre & He' & ->)].
      { intros e' He'. apply Hvalid. by right. }
      * left. split; [done|]. intros e' [->|?]%elem_of_cons; eauto.
      * right. exists (e :: pre), e', post, what. split_and!; auto.
        intros e'' [->|?]%elem_of_cons; eauto.
    + rewrite Hthrow. right. eexists [], e, order, _.
      split_and!; [done| |done|done]. by intros e' ?%elem_of_nil.
Qed.

(** The loop of [validatePrerequisites] in [EnhancementTwoTest.cpp], entered
    with the keys [seen] so far: it returns on a well-formed list, and else
    throws the class of the first violation. *)
Lemma Harness_validate_loop_spec id ps :
  ∀ seen,
    (Harness.validate_loop st id ps seen = Ok () ∧
     (id ∉ ps) ∧ NoDup ps ∧
     (∀ y, y ∈ ps → (y ∉ seen) ∧ is_Some (courseMap st !! y))) ∨
    (∃ pre y post e,
        ps = pre ++ y :: post ∧ Harness.validate_loop st id ps seen = Throw e ∧
        (id ∉ pre) ∧ NoDup pre ∧
        (∀ y', y' ∈ pre → (y' ∉ seen) ∧ is_Some (courseMap st !! y')) ∧
        ((y = id ∧ e = Harness.SelfReference id) ∨
         (y ≠ id ∧ (y ∈ seen ∨ y ∈ pre) ∧ e = Harness.DuplicatePrerequisite y id) ∨
         (y ≠ id ∧ (y ∉ seen) ∧ (y ∉ pre) ∧ courseMap st !! y = None ∧
          e = Harness.UnknownPrerequisite y id))).
Proof.
  induction ps as [|y ps IH]; intros seen; simpl.
  - left. split_and!; solve_nil.
  - destruct (decide (y = id)) as [->|Hne].
    { right. exists [], id, ps, (Harness.SelfReference id).
      split_and!; try solve_nil; by left. }
    destruct (decide (y ∈ seen)) as [Hseen|Hseen].
    { right. exists [], y, ps, (Harness.DuplicatePrerequisite y id).
      split_and!; try solve_nil; right; left; auto. }
    unfold FindCourse. destruct (courseMap st !! y) as [q|] eqn:Hy.
    + destruct (IH ({[y]} ∪ seen))
        as [(-> & Hid & Hnd & Hall)|(pre & y' & post & e & -> & -> & Hid & Hnd & Hall & Hcls)].
      * left. split_and!; auto.
        -- intros [?|?]%elem_of_cons; [congruence|done].
        -- apply NoDup_cons. split; [|done]. intros Hin.
           destruct (Hall y Hin) as [Hn _]. set_solver.
        -- intros y' [->|Hy']%elem_of_cons; [eauto|].
           destruct (Hall y' Hy') as [Hn ?]. split; [set_solver|done].
      * right. exists (y :: pre), y', post, e. split_and!; auto.
        -- intros [?|?]%elem_of_cons; [congruence|done].
        -- apply NoDup_cons. split; [|done]. intros Hin.
           destruct (Hall y Hin) as [Hn _]. set_solver.
        -- intros y'' [->|Hy'']%elem_of_cons; [eauto|].
           destruct (Hall y'' Hy'') as [Hn ?]. split; [set_solver|done].
        -- destruct Hcls as [?|[(? & Hdup & ?)|(? & Hns & Hnp & ? & ?)]];
             [by left| |].
           ++ right; left. split_and!; auto.
              destruct Hdup as [[->%elem_of_singleton|?]%elem_of_union|?];
                [right; by left|by left|right; by right].
           ++ right; right. split_and!; auto; [set_solver|].
              intros [->|?]%elem_of_cons; [set_solver|done].
    + right. exists [], y, ps, (Harness.UnknownPrerequisite y id).
      split_and!; try solve_nil; right; right; split_and!; auto; solve_nil.
Qed.

(** One record in [EnhancementTwoTest.cpp]: no exception exactly on a
    well-formed list, else the class of the first violation. *)
Lemma Harness_validatePrerequisites_spec p c :
  heap st !! p = Some c →
  (Harness.validatePrerequisites st p = Ok () ∧
   well_formed_prereqs st (courseId c) (prereqs c)) ∨
  (∃ e, Harness.validatePrerequisites st p = Throw e ∧
        first_violation st (courseId c) (prereqs c) e).
Proof.
  intros Hp. unfold Harness.validatePrerequisites. rewrite (load_Some _ _ _ Hp).
  cbn [mbind outcome_bind].
  destruct (Harness_validate_loop_spec (courseId c) (prereqs c) ∅)
    as [(-> & Hid & Hnd & Hall)|(pre & y & post & e & Hps & -> & Hid & Hnd & Hall & Hcls)].
  - left. split; [done|]. unfold well_formed_prereqs.
    split_and!; auto. intros y Hy. by apply Hall.
  - right. exists e. split; [done|]. exists pre, y, post.
    unfold well_formed_prereqs. split_and!; auto.
    + intros y' Hy'. by apply Hall.
    + destruct Hcls as [?|[(? & [?%elem_of_empty|?] & ?)|(? & ? & ? & ? & ?)]];
        [by left|done|right; by left|right; by right].
Qed.

End validation.

Section validation_all.
Variable st : State.

Lemma first_violation_runtime_error id ps e :
  first_violation st id ps e → ∃ what, e = runtime_error what.
Proof.
  intros (pre & y & post & _ & _ & [[_ ->]|[(_ & _ & ->)|(_ & _ & _ & ->)]]);
    eexists; reflexivity.
Qed.

(** The pass of [EnhancementTwoTest.cpp] records one message for every
    record that is neither exempt nor well-formed, and goes on. *)
Lemma Harness_validate_all_loop_spec order :
  (∀ e, e ∈ order → is_Some (heap st !! e.2)) →
  ∀ errors isValid,
    Harness.validate_all_loop st order errors isValid
    = Ok (errors ++ omap (Harness_report st) order,
          if decide (omap (Harness_report st) order = []) then isValid else false).
Proof.
  induction order as [|e order IH]; intros Hvalid errors isValid.
  - simpl. by rewrite app_nil_r.
  - assert (∀ e', e' ∈ order → is_Some (heap st !! e'.2)) as Hvalid'
      by (intros e' He'; apply Hvalid; by right).
    destruct (Hvalid e) as [c Hc]; [by left|].
    change (omap (Harness_report st) (e :: order))
      with (match Harness_report st e with
            | Some y => y :: omap (Harness_report st) order
            | None => omap (Harness_report st) order
            end).
    assert (Harness_report st e
            = if Harness.exempt (courseId c) then None
              else match Harness.validatePrerequisites st e.2 with
                   | Throw (runtime_error what) => Some what
                   | _ => None
                   end) as Hrep
      by (unfold Harness_report; by rewrite Hc).
    cbn [Harness.validate_all_loop].
    rewrite (load_Some _ _ _ Hc). cbn [mbind outcome_bind].
    destruct (Harness.exempt (courseId c)); [rewrite Hrep; by apply IH|].
    destruct (Harness_validatePrerequisites_spec st e.2 c Hc)
      as [[Hrun _]|(ex & Hrun & Hfv)]; rewrite Hrun in Hrep |- *;
      [rewrite Hrep; by apply IH|].
    destruct (first_violation_runtime_error _ _ _ Hfv) as [what ->].
    rewrite Hrep, (IH Hvalid'). rewrite <- app_assoc. simpl.
    by destruct (decide (omap (Harness_report st) order = [])).
Qed.

Lemma Harness_ValidateAllPrerequisites_spec order :
  (∀ e, e ∈ order → is_Some (heap st !! e.2)) →
  Harness.ValidateAllPrerequisites_in st order
  = Ok (bool_decide (omap (Harness_report st) order = []),
        (λ error, "  Validation error: " +:+ error)
          <$> omap (Harness_report st) order).
Proof.
  intros Hvalid. unfold Harness.ValidateAllPrerequisites_in.
  rewrite (Harness_validate_all_loop_spec order Hvalid).
  reflexivity.
Qed.

End validation_all.

(** ** Catalogs built by insertion are well-formed *)

Lemma insert_all_catalog_wf isValid cs :
  catalog_wf isValid (insert_all (Insert_with isValid) cs empty_State).
Proof. by destruct (insert_all_spec isValid cs) as (rs & Hwf & _). Qed.

Lemma insert_all_map_wf isValid cs :
  map_wf (insert_all (Insert_with isValid) cs empty_State).
Proof. by destruct (insert_all_catalog_wf isValid cs) as (Hm & _). Qed.

Lemma entries_of_order (m : gmap string ptr) (order : list (string * ptr)) :
  order ≡ₚ map_to_list m → ∀ e, e ∈ order ↔ m !! e.1 = Some e.2.
Proof.
  intros Hperm [k p]. rewrite Hperm. simpl. apply elem_of_map_to_list.
Qed.

Lemma Enhanced_HasPrerequisiteCycle_frame k st :
  (Enhanced.HasPrerequisiteCycle k st).2 = st.
Proof.
  unfold Enhanced.HasPrerequisiteCycle. by destruct (FindCourse st k).
Qed.

Lemma Enhanced_GetPrerequisiteOrder_frame k st :
  (Enhanced.GetPrerequisiteOrder k st).2 = st.
Proof.
  unfold Enhanced.GetPrerequisiteOrder.
  destruct (FindCourse st k) as [p|] eqn:Hk; [|done].
  pose proof (Enhanced_HasPrerequisiteCycle_frame k st) as Hfr.
  destruct (Enhanced.HasPrerequisiteCycle k st) as [[[]| |] st']; simpl in *; done.
Qed.

(** The linearisation does not read [isProcessing]. *)
Lemma same_catalog_load st st' q :
  same_catalog st st' →
  match load (heap st) q, load (heap st') q with
  | Ok c, Ok c' => courseId c' = courseId c ∧ prereqs c' = prereqs c
  | Stuck, Stuck => True
  | _, _ => False
  end.
Proof.
  intros (Hh & _ & _). unfold load.
  pose proof (proj1 (Forall2_lookup _ _ _) Hh q) as Hq.
  destruct Hq as [c c' ->|]; [by destruct c|done].
Qed.

Lemma topologicalSort_loop_same st st' descend descend' :
  same_catalog st st' →
  (∀ q V Stack, descend' q V Stack = descend q V Stack) →
  ∀ ps V Stack,
    topologicalSort_loop st' descend' ps V Stack
    = topologicalSort_loop st descend ps V Stack.
Proof.
  intros (_ & _ & Hm) Hd. induction ps as [|y ps IH]; intros V Stack; [done|].
  cbn [topologicalSort_loop]. unfold FindCourse. rewrite <- Hm.
  destruct (courseMap st !! y) as [q|]; [|done].
  destruct (decide (y ∈ V)); [done|]. rewrite Hd.
  destruct (descend q V Stack) as [[V' Stack']| |]; [|done|done].
  cbn [mbind outcome_bind]. apply IH.
Qed.

Lemma topologicalSortUtil_same st st' :
  same_catalog st st' →
  ∀ fuel q V Stack,
    topologicalSortUtil fuel st' q V Stack = topologicalSortUtil fuel st q V Stack.
Proof.
  intros Hsame. induction fuel as [|fuel IH]; intros q V Stack; [done|].
  cbn [topologicalSortUtil]. pose proof (same_catalog_load st st' q Hsame) as Hq.
  destruct (load (heap st) q) as [c| |], (load (heap st') q) as [c'| |]; try done.
  cbn [mbind outcome_bind]. destruct Hq as [-> ->].
  by rewrite (topologicalSort_loop_same st st' _ _ Hsame IH).
Qed.

Lemma prerequisite_order_same st st' p :
  same_catalog st st' → prerequisite_order st' p = prerequisite_order st p.
Proof.
  intros Hsame. unfold prerequisite_order.
  pose proof (same_catalog_load st st' p Hsame) as Hp.
  destruct (load (heap st) p) as [c| |], (load (heap st') p) as [c'| |]; try done.
  cbn [mbind outcome_bind]. destruct Hp as [_ ->].
  assert (courseMap st' = courseMap st) as -> by (by destruct Hsame as (_ & _ & ->)).
  by rewrite (topologicalSort_loop_same st st' _ _ Hsame
                (topologicalSortUtil_same st st' Hsame _)).
Qed.

(** The lambda of [EnhancementTwoTest.cpp] computes what
    [topologicalSortUtil] computes. *)
Lemma Harness_processPrerequisites_eq st fuel :
  ∀ q V Stack,
    Harness.processPrerequisites fuel st (Some q) V Stack
    = topologicalSortUtil fuel st q V Stack.
Proof.
  induction fuel as [|fuel IH]; intros q V Stack; [done|].
  cbn [Harness.processPrerequisites topologicalSortUtil].
  destruct (load (heap st) q) as [c| |]; [|done|done]. cbn [mbind outcome_bind].
  by rewrite (topologicalSort_loop_same st st _ _ (same_catalog_refl st) IH).
Qed.

Lemma Harness_linearise_eq st p : Harness.linearise st p = prerequisite_order st p.
Proof.
  unfold Harness.linearise, prerequisite_order.
  destruct (load (heap st) p) as [c| |]; [|done|done]. cbn [mbind outcome_bind].
  by rewrite (topologicalSort_loop_same st st _ _ (same_catalog_refl st)
                (Harness_processPrerequisites_eq st _)).
Qed.

(** * The claims *)

(** C1. For a key of the catalog, [HasPrerequisiteCycle] returns, and returns
    [true] exactly when a directed cycle of prerequisite edges between
    records of the catalog can be reached from the key; for a key that is
    absent it throws [invalid_argument] "Course not found". *)
Theorem C1_hasCycle_iff_cycle_reachable (st : State) (k : string) :
  map_wf st →
  match courseMap st !! k with
  | Some _ =>
    ∃ b, Enhanced.HasPrerequisiteCycle k st = (Ok b, st) ∧
         (b = true ↔ cycle_reachable st k)
  | None =>
    Enhanced.HasPrerequisiteCycle k st
    = (Throw (invalid_argument ("Course not found: " +:+ k)), st)
  end.
Proof.
  intros Hwf. destruct (courseMap st !! k) as [p|] eqn:Hk.
  - apply Enhanced_HasPrerequisiteCycle_present; [done|]. rewrite Hk. eauto.
  - by apply Enhanced_HasPrerequisiteCycle_absent.
Qed.

(** CS100 requires CS200 and CS200 requires CS100: the answer for CS100 is
    [true]; a key that is not in that catalog is not found. *)
Lemma C1_witness :
  map_wf two_cycle ∧
  Enhanced.HasPrerequisiteCycle "CS100" two_cycle = (Ok true, two_cycle) ∧
  (∃ b, Enhanced.HasPrerequisiteCycle "CS100" two_cycle = (Ok b, two_cycle) ∧
        (b = true ↔ cycle_reachable two_cycle "CS100")) ∧
  Enhanced.HasPrerequisiteCycle "CS999" two_cycle
  = (Throw (invalid_argument "Course not found: CS999"), two_cycle).
Proof.
  split; [apply insert_all_map_wf|].
  split; [vm_compute; reflexivity|].
  split.
  - exact (C1_hasCycle_iff_cycle_reachable two_cycle "CS100"
             (insert_all_map_wf _ _)).
  - exact (C1_hasCycle_iff_cycle_reachable two_cycle "CS999"
             (insert_all_map_wf _ _)).
Defined.

(** C2. For a key of the catalog from which no cycle can be reached,
    [GetPrerequisiteOrder] returns a list that holds every record the key
    requires, directly or through other records, exactly once and never the
    key's own record, and in which everything a record requires stands
    before it; a record without prerequisites yields the empty list. *)
Theorem C2_GetPrerequisiteOrder_linearises (st : State) (k : string) (p : ptr)
    (c : Course) :
  map_wf st → courseMap st !! k = Some p → heap st !! p = Some c →
  ¬ cycle_reachable st k →
  ∃ order ks,
    Enhanced.GetPrerequisiteOrder k st = (Ok order, st) ∧
    keys_at st order ks ∧ NoDup ks ∧
    (∀ y, y ∈ ks ↔ tc (edge st) k y) ∧ (k ∉ ks) ∧
    (∀ l1 x l2, ks = l1 ++ x :: l2 →
       ∀ y, tc (edge st) x y → y ∈ l1 ∧ y ∉ x :: l2) ∧
    (prereqs c = [] → order = []).
Proof.
  intros Hwf Hk Hc Hacyc.
  destruct (prerequisite_order_spec st Hwf k p c Hk Hc Hacyc)
    as (order & ks & Hrun & Hkeys & Hnd & Hmem & Hpos & Hnil).
  exists order, ks.
  rewrite (Enhanced_GetPrerequisiteOrder_acyclic st k p Hwf Hk Hacyc), Hrun.
  split_and!; auto.
  - intros Hin. apply Hacyc. exists k. split; [apply rtc_refl|]. by apply Hmem.
  - intros l1 x l2 Hsplit y Hxy. pose proof (Hpos l1 x l2 Hsplit y Hxy) as Hy.
    split; [done|]. rewrite Hsplit in Hnd.
    apply NoDup_app in Hnd as (_ & Hdisj & _). by apply Hdisj.
Qed.

(** CS100 requires nothing, CS200 requires CS100, CS300 requires CS200: the
    order for CS300 is CS100 (address 1), then CS200 (address 2); the order
    for CS100 is empty. *)
Lemma C2_witness :
  Enhanced.GetPrerequisiteOrder "CS300" chain = (Ok [1; 2], chain) ∧
  Enhanced.GetPrerequisiteOrder "CS100" chain = (Ok [], chain) ∧
  ∃ order ks,
    Enhanced.GetPrerequisiteOrder "CS300" chain = (Ok order, chain) ∧
    keys_at chain order ks ∧ NoDup ks ∧
    (∀ y, y ∈ ks ↔ tc (edge chain) "CS300" y) ∧ ("CS300" ∉ ks) ∧
    (∀ l1 x l2, ks = l1 ++ x :: l2 →
       ∀ y, tc (edge chain) x y → y ∈ l1 ∧ y ∉ x :: l2) ∧
    (prereqs (course "CS300" "Compilers" ["CS200"]) = [] → order = []).
Proof.
  split; [vm_compute; reflexivity|].
  split; [vm_compute; reflexivity|].
  apply (C2_GetPrerequisiteOrder_linearises chain "CS300" 0
           (course "CS300" "Compilers" ["CS200"])).
  - apply insert_all_map_wf.
  - vm_compute; reflexivity.
  - vm_compute; reflexivity.
  - apply Enhanced_no_cycle_by_run.
    + apply insert_all_map_wf.
    + exists 0. vm_compute; reflexivity.
    + vm_compute; reflexivity.
Defined.

(** C3. [GetPrerequisiteOrder], in both builds, throws [invalid_argument]
    "Course not found" for an absent key; for a present key it first runs the
    cycle test and, when that answers [true] (exactly when a cycle can be
    reached from the key), throws [runtime_error] without linearising
    anything; it returns a list only when the test answered [false]. *)
Theorem C3_GetPrerequisiteOrder_errors (st : State) (k : string) :
  map_wf st →
  match courseMap st !! k with
  | None =>
    Enhanced.GetPrerequisiteOrder k st
    = (Throw (invalid_argument ("Course not found: " +:+ k)), st) ∧
    Harness.GetPrerequisiteOrder k st
    = (Throw (invalid_argument ("Course not found: " +:+ k)), st)
  | Some p =>
    (cycle_reachable st k ∧
     (Enhanced.HasPrerequisiteCycle k st).1 = Ok true ∧
     (Harness.HasPrerequisiteCycle k st).1 = Ok true ∧
     (Enhanced.GetPrerequisiteOrder k st).1
     = Throw (runtime_error ("Circular prerequisite dependency detected for: "
                             +:+ k)) ∧
     (Harness.GetPrerequisiteOrder k st).1
     = Throw (runtime_error ("Circular dependency detected:"
                             +:+ String "010"%char EmptyString))) ∨
    (¬ cycle_reachable st k ∧
     (Enhanced.HasPrerequisiteCycle k st).1 = Ok false ∧
     (Harness.HasPrerequisiteCycle k st).1 = Ok false ∧
     ∃ order, (Enhanced.GetPrerequisiteOrder k st).1 = Ok order ∧
              (Harness.GetPrerequisiteOrder k st).1 = Ok order)
  end.
Proof.
  intros Hwf. destruct (courseMap st !! k) as [p|] eqn:Hk.
  - assert (is_Some (courseMap st !! k)) as HkS by (rewrite Hk; eauto).
    destruct (Enhanced_HasPrerequisiteCycle_present st k Hwf HkS) as (b & HE & Hb).
    destruct (Harness_run_hasCycle st k p Hwf Hk) as (b' & st' & HH & Hsame & Hb').
    assert (b' = b) as -> by (destruct b, b'; intuition congruence).
    assert (Harness.HasPrerequisiteCycle k st = (Ok b, st')) as HH'.
    { unfold Harness.HasPrerequisiteCycle, FindCourse. by rewrite Hk. }
    destruct b.
    + left. assert (cycle_reachable st k) as Hc by tauto.
      split_and!; [done|by rewrite HE|by rewrite HH'| |].
      * by rewrite (Enhanced_GetPrerequisiteOrder_cyclic st k Hwf HkS Hc).
      * by apply Harness_GetPrerequisiteOrder_cyclic.
    + right. assert (¬ cycle_reachable st k) as Hc by (intros ?%Hb; done).
      split_and!; [done|by rewrite HE|by rewrite HH'|].
      destruct (Hwf k p Hk) as (c & Hpc & _).
      destruct (prerequisite_order_spec st Hwf k p c Hk Hpc Hc)
        as (order & ks & Hrun & _).
      exists order. split.
      * by rewrite (Enhanced_GetPrerequisiteOrder_acyclic st k p Hwf Hk Hc), Hrun.
      * unfold Harness.GetPrerequisiteOrder, FindCourse. rewrite Hk, HH. simpl.
        by rewrite Harness_linearise_eq, (prerequisite_order_same st st' p Hsame).
  - split.
    + by apply Enhanced_GetPrerequisiteOrder_absent.
    + by apply Harness_GetPrerequisiteOrder_absent.
Qed.

(** On the two-record cycle both builds refuse to linearise from CS100, and
    both report a key that is absent. *)
Lemma C3_witness :
  map_wf two_cycle ∧
  Enhanced.GetPrerequisiteOrder "CS100" two_cycle
  = (Throw (runtime_error
              "Circular prerequisite dependency detected for: CS100"), two_cycle) ∧
  ((cycle_reachable two_cycle "CS100" ∧
    (Enhanced.HasPrerequisiteCycle "CS100" two_cycle).1 = Ok true ∧
    (Harness.HasPrerequisiteCycle "CS100" two_cycle).1 = Ok true ∧
    (Enhanced.GetPrerequisiteOrder "CS100" two_cycle).1
    = Throw (runtime_error ("Circular prerequisite dependency detected for: "
                            +:+ "CS100")) ∧
    (Harness.GetPrerequisiteOrder "CS100" two_cycle).1
    = Throw (runtime_error ("Circular dependency detected:"
                            +:+ String "010"%char EmptyString))) ∨
   (¬ cycle_reachable two_cycle "CS100" ∧
    (Enhanced.HasPrerequisiteCycle "CS100" two_cycle).1 = Ok false ∧
    (Harness.HasPrerequisiteCycle "CS100" two_cycle).1 = Ok false ∧
    ∃ order, (Enhanced.GetPrerequisiteOrder "CS100" two_cycle).1 = Ok order ∧
             (Harness.GetPrerequisiteOrder "CS100" two_cycle).1 = Ok order)) ∧
  (Enhanced.GetPrerequisiteOrder "CS999" two_cycle
   = (Throw (invalid_argument ("Course not found: " +:+ "CS999")), two_cycle) ∧
   Harness.GetPrerequisiteOrder "CS999" two_cycle
   = (Throw (invalid_argument ("Course not found: " +:+ "CS999")), two_cycle)).
Proof.
  split; [apply insert_all_map_wf|].
  split; [vm_compute; reflexivity|].
  split.
  - exact (C3_GetPrerequisiteOrder_errors two_cycle "CS100" (insert_all_map_wf _ _)).
  - exact (C3_GetPrerequisiteOrder_errors two_cycle "CS999" (insert_all_map_wf _ _)).
Defined.

(** C4, as the code has it.  No build has a duplicate-key error: inserting a
    record whose key is already present returns normally.  No stored record
    is written to and the record stored before stays in the tree, but the
    entry of the key in [courseMap] now designates the new record; the
    entries of all other keys are unchanged. *)
Theorem C4_Insert_present_key_overwrites (isValid : string → bool) (st : State)
    (p old : ptr) (c : Course) :
  catalog_wf isValid st → heap st !! p = Some c →
  courseMap st !! courseId c = Some old →
  ∃ st', Insert_with isValid (Some p) st = (Ok (), st') ∧
         heap st' = heap st ∧
         FindCourse st' (courseId c) = Some p ∧
         (∀ k, k ≠ courseId c → FindCourse st' k = FindCourse st k) ∧
         old ∈ inorder (root st') ∧
         (∀ q, q ∈ inorder (root st) → q ∈ inorder (root st')).
Proof.
  intros Hwf Hp Hold.
  assert (isValid (courseId c) = true) as Hv.
  { destruct Hwf as (_ & _ & Hk). by destruct (Hk _ _ Hold). }
  assert (old ∈ inorder (root st)) as Hin.
  { destruct Hwf as (_ & _ & Hk). by destruct (Hk _ _ Hold). }
  destruct (Insert_accepts isValid p c st Hwf Hp Hv)
    as (r' & l1 & l2 & Hrun & Hl & Hl' & _ & _ & _).
  eexists. split; [exact Hrun|]. unfold FindCourse. simpl.
  assert (∀ q, q ∈ inorder (root st) → q ∈ inorder r') as Hkeep.
  { intros q. rewrite Hl, Hl', !elem_of_app, elem_of_cons. tauto. }
  split_and!; auto.
  - apply lookup_insert_eq.
  - intros k Hne. by apply lookup_insert_ne.
Qed.

(** Inserting a second CS101 into a catalog that holds a CS101. *)
Lemma C4_witness :
  catalog_wf Enhanced.isValidCourseId one_course ∧
  ∃ st', Enhanced.Insert (Some 1) one_course = (Ok (), st') ∧
         heap st' = heap one_course ∧
         FindCourse st' "CS101" = Some 1 ∧
         (∀ k, k ≠ "CS101" → FindCourse st' k = FindCourse one_course k) ∧
         0 ∈ inorder (root st') ∧
         (∀ q, q ∈ inorder (root one_course) → q ∈ inorder (root st')).
Proof.
  assert (catalog_wf Enhanced.isValidCourseId one_course) as Hwf.
  { apply catalog_wf_alloc. apply insert_all_catalog_wf. }
  split; [exact Hwf|].
  apply (C4_Insert_present_key_overwrites Enhanced.isValidCourseId one_course 1 0
           (course "CS101" "Second" []) Hwf).
  - vm_compute; reflexivity.
  - vm_compute; reflexivity.
Defined.

(** The claim as the specification words it fails: the second CS101 is
    accepted by both builds, and a lookup of CS101 then finds the second
    record (address 1) where it found the first (address 0). *)
Lemma C4_counterexample :
  (Enhanced.Insert (Some 1) one_course).1 = Ok () ∧
  (Harness.Insert (Some 1) one_course).1 = Ok () ∧
  FindCourse one_course "CS101" = Some 0 ∧
  FindCourse (Enhanced.Insert (Some 1) one_course).2 "CS101" = Some 1 ∧
  FindCourse (Harness.Insert (Some 1) one_course).2 "CS101" = Some 1.
Proof. vm_compute. done. Qed.

(** C10. In [EnhancementTwo.cpp], inserting a record whose key is already
    present returns normally; a lookup of the key then finds the new record;
    the tree gets one more node, placed after every record whose key is not
    greater (the record stored before among them) and before every record
    whose key is greater, so the listing shows the old and the new record. *)
Theorem C10_Insert_present_key_adds_node (st : State) (p old : ptr) (c : Course) :
  catalog_wf Enhanced.isValidCourseId st → heap st !! p = Some c →
  courseMap st !! courseId c = Some old →
  ∃ st' l1 l2 rs1 rs2,
    Enhanced.Insert (Some p) st = (Ok (), st') ∧
    FindCourse st' (courseId c) = Some p ∧
    inorder (root st) = l1 ++ l2 ∧ inorder (root st') = l1 ++ p :: l2 ∧
    old ∈ l1 ∧
    records_at (heap st) l1 rs1 ∧ records_at (heap st) l2 rs2 ∧
    enumerate st = Ok (courseId <$> rs1 ++ rs2) ∧
    enumerate st' = Ok (courseId <$> rs1 ++ c :: rs2) ∧
    (∀ x, x ∈ rs1 → str_le (courseId x) (courseId c)) ∧
    (∀ x, x ∈ rs2 → str_lt (courseId c) (courseId x)).
Proof.
  intros Hwf Hp Hold.
  pose proof Hwf as (Hm & Hb & Hk).
  destruct (Hk _ _ Hold) as [Hin Hv].
  destruct (Hm _ _ Hold) as (co & Hco & Hido).
  destruct (Insert_accepts Enhanced.isValidCourseId p c st Hwf Hp Hv)
    as (r' & l1 & l2 & Hrun & Hl & Hl' & Hle & Hlt & _).
  destruct (bst_records _ _ Hb) as [rs Hrs].
  pose proof Hrs as Hrs0. rewrite Hl in Hrs.
  apply records_at_app_inv in Hrs as (rs1 & rs2 & -> & Hrs1 & Hrs2).
  eexists _, l1, l2, rs1, rs2. split; [exact Hrun|]. unfold FindCourse. simpl.
  split_and!; auto.
  - apply lookup_insert_eq.
  - rewrite Hl in Hin. apply elem_of_app in Hin as [?|Hin2]; [done|].
    exfalso. apply (str_lt_irrefl (courseId c)).
    rewrite <- Hido at 2. by apply (Hlt old co).
  - by apply enumerate_spec.
  - apply enumerate_spec. simpl. rewrite Hl'.
    apply Forall2_app; [done|]. by constructor.
  - intros x Hx. destruct (records_at_elem _ _ _ _ Hrs1 Hx) as (q & Hq & Hqx). eauto.
  - intros x Hx. destruct (records_at_elem _ _ _ _ Hrs2 Hx) as (q & Hq & Hqx). eauto.
Qed.

(** The second CS101 is listed after the first. *)
Lemma C10_witness :
  catalog_wf Enhanced.isValidCourseId one_course ∧
  enumerate (Enhanced.Insert (Some 1) one_course).2 = Ok ["CS101"; "CS101"] ∧
  ∃ st' l1 l2 rs1 rs2,
    Enhanced.Insert (Some 1) one_course = (Ok (), st') ∧
    FindCourse st' "CS101" = Some 1 ∧
    inorder (root one_course) = l1 ++ l2 ∧ inorder (root st') = l1 ++ 1 :: l2 ∧
    0 ∈ l1 ∧
    records_at (heap one_course) l1 rs1 ∧ records_at (heap one_course) l2 rs2 ∧
    enumerate one_course = Ok (courseId <$> rs1 ++ rs2) ∧
    enumerate st' = Ok (courseId <$> rs1 ++ course "CS101" "Second" [] :: rs2) ∧
    (∀ x, x ∈ rs1 → str_le (courseId x) "CS101") ∧
    (∀ x, x ∈ rs2 → str_lt "CS101" (courseId x)).
Proof.
  assert (catalog_wf Enhanced.isValidCourseId one_course) as Hwf.
  { apply catalog_wf_alloc. apply insert_all_catalog_wf. }
  split; [exact Hwf|].
  split; [vm_compute; reflexivity|].
  apply (C10_Insert_present_key_adds_node one_course 1 0
           (course "CS101" "Second" []) Hwf).
  - vm_compute; reflexivity.
  - vm_compute; reflexivity.
Defined.

(** C6, as the code has it.  Whatever records are loaded in whatever order,
    in either build, the listing holds the records whose key was accepted,
    with keys in ascending order; the order is strict when no key occurs
    twice. *)
Theorem C6_enumerate_ascending (isValid : string → bool) (cs : list Course) :
  ∃ rs, enumerate (insert_all (Insert_with isValid) cs empty_State)
        = Ok (courseId <$> rs) ∧
        rs ≡ₚ filter (λ c, isValid (courseId c)) cs ∧
        StronglySorted str_le (courseId <$> rs) ∧
        (NoDup (courseId <$> rs) → StronglySorted str_lt (courseId <$> rs)).
Proof.
  destruct (insert_all_spec isValid cs) as (rs & (_ & Hb & _) & Hrs & Hperm).
  exists rs. split_and!; auto.
  - by apply enumerate_spec.
  - by eapply bst_sorted.
  - apply sorted_nodup_strict. by eapply bst_sorted.
Qed.

(** The claim as the specification words it fails: with CS101 loaded twice
    the listing shows CS101 twice, which is not strictly ascending. *)
Lemma C6_counterexample :
  enumerate (insert_all Enhanced.Insert
               [course "CS101" "First" []; course "CS101" "Second" []] empty_State)
  = Ok ["CS101"; "CS101"] ∧
  ¬ StronglySorted str_lt ["CS101"; "CS101"].
Proof.
  split; [vm_compute; reflexivity|].
  intros [Hall _]%StronglySorted_cons.
  apply Forall_cons in Hall as [Hlt _]. by apply str_lt_irrefl in Hlt.
Qed.

(** C5, as the code has it.  The check of [EnhancementTwo.cpp] accepts a key
    exactly when it is 2 to 4 letters followed by 3 or more digits, nothing
    else, at most 20 characters in all.  The check of
    [EnhancementTwoTest.cpp] accepts every key that starts with a listed test
    prefix, and any other key exactly when it has that shape and 5 to 7
    characters.  In both builds [Insert] of a record whose key fails the
    build's check throws [invalid_argument] and leaves the catalog as it
    was. *)
Theorem C5_key_format (k : string) (st : State) (p : ptr) (c : Course) :
  heap st !! p = Some c → courseId c = k →
  (Enhanced.isValidCourseId k = true ↔
   letters_then_digits k ∧ String.length k ≤ 20) ∧
  (Harness.isValidCourseId k = true ↔
   Harness.has_test_prefix k = true ∨
   (letters_then_digits k ∧ 5 ≤ String.length k ≤ 7)) ∧
  (Enhanced.isValidCourseId k = true ∨
   Enhanced.Insert (Some p) st
   = (Throw (invalid_argument ("Invalid course ID format: " +:+ k)), st)) ∧
  (Harness.isValidCourseId k = true ∨
   Harness.Insert (Some p) st
   = (Throw (invalid_argument ("Invalid course ID format: " +:+ k)), st)).
Proof.
  intros Hp <-. split_and!.
  - apply Enhanced_isValidCourseId_spec.
  - apply Harness_isValidCourseId_spec.
  - destruct (Enhanced.isValidCourseId (courseId c)) eqn:Hv; [by left|right].
    by apply Insert_rejects.
  - destruct (Harness.isValidCourseId (courseId c)) eqn:Hv; [by left|right].
    by apply Insert_rejects.
Qed.

(** The key "1" is rejected by both builds and nothing is stored. *)
Lemma C5_witness :
  Enhanced.isValidCourseId "1" = false ∧ Harness.isValidCourseId "1" = false ∧
  (Enhanced.isValidCourseId "1" = true ↔
   letters_then_digits "1" ∧ String.length "1" ≤ 20) ∧
  (Harness.isValidCourseId "1" = true ↔
   Harness.has_test_prefix "1" = true ∨
   (letters_then_digits "1" ∧ 5 ≤ String.length "1" ≤ 7)) ∧
  (Enhanced.isValidCourseId "1" = true ∨
   Enhanced.Insert (Some 0) bad_key
   = (Throw (invalid_argument ("Invalid course ID format: " +:+ "1")), bad_key)) ∧
  (Harness.isValidCourseId "1" = true ∨
   Harness.Insert (Some 0) bad_key
   = (Throw (invalid_argument ("Invalid course ID format: " +:+ "1")), bad_key)).
Proof.
  split; [vm_compute; reflexivity|].
  split; [vm_compute; reflexivity|].
  apply (C5_key_format "1" bad_key 0 (course "1" "Nameless" [])).
  - vm_compute; reflexivity.
  - vm_compute; reflexivity.
Defined.

(** The claim as the specification words it fails in
    [EnhancementTwoTest.cpp]: "CIRC" is accepted though it has no digit, and
    "CS1234567" is rejected though it is two letters and seven digits. *)
Lemma C5_counterexample :
  Harness.isValidCourseId "CIRC" = true ∧ ¬ letters_then_digits "CIRC" ∧
  Harness.isValidCourseId "CS1234567" = false ∧
  letters_then_digits "CS1234567" ∧ String.length "CS1234567" ≤ 20.
Proof.
  split; [vm_compute; reflexivity|]. split.
  - intros Hl.
    assert (Enhanced.isValidCourseId "CIRC" = true) as Hv.
    { apply Enhanced_isValidCourseId_spec. split; [done|]. simpl. lia. }
    vm_compute in Hv. discriminate.
  - split; [vm_compute; reflexivity|].
    apply Enhanced_isValidCourseId_spec. vm_compute; reflexivity.
Qed.




(** ** From the arena after a rebuild to the records of the catalog *)

Lemma only_dependents_differ_same_declarations h h' :
  only_dependents_differ h h' → same_declarations h h'.
Proof.
  intros H. eapply Forall2_impl; [exact H|]. intros c c' ->. by destruct c.
Qed.

Lemma record_of_rebuilt st h' k c :
  same_declarations (heap st) h' → record_of st k = Some c →
  ∃ c', record_of (with_heap h' st) k = Some c' ∧
        ∀ y, y ∈ prereqs c' ↔ y ∈ prereqs c.
Proof.
  unfold record_of. simpl. intros Hrel.
  destruct (courseMap st !! k) as [p|]; [|done]. simpl. intros Hc.
  destruct (Forall2_lookup_l _ _ _ _ _ Hrel Hc) as (c' & Hc' & _ & _ & Hps). eauto.
Qed.

Lemma record_of_rebuilt_inv st h' k c' :
  same_declarations (heap st) h' → record_of (with_heap h' st) k = Some c' →
  ∃ c, record_of st k = Some c ∧ ∀ y, y ∈ prereqs c' ↔ y ∈ prereqs c.
Proof.
  unfold record_of. simpl. intros Hrel.
  destruct (courseMap st !! k) as [p|]; [|done]. simpl. intros Hc'.
  destruct (Forall2_lookup_r _ _ _ _ _ Hrel Hc') as (c & Hc & _ & _ & Hps). eauto.
Qed.

(** The two directions of the dependents invariant, from a description of
    the dependents after the rebuild; [skip] is [True] where a record that
    lists itself is not its own dependent. *)
Lemma dependents_invariant st h' (skip : string → string → Prop) :
  (∀ x k, Decision (skip x k)) →
  map_wf st → same_declarations (heap st) h' →
  (∀ k q c', courseMap st !! k = Some q → h' !! q = Some c' →
     ∀ x, x ∈ dependentCourses c' ↔
          ¬ skip x k ∧ ∃ cx, record_of st x = Some cx ∧ k ∈ prereqs cx) →
  (∀ r cr d, record_of (with_heap h' st) r = Some cr → d ∈ prereqs cr →
     courseMap st !! d = None ∨ skip r d ∨
     ∃ cd, record_of (with_heap h' st) d = Some cd ∧ r ∈ dependentCourses cd) ∧
  (∀ a b cb, record_of (with_heap h' st) b = Some cb → a ∈ dependentCourses cb →
     ¬ skip a b ∧ ∃ ca, record_of (with_heap h' st) a = Some ca ∧ b ∈ prereqs ca).
Proof.
  intros Hdec Hwf Hrel Hdeps. split.
  - intros r cr d Hr Hd.
    destruct (record_of_rebuilt_inv st h' r cr Hrel Hr) as (c0 & Hc0 & Hps).
    destruct (courseMap st !! d) as [q|] eqn:Hq; [|by left]. right.
    destruct (Hwf d q Hq) as (cq & Hcq & _).
    destruct (Forall2_lookup_l _ _ _ _ _ Hrel Hcq) as (cd & Hcd & _).
    destruct (Hdec r d) as [Hs|Hs]; [by left|].
    right. exists cd. split.
    + unfold record_of. simpl. by rewrite Hq.
    + apply (Hdeps d q cd Hq Hcd r). split; [done|]. exists c0. split; [done|].
      by apply Hps.
  - intros a b cb Hb Ha.
    assert (∃ q, courseMap st !! b = Some q ∧ h' !! q = Some cb) as (q & Hq & Hcb).
    { unfold record_of in Hb. simpl in Hb.
      destruct (courseMap st !! b) as [q|]; [|done]. eauto. }
    apply (Hdeps b q cb Hq Hcb a) in Ha as (Hs & ca0 & Hca0 & Hin).
    split; [done|].
    destruct (record_of_rebuilt st h' a ca0 Hrel Hca0) as (ca & Hca & Hps).
    exists ca. split; [done|]. by apply Hps.
Qed.

(** * Further properties of the code *)

(** ** The tree and the map after a run of insertions *)

Lemma StronglySorted_weaken {A} (R R' : relation A) l :
  (∀ x y, R x y → R' x y) → StronglySorted R l → StronglySorted R' l.
Proof.
  intros HR. induction 1 as [|x l Hs IH Hx]; constructor; [done|].
  eapply Forall_impl; [exact Hx|]. auto.
Qed.

Section listing.
Variable isValid : string → bool.

Lemma Insert_with_heap p st : heap (Insert_with isValid p st).2 = heap st.
Proof.
  unfold Insert_with. destruct p as [p|]; [|done].
  destruct (heap st !! p) as [c|]; [|done].
  destruct (negb _); [done|].
  destruct (root st); [done|]. by destruct (addNode _ _ _).
Qed.

Lemma insert_new_heap c st :
  heap (insert_new (Insert_with isValid) c st).2 = heap st ++ [c].
Proof.
  unfold insert_new. destruct (alloc c st) as [p st'] eqn:E.
  rewrite Insert_with_heap. unfold alloc in E. by simplify_eq.
Qed.

Lemma insert_all_heap cs st :
  heap (insert_all (Insert_with isValid) cs st) = heap st ++ cs.
Proof.
  induction cs as [|c cs IH] using rev_ind.
  - by rewrite app_nil_r.
  - by rewrite insert_all_snoc, insert_new_heap, IH, app_assoc.
Qed.

Lemma listed_before_heap_app h c p q :
  listed_before h p q → listed_before (h ++ [c]) p q.
Proof.
  intros (cp & cq & Hp & Hq & H). exists cp, cq.
  split_and!; [by apply lookup_app_l_Some..|done].
Qed.

Lemma accepted_snoc cs c i :
  accepted isValid (cs ++ [c]) i ↔
  accepted isValid cs i ∨ (i = length cs ∧ isValid (courseId c) = true).
Proof.
  unfold accepted. split.
  - intros (x & Hx & Hv). apply lookup_app_Some in Hx as [Hx|[Hlen Hx]]; [eauto|].
    apply list_lookup_singleton_Some in Hx as [? ->]. right. split; [lia|done].
  - intros [(x & Hx & Hv)|[-> Hv]].
    + exists x. split; [by apply lookup_app_l_Some|done].
    + exists c. split; [|done]. by rewrite list_lookup_middle.
Qed.

(** The tree after a run of insertions: the nodes are the accepted records,
    in ascending order of the key and, for equal keys, in the order of
    insertion. *)
Lemma insert_all_listing cs :
  let st := insert_all (Insert_with isValid) cs empty_State in
  catalog_wf isValid st ∧ heap st = cs ∧
  (∀ p, p ∈ inorder (root st) ↔ accepted isValid cs p) ∧
  StronglySorted (listed_before cs) (inorder (root st)).
Proof.
  induction cs as [|c cs IH] using rev_ind.
  - cbn. split_and!; [apply catalog_wf_empty|done| |constructor].
    intros p. split; [by intros ?%elem_of_nil|].
    intros (x & Hx & _). by rewrite lookup_nil in Hx.
  - cbn zeta in *. destruct IH as (Hwf & Hh & Hin & Hs).
    rewrite insert_all_snoc. unfold insert_new.
    pose proof (catalog_wf_alloc isValid c _ Hwf) as Hwf'.
    pose proof (alloc_lookup c (insert_all (Insert_with isValid) cs empty_State)) as Hp.
    destruct (alloc c _) as [p st'] eqn:Halloc. cbn [fst snd] in *.
    assert (p = length cs ∧ heap st' = cs ++ [c] ∧
            root st' = root (insert_all (Insert_with isValid) cs empty_State))
      as (-> & Hh' & Hr').
    { unfold alloc in Halloc. simplify_eq. by rewrite Hh. }
    destruct (isValid (courseId c)) eqn:Hv.
    + destruct (Insert_accepts isValid _ c st' Hwf' Hp Hv) as
        (r' & l1 & l2 & -> & Hio & Hio' & H1 & H2 & Hwf''). cbn [snd heap root].
      rewrite Hr' in Hio. rewrite Hio in Hin, Hs.
      assert (∀ q, q ∈ l1 ++ l2 → q < length cs) as Hlt.
      { intros q (x & Hx & _)%Hin. by eapply lookup_lt_Some. }
      split_and!; [done|done| |].
      * intros q. rewrite accepted_snoc, <- Hin, Hio', !elem_of_app, elem_of_cons.
        intuition.
      * rewrite Hio'. rewrite Hh' in H1, H2.
        apply StronglySorted_app in Hs as (H12 & Hs1 & Hs2).
        apply StronglySorted_app_2.
        -- intros x1 x2 Hx1 [->|Hx2]%elem_of_cons.
           ++ destruct (proj1 (Hin x1)) as (c1 & Hc1 & _); [set_solver|].
              exists c1, c. split_and!; [by apply lookup_app_l_Some|by rewrite list_lookup_middle|].
              destruct (decide (courseId c1 = courseId c)) as [He|Hne].
              ** right. split; [done|]. apply Hlt. set_solver.
              ** left. apply str_le_neq_lt; [|done].
                 eapply H1; [done|]. by apply lookup_app_l_Some.
           ++ apply listed_before_heap_app. by apply H12.
        -- eapply StronglySorted_weaken; [|exact Hs1]. intros ???. by apply listed_before_heap_app. 
        -- apply StronglySorted_cons. split.
           ++ apply Forall_forall. intros q Hq.
              destruct (proj1 (Hin q)) as (cq & Hcq & _); [set_solver|].
              exists c, cq.
              split_and!; [by rewrite list_lookup_middle|by apply lookup_app_l_Some|].
              left. eapply H2; [done|]. by apply lookup_app_l_Some.
           ++ eapply StronglySorted_weaken; [|exact Hs2]. intros ???.
              by apply listed_before_heap_app.
    + rewrite (Insert_rejects isValid _ c st' Hp Hv). cbn [snd].
      split_and!; [done|done| |].
      * intros q. rewrite Hr', accepted_snoc, Hin. split; [auto|].
        intros [?|[_ ?]]; [done|congruence].
      * rewrite Hr'. eapply StronglySorted_weaken; [|exact Hs].
        intros ???. by apply listed_before_heap_app.
Qed.

End listing.

Section search.

Lemma printCourseInformation_spec h nd k :
  bst h nd →
  (∃ l1 p l2 c,
     inorder nd = l1 ++ p :: l2 ∧ h !! p = Some c ∧ courseId c = k ∧
     (∀ q x, q ∈ l1 → h !! q = Some x → courseId x ≠ k) ∧
     Enhanced.printCourseInformation h nd k = Ok (Enhanced.course_details c)) ∨
  ((∀ q x, q ∈ inorder nd → h !! q = Some x → courseId x ≠ k) ∧
   Enhanced.printCourseInformation h nd k
   = Ok (printError ("Course " +:+ k +:+ " not found"))).
Proof.
  induction nd as [|c l IHl r IHr]; intros Hb.
  - right. split; [by intros ?? ?%elem_of_nil|done].
  - destruct Hb as (cur & Hc & Hl & Hr & Hv & Bl & Br).
    cbn [Enhanced.printCourseInformation]. unfold load. rewrite Hc.
    cbn [mbind outcome_bind].
    destruct (String.eqb k (courseId cur)) eqn:He.
    + apply String.eqb_eq in He as ->. left.
      exists (inorder l), c, (inorder r), cur. split_and!; auto.
      intros q x Hq Hx Hxk. specialize (Hl q x Hq Hx). rewrite Hxk in Hl.
      by eapply str_lt_irrefl.
    + apply String.eqb_neq in He.
      destruct (String.ltb k (courseId cur)) eqn:Hlt.
      * destruct (IHl Bl) as [(l1 & p & l2 & x & Hin & Hp & Hk & Hno & ->)|[Hno ->]].
        -- left. exists l1, p, (l2 ++ c :: inorder r), x. cbn [inorder].
           rewrite Hin, <- app_assoc. split_and!; auto.
        -- right. split; [|done]. cbn [inorder].
           intros q x [Hq|[->|Hq]%elem_of_cons]%elem_of_app Hx; [eauto|by simplify_eq|].
           intros Hxk. specialize (Hr q x Hq Hx). rewrite Hxk in Hr.
           by eapply str_le_not_lt in Hr.
      * assert (str_lt (courseId cur) k) as Hgt.
        { destruct (str_lt_total k (courseId cur)) as [?|[?|?]]; [congruence|done|done]. }
        assert (∀ q x, q ∈ inorder l ++ [c] → h !! q = Some x → courseId x ≠ k) as Hno1.
        { intros q x [Hq| ->%list_elem_of_singleton]%elem_of_app Hx.
          - intros Hxk. specialize (Hl q x Hq Hx). rewrite Hxk in Hl.
            eapply str_lt_irrefl, str_lt_trans; eauto.
          - simplify_eq. congruence. }
        destruct (IHr Br) as [(l1 & p & l2 & x & Hin & Hp & Hk & Hno & ->)|[Hno ->]].
        -- left. exists (inorder l ++ c :: l1), p, l2, x. cbn [inorder].
           rewrite Hin, <- app_assoc. split_and!; auto.
           intros q y [Hq|[->|Hq]%elem_of_cons]%elem_of_app Hy.
           ++ eapply Hno1; [|done]. set_solver.
           ++ eapply Hno1; [|done]. set_solver.
           ++ eauto.
        -- right. split; [|done]. cbn [inorder].
           intros q x [Hq|[->|Hq]%elem_of_cons]%elem_of_app Hx.
           ++ eapply Hno1; [|done]. set_solver.
           ++ eapply Hno1; [|done]. set_solver.
           ++ eauto.
Qed.

End search.

Section lookup.
Variable isValid : string → bool.

Lemma accepted_as_snoc cs c k i :
  accepted_as isValid (cs ++ [c]) k i ↔
  accepted_as isValid cs k i ∨
  (i = length cs ∧ isValid (courseId c) = true ∧ courseId c = k).
Proof.
  unfold accepted_as. split.
  - intros (x & Hx & Hv & Hk).
    apply lookup_app_Some in Hx as [Hx|[Hlen Hx]]; [eauto 6|].
    apply list_lookup_singleton_Some in Hx as [? ->]. right.
    split_and!; [lia|done|done].
  - intros [(x & Hx & Hv & Hk)|(-> & Hv & Hk)].
    + exists x. split_and!; [by apply lookup_app_l_Some|done|done].
    + exists c. split_and!; [|done|done]. by rewrite list_lookup_middle.
Qed.

Lemma accepted_as_lt cs k i : accepted_as isValid cs k i → i < length cs.
Proof. intros (x & Hx & _). by eapply lookup_lt_Some. Qed.

(** The map after a run of insertions: a key leads to the record accepted
    last under it. *)
Lemma insert_all_courseMap cs k i :
  courseMap (insert_all (Insert_with isValid) cs empty_State) !! k = Some i ↔
  accepted_as isValid cs k i ∧ ∀ j, accepted_as isValid cs k j → j ≤ i.
Proof.
  revert i. induction cs as [|c cs IH] using rev_ind; intros i.
  - cbn. rewrite lookup_empty. split; [done|].
    intros [(x & Hx & _) _]. by rewrite lookup_nil in Hx.
  - rewrite insert_all_snoc. unfold insert_new.
    pose proof (insert_all_catalog_wf isValid cs) as Hwf.
    pose proof (insert_all_heap isValid cs empty_State) as Hh.
    pose proof (catalog_wf_alloc isValid c _ Hwf) as Hwf'.
    pose proof (alloc_lookup c (insert_all (Insert_with isValid) cs empty_State)) as Hp.
    destruct (alloc c _) as [p st'] eqn:Halloc. cbn [fst snd] in *.
    assert (p = length cs ∧
            courseMap st' = courseMap (insert_all (Insert_with isValid) cs empty_State))
      as (-> & Hm').
    { unfold alloc in Halloc. simplify_eq. by rewrite Hh. }
    destruct (isValid (courseId c)) eqn:Hv.
    + destruct (Insert_accepts isValid _ c st' Hwf' Hp Hv) as
        (r' & l1 & l2 & -> & _). cbn [snd courseMap].
      rewrite lookup_insert. case_decide as Hk.
      * subst k. split.
        -- intros [= <-]. split.
           ++ apply accepted_as_snoc. by right.
           ++ intros j Hj%accepted_as_lt. rewrite length_app in Hj. simpl in Hj. lia.
        -- intros [Hi%accepted_as_lt Hmax]. rewrite length_app in Hi. simpl in Hi.
           f_equal. enough (length cs ≤ i) by lia. apply Hmax.
           apply accepted_as_snoc. by right.
      * rewrite Hm', IH. setoid_rewrite accepted_as_snoc. naive_solver.
    + rewrite (Insert_rejects isValid _ c st' Hp Hv). cbn [snd].
      rewrite Hm', IH. setoid_rewrite accepted_as_snoc.
      split; intros [H1 H2]; (split; [|intros j Hj; apply H2]); intuition congruence.
Qed.

Lemma bst_same_keys h h' nd : same_keys h h' → bst h nd → bst h' nd.
Proof.
  intros Hk. induction nd as [|c l IHl r IHr]; [done|].
  intros (cur & Hc & Hl & Hr & Hv & Bl & Br).
  destruct (Forall2_lookup_l _ _ _ _ _ Hk Hc) as (cur' & Hc' & Ek).
  exists cur'. rewrite Ek. split_and!; auto.
  - intros p x' Hp Hx'.
    destruct (Forall2_lookup_r _ _ _ _ _ Hk Hx') as (x & Hx & ->). eauto.
  - intros p x' Hp Hx'.
    destruct (Forall2_lookup_r _ _ _ _ _ Hk Hx') as (x & Hx & ->). eauto.
  - intros p [x Hx]%Hv.
    destruct (Forall2_lookup_l _ _ _ _ _ Hk Hx) as (x' & Hx' & _). eauto.
Qed.

End lookup.

Lemma inorder_nil nd : inorder nd = [] → nd = null.
Proof.
  destruct nd as [|c l r]; [done|]. cbn. intros H.
  by apply app_eq_nil in H as [_ ?].
Qed.

Lemma records_at_lookup h ps rs i r :
  records_at h ps rs → rs !! i = Some r → ∃ p, ps !! i = Some p ∧ h !! p = Some r.
Proof. intros H Hr. destruct (Forall2_lookup_r _ _ _ _ _ H Hr) as (p & ? & ?). eauto. Qed.

Lemma PrintSampleSchedule_spec st rs :
  records_at (heap st) (inorder (root st)) rs →
  PrintSampleSchedule st = Ok (schedule_text rs).
Proof.
  intros Hrs. unfold PrintSampleSchedule, schedule_text.
  destruct (root st) as [|c l r] eqn:Hroot.
  - cbn in Hrs. by apply Forall2_nil_inv_l in Hrs as ->.
  - rewrite (printSampleSchedule_spec _ _ _ Hrs). cbn [mbind outcome_bind].
    destruct rs as [|r0 rs].
    { apply Forall2_nil_inv_r in Hrs. cbn in Hrs.
      by apply app_eq_nil in Hrs as [_ ?]. }
    by rewrite <- list_fmap_compose.
Qed.

(** X1. The catalog listing is a stable sort of the accepted records.  After any
    run of insertions into an empty catalog, in either build, the nodes of
    the tree are exactly the records whose key was accepted, each once; they
    are listed by ascending key and, among records with the same key, in the
    order of insertion; and [PrintSampleSchedule] writes one line for each
    of them in that order, or "No courses available." when there is none. *)
Theorem listing_is_stable_sort (isValid : string → bool) (cs : list Course) :
  ∃ rs,
    records_at cs (inorder (root (insert_all (Insert_with isValid) cs empty_State)))
               rs ∧
    (∀ p, p ∈ inorder (root (insert_all (Insert_with isValid) cs empty_State))
          ↔ accepted isValid cs p) ∧
    StronglySorted (listed_before cs)
      (inorder (root (insert_all (Insert_with isValid) cs empty_State))) ∧
    PrintSampleSchedule (insert_all (Insert_with isValid) cs empty_State)
    = Ok (schedule_text rs).
Proof.
  destruct (insert_all_listing isValid cs) as ((_ & Hb & _) & Hh & Hin & Hs).
  destruct (bst_records _ _ Hb) as (rs & Hrs).
  exists rs. split_and!; [by rewrite Hh in Hrs|done|done|].
  by apply PrintSampleSchedule_spec.
Qed.

(** The tree and the map as two indexes of the inserted records. *)
Lemma lookups_after_insertions (cs h' : list Course) (k : string) :
  same_keys cs h' →
  (∀ i, accepted_as Enhanced.isValidCourseId cs k i →
        (∀ j, accepted_as Enhanced.isValidCourseId cs k j → i ≤ j) →
        ∃ c', h' !! i = Some c' ∧
              Enhanced.PrintCourseInformation
                (with_heap h' (insert_all Enhanced.Insert cs empty_State)) k
              = Ok (Enhanced.course_details c')) ∧
  (∀ i, accepted_as Enhanced.isValidCourseId cs k i →
        (∀ j, accepted_as Enhanced.isValidCourseId cs k j → j ≤ i) →
        FindCourse (with_heap h' (insert_all Enhanced.Insert cs empty_State)) k
        = Some i) ∧
  ((∀ i, ¬ accepted_as Enhanced.isValidCourseId cs k i) →
   FindCourse (with_heap h' (insert_all Enhanced.Insert cs empty_State)) k = None ∧
   ((∃ i, accepted Enhanced.isValidCourseId cs i) →
    Enhanced.PrintCourseInformation
      (with_heap h' (insert_all Enhanced.Insert cs empty_State)) k
    = Ok (printError ("Course " +:+ k +:+ " not found"))) ∧
   ((∀ i, ¬ accepted Enhanced.isValidCourseId cs i) →
    Enhanced.PrintCourseInformation
      (with_heap h' (insert_all Enhanced.Insert cs empty_State)) k
    = Ok ("No courses available." +:+ endl))).
Proof.
  intros Hk. unfold Enhanced.Insert.
  destruct (insert_all_listing Enhanced.isValidCourseId cs)
    as ((_ & Hb & _) & Hh & Hin & Hs).
  set (st := insert_all (Insert_with Enhanced.isValidCourseId) cs empty_State) in *.
  rewrite Hh in Hb. apply (bst_same_keys _ _ _ Hk) in Hb.
  assert (∀ p c', p ∈ inorder (root st) → h' !! p = Some c' →
                  courseId c' = k → accepted_as Enhanced.isValidCourseId cs k p)
    as Hacc.
  { intros p c' (c & Hc & Hv)%Hin Hc' <-. exists c. split_and!; [done..|].
    destruct (Forall2_lookup_l _ _ _ _ _ Hk Hc) as (c'' & ? & ?). by simplify_eq. }
  assert (∀ i, accepted_as Enhanced.isValidCourseId cs k i →
               i ∈ inorder (root st) ∧ ∃ c', h' !! i = Some c' ∧ courseId c' = k)
    as Hacc'.
  { intros i (c & Hc & Hv & <-). split; [apply Hin; by exists c|].
    destruct (Forall2_lookup_l _ _ _ _ _ Hk Hc) as (c' & ? & ?). eauto. }
  assert (Enhanced.PrintCourseInformation (with_heap h' st) k
                = match root st with
                  | null => Ok ("No courses available." +:+ endl)
                  | _ => Enhanced.printCourseInformation h' (root st) k
                  end) as Hprint.
  { unfold Enhanced.PrintCourseInformation. cbn [with_heap root heap].
    by destruct (root st). }
  rewrite Hprint. clear Hprint.
  destruct (printCourseInformation_spec h' (root st) k Hb)
    as [(l1 & p & l2 & c & Hio & Hp & Hc & Hno & Hfound)|[Hno Hnone]].
  - assert (accepted_as Enhanced.isValidCourseId cs k p) as Hpk.
    { eapply Hacc; [|done|done]. rewrite Hio. set_solver. }
    split_and!.
    + intros i Hi Hmin. destruct (Hacc' i Hi) as (Hii & ci & Hci & Hcik).
      assert (i = p) as ->.
      { rewrite Hio in Hii, Hs.
        apply elem_of_app in Hii as [Hii|[->|Hii]%elem_of_cons]; [|done|].
        - by destruct (Hno i ci Hii Hci).
        - apply StronglySorted_app_1_r, StronglySorted_cons in Hs as [Hs _].
          rewrite Forall_forall in Hs.
          destruct (Hs i Hii) as (cp & cq & Hcp & Hcq & [Hlt|[_ Hlt]]).
          + assert (courseId cp = courseId cq) as E.
            { destruct Hpk as (x & Hx & _ & Hxk), Hi as (y & Hy & _ & Hyk).
              congruence. }
            rewrite E in Hlt. by apply str_lt_irrefl in Hlt.
          + specialize (Hmin p Hpk). lia. }
      exists c. split; [done|].
      destruct (root st); [cbn in Hio; by destruct l1|done].
    + intros i Hi Hmax. by apply insert_all_courseMap.
    + intros Hnone. by destruct (Hnone p).
  - split_and!.
    + intros i Hi _. destruct (Hacc' i Hi) as (Hii & ci & Hci & Hcik).
      by destruct (Hno i ci Hii Hci).
    + intros i Hi Hmax. by apply insert_all_courseMap.
    + intros Habs. split_and!.
      * cbn [FindCourse with_heap courseMap].
        destruct (courseMap st !! k) as [i|] eqn:Hm; [|done].
        apply insert_all_courseMap in Hm as [Hm _]. by destruct (Habs i).
      * intros [i Hi%Hin]. destruct (root st); [|done]. by apply elem_of_nil in Hi.
      * intros Hempty. destruct (root st) as [|c l r]; [done|].
        destruct (Hempty c). apply Hin. cbn. set_solver.
Qed.

(** X2. The two lookups after duplicate insertions.  Records [cs] are inserted
    in order into an empty catalog of [EnhancementTwo.cpp], and [h'] is the
    arena at a later time, with every key as inserted (a rebuild keeps
    them).  Then [PrintCourseInformation], which searches the tree, shows
    the record accepted first under the key, [FindCourse], which asks the
    map, returns the record accepted last under it, and when no record was
    accepted under the key the one writes "not found" (or
    "No courses available." for an empty tree) and the other returns null. *)
Theorem tree_finds_first_map_finds_last (cs h' : list Course) (k : string) :
  same_keys cs h' →
  (∀ i, accepted_as Enhanced.isValidCourseId cs k i →
        (∀ j, accepted_as Enhanced.isValidCourseId cs k j → i ≤ j) →
        ∃ c', h' !! i = Some c' ∧
              Enhanced.PrintCourseInformation
                (with_heap h' (insert_all Enhanced.Insert cs empty_State)) k
              = Ok (Enhanced.course_details c')) ∧
  (∀ i, accepted_as Enhanced.isValidCourseId cs k i →
        (∀ j, accepted_as Enhanced.isValidCourseId cs k j → j ≤ i) →
        FindCourse (with_heap h' (insert_all Enhanced.Insert cs empty_State)) k
        = Some i) ∧
  ((∀ i, ¬ accepted_as Enhanced.isValidCourseId cs k i) →
   FindCourse (with_heap h' (insert_all Enhanced.Insert cs empty_State)) k = None ∧
   ((∃ i, accepted Enhanced.isValidCourseId cs i) →
    Enhanced.PrintCourseInformation
      (with_heap h' (insert_all Enhanced.Insert cs empty_State)) k
    = Ok (printError ("Course " +:+ k +:+ " not found"))) ∧
   ((∀ i, ¬ accepted Enhanced.isValidCourseId cs i) →
    Enhanced.PrintCourseInformation
      (with_heap h' (insert_all Enhanced.Insert cs empty_State)) k
    = Ok ("No courses available." +:+ endl))).
Proof. apply lookups_after_insertions. Qed.

(** Two records with the key CS101: the details shown are those of the
    first, the pointer returned is that of the second (address 1); a key
    that was never inserted is not found. *)
Lemma tree_finds_first_map_finds_last_witness :
  same_keys [course "CS101" "First" []; course "CS101" "Second" []]
            [course "CS101" "First" []; course "CS101" "Second" []] ∧
  Enhanced.PrintCourseInformation
    (insert_all Enhanced.Insert
       [course "CS101" "First" []; course "CS101" "Second" []] empty_State) "CS101"
  = Ok (Enhanced.course_details (course "CS101" "First" [])) ∧
  FindCourse
    (insert_all Enhanced.Insert
       [course "CS101" "First" []; course "CS101" "Second" []] empty_State) "CS101"
  = Some 1 ∧
  Enhanced.PrintCourseInformation
    (insert_all Enhanced.Insert
       [course "CS101" "First" []; course "CS101" "Second" []] empty_State) "CS999"
  = Ok (printError "Course CS999 not found").
Proof.
  assert (same_keys [course "CS101" "First" []; course "CS101" "Second" []]
                    [course "CS101" "First" []; course "CS101" "Second" []]) as Hk.
  { by repeat constructor. }
  split; [exact Hk|].
  pose proof (tree_finds_first_map_finds_last _ _ "CS101" Hk) as (H1 & H2 & _).
  pose proof (tree_finds_first_map_finds_last _ _ "CS999" Hk) as (_ & _ & H3).
  split_and!.
  - destruct (H1 0) as (c' & Hc' & Hp).
    + exists (course "CS101" "First" []). by vm_compute.
    + intros; lia.
    + cbn in Hc'. by simplify_eq.
  - apply (H2 1).
    + exists (course "CS101" "Second" []). by vm_compute.
    + intros j Hj%accepted_as_lt. cbn in Hj. lia.
  - apply H3.
    + intros [|[|i]] (c & Hc & _ & Hk'); cbn in Hc; simplify_eq; by vm_compute in Hk'.
    + exists 0, (course "CS101" "First" []). by vm_compute.
Defined.

(** X3. Insert then look up.  In a catalog built through [Insert], inserting a
    record whose key passes the format check returns normally, whether the
    key is new or not; a lookup of the key then returns the inserted record
    and the lookups of all other keys are as before; no record is written
    to; the tree has the nodes it had and one more, for the new record; and
    the catalog invariant holds again. *)
Theorem Insert_then_FindCourse (isValid : string → bool) (st : State) (p : ptr)
    (c : Course) :
  catalog_wf isValid st → heap st !! p = Some c → isValid (courseId c) = true →
  ∃ st', Insert_with isValid (Some p) st = (Ok (), st') ∧
         heap st' = heap st ∧
         FindCourse st' (courseId c) = Some p ∧
         (∀ k, k ≠ courseId c → FindCourse st' k = FindCourse st k) ∧
         inorder (root st') ≡ₚ p :: inorder (root st) ∧
         catalog_wf isValid st'.
Proof.
  intros Hwf Hp Hv.
  destruct (Insert_accepts isValid p c st Hwf Hp Hv)
    as (r' & l1 & l2 & -> & Hin & Hin' & _ & _ & Hwf').
  eexists. split; [done|]. unfold FindCourse. cbn [heap root courseMap].
  split_and!; [done| | | |done].
  - by rewrite lookup_insert_eq.
  - intros k Hk. by rewrite lookup_insert_ne.
  - by rewrite Hin, Hin', Permutation_middle.
Qed.

(** CS200 inserted into a catalog that holds CS100. *)
Lemma Insert_then_FindCourse_witness :
  ∃ st', Enhanced.Insert (Some 1)
           (alloc (course "CS200" "Data Structures" [])
                  (insert_all Enhanced.Insert [course "CS100" "Programming" []]
                              empty_State)).2
         = (Ok (), st') ∧
         FindCourse st' "CS200" = Some 1 ∧ FindCourse st' "CS100" = Some 0 ∧
         inorder (root st') ≡ₚ [1; 0].
Proof.
  destruct (Insert_then_FindCourse Enhanced.isValidCourseId
              (alloc (course "CS200" "Data Structures" [])
                     (insert_all Enhanced.Insert [course "CS100" "Programming" []]
                                 empty_State)).2
              1 (course "CS200" "Data Structures" []))
    as (st' & HI & _ & Hf & Hother & Hperm & _).
  - apply catalog_wf_alloc, insert_all_catalog_wf.
  - vm_compute; reflexivity.
  - vm_compute; reflexivity.
  - exists st'. split_and!; [exact HI|exact Hf| |exact Hperm].
    rewrite Hother; [vm_compute; reflexivity|done].
Defined.

(** ** Reading the course file *)

Section strings.

Lemma append_String ch a b : String ch a +:+ b = String ch (a +:+ b).
Proof. done. Qed.

Lemma append_nil_l b : EmptyString +:+ b = b.
Proof. done. Qed.

Lemma append_nil_r s : s +:+ EmptyString = s.
Proof. induction s as [|ch s IH]; [done|]. by rewrite append_String, IH. Qed.

Lemma append_assoc a b c : (a +:+ b) +:+ c = a +:+ b +:+ c.
Proof. induction a as [|ch a IH]; [done|]. by rewrite !append_String, IH. Qed.

Lemma append_cons ch s : String ch s = String ch EmptyString +:+ s.
Proof. done. Qed.

Lemma free_of_nil ch : free_of ch EmptyString.
Proof. unfold free_of. cbn. apply not_elem_of_nil. Qed.

Lemma free_of_cons ch x s : free_of ch (String x s) ↔ ch ≠ x ∧ free_of ch s.
Proof. unfold free_of. cbn. by rewrite not_elem_of_cons. Qed.

Lemma free_of_app ch a b : free_of ch (a +:+ b) ↔ free_of ch a ∧ free_of ch b.
Proof.
  induction a as [|x a IH].
  - rewrite append_nil_l. split; [intros; split; [apply free_of_nil|done]|by intros [_ ?]].
  - rewrite append_String, !free_of_cons, IH. tauto.
Qed.

End strings.

Section parse.
Variable trim : string → string.

Lemma parse_fields_nonempty field rest : parse_fields trim field rest ≠ [].
Proof.
  revert field. induction rest as [|ch rest IH]; intros field; cbn; [done|].
  destruct (Ascii.eqb ch ","); [done|apply IH].
Qed.

Lemma concat_cons sep x xs :
  xs ≠ [] → String.concat sep (x :: xs) = x +:+ sep +:+ String.concat sep xs.
Proof. by destruct xs. Qed.

End parse.

(** Cutting at the commas and joining with commas are inverse to each other:
    the fields of a line, joined, give the line back. *)
Lemma parse_fields_concat rest : ∀ field,
  String.concat "," (parse_fields id field rest) = field +:+ rest.
Proof.
  induction rest as [|ch rest IH]; intros field; cbn [parse_fields].
  - cbn. by rewrite append_nil_r.
  - destruct (Ascii.eqb_spec ch ",") as [->|Hne].
    + rewrite concat_cons by apply parse_fields_nonempty. by rewrite IH.
    + rewrite IH. by rewrite append_assoc.
Qed.

Lemma parse_fields_free rest : ∀ field,
  free_of "," field → Forall (free_of ",") (parse_fields id field rest).
Proof.
  induction rest as [|ch rest IH]; intros field Hf; cbn [parse_fields].
  - by constructor.
  - destruct (Ascii.eqb_spec ch ",") as [->|Hne].
    + constructor; [done|]. apply IH, free_of_nil.
    + apply IH. apply free_of_app. split; [done|].
      apply free_of_cons. split; [congruence|apply free_of_nil].
Qed.

Lemma parse_fields_free_rest trim rest field :
  free_of "," rest → parse_fields trim field rest = [field +:+ rest].
Proof.
  revert field. induction rest as [|ch rest IH]; intros field Hf; cbn [parse_fields].
  - by rewrite append_nil_r.
  - apply free_of_cons in Hf as [Hne Hf].
    destruct (Ascii.eqb_spec ch ",") as [->|_]; [done|].
    rewrite IH by done. by rewrite append_assoc.
Qed.

Lemma parse_fields_app trim f rest acc :
  free_of "," f →
  parse_fields trim acc (f +:+ String "," rest)
  = trim (acc +:+ f) :: parse_fields trim EmptyString rest.
Proof.
  revert acc. induction f as [|ch f IH]; intros acc Hf.
  - rewrite append_nil_l, append_nil_r. cbn [parse_fields].
    by rewrite Ascii.eqb_refl.
  - apply free_of_cons in Hf as [Hne Hf]. rewrite append_String.
    cbn [parse_fields].
    destruct (Ascii.eqb_spec ch ",") as [->|_]; [done|].
    rewrite IH by done. by rewrite append_assoc.
Qed.

(** Joining fields that hold no comma and cutting the result gives the
    fields back; all but the last go through [trim]. *)
Lemma parse_fields_of_concat trim fs last :
  Forall (free_of ",") fs → free_of "," last →
  parse_fields trim EmptyString (String.concat "," (fs ++ [last]))
  = (trim <$> fs) ++ [last].
Proof.
  induction fs as [|f fs IH]; intros Hfs Hl.
  - cbn. by apply parse_fields_free_rest.
  - apply Forall_cons in Hfs as [Hf Hfs]. cbn [app].
    rewrite concat_cons by (by destruct fs).
    change ("," +:+ ?s) with (String "," s).
    rewrite parse_fields_app by done. cbn [fmap list_fmap app]. f_equal.
    by apply IH.
Qed.

Section insert_more.
Variable isValid : string → bool.

Lemma insert_new_valid c st :
  catalog_wf isValid st → isValid (courseId c) = true →
  ∃ st', insert_new (Insert_with isValid) c st = (Ok (), st') ∧
         catalog_wf isValid st'.
Proof.
  intros Hwf Hv. unfold insert_new.
  pose proof (catalog_wf_alloc isValid c st Hwf) as Hwf'.
  pose proof (alloc_lookup c st) as Hp.
  destruct (alloc c st) as [p st1]. cbn [fst snd] in *.
  destruct (Insert_accepts isValid p c st1 Hwf' Hp Hv)
    as (r' & l1 & l2 & -> & _ & _ & _ & _ & Hwf''). eauto.
Qed.

Lemma insert_new_invalid c st :
  isValid (courseId c) = false →
  insert_new (Insert_with isValid) c st
  = (Throw (invalid_argument ("Invalid course ID format: " +:+ courseId c)),
     (alloc c st).2).
Proof.
  intros Hv. unfold insert_new.
  pose proof (alloc_lookup c st) as Hp.
  destruct (alloc c st) as [p st1]. cbn [fst snd] in *.
  by apply Insert_rejects.
Qed.

Lemma insert_all_cons c cs st :
  insert_all (Insert_with isValid) (c :: cs) st
  = insert_all (Insert_with isValid) cs (insert_new (Insert_with isValid) c st).2.
Proof. done. Qed.

Lemma insert_new_wf c st :
  catalog_wf isValid st → catalog_wf isValid (insert_new (Insert_with isValid) c st).2.
Proof.
  intros Hwf. destruct (isValid (courseId c)) eqn:Hv.
  - by destruct (insert_new_valid c st Hwf Hv) as (st' & -> & ?).
  - rewrite insert_new_invalid by done. by apply catalog_wf_alloc.
Qed.

Lemma insert_all_wf cs st :
  catalog_wf isValid st → catalog_wf isValid (insert_all (Insert_with isValid) cs st).
Proof.
  revert st. induction cs as [|c cs IH]; intros st Hwf; [done|].
  rewrite insert_all_cons. by apply IH, insert_new_wf.
Qed.

Lemma catalog_wf_same_keys st h' :
  catalog_wf isValid st → same_keys (heap st) h' →
  catalog_wf isValid (with_heap h' st).
Proof.
  intros (Hm & Hb & Hk) Hs. split_and!; cbn [with_heap heap root courseMap].
  - intros k p Hp. destruct (Hm k p Hp) as (c & Hc & <-).
    destruct (Forall2_lookup_l _ _ _ _ _ Hs Hc) as (c' & ? & ?). eauto.
  - by eapply bst_same_keys.
  - done.
Qed.

End insert_more.

Section Enhanced_loader.

Lemma Enhanced_load_loop_spec lines : ∀ st,
  catalog_wf Enhanced.isValidCourseId st →
  (Forall (λ c, Enhanced.isValidCourseId (courseId c) = true)
          (Enhanced_records lines) →
   Enhanced.load_loop lines st
   = (Ok (), insert_all Enhanced.Insert (Enhanced_records lines) st)) ∧
  (∀ pre bad post,
     Enhanced_records lines = pre ++ bad :: post →
     Forall (λ c, Enhanced.isValidCourseId (courseId c) = true) pre →
     Enhanced.isValidCourseId (courseId bad) = false →
     Enhanced.load_loop lines st
     = (Throw (invalid_argument ("Invalid course ID format: " +:+ courseId bad)),
        (alloc bad (insert_all Enhanced.Insert pre st)).2)).
Proof.
  induction lines as [|line lines IH]; intros st Hwf.
  - split; [done|]. intros pre bad post H. by destruct pre.
  - cbn [Enhanced.load_loop Enhanced_records omap list_omap].
    fold (Enhanced_records lines).
    destruct (String.eqb_spec line EmptyString) as [->|Hne].
    { cbn. apply IH, Hwf. }
    destruct (course_of_fields (parse_fields id EmptyString line)) as [c|] eqn:Hc;
      [|apply IH, Hwf].
    destruct (Enhanced.isValidCourseId (courseId c)) eqn:Hv.
    + destruct (insert_new_valid _ c st Hwf Hv) as (st' & Hins & Hwf').
      unfold Enhanced.Insert in *. rewrite Hins.
      destruct (IH st' Hwf') as [IH1 IH2]. split.
      * intros [_ Hall]%Forall_cons. rewrite IH1 by done.
        by rewrite (insert_all_cons _ c _ st), Hins.
      * intros [|x pre] bad post Heq Hpre Hbad.
        { cbn [app] in Heq. simplify_eq. congruence. }
        cbn [app] in Heq. injection Heq as <- Heq.
        apply Forall_cons in Hpre as [_ Hpre].
        rewrite (IH2 pre bad post) by done.
        by rewrite (insert_all_cons _ c pre st), Hins.
    + unfold Enhanced.Insert in *. rewrite insert_new_invalid by done. split.
      * intros [? _]%Forall_cons. congruence.
      * intros [|x pre] bad post Heq Hpre Hbad.
        { cbn [app] in Heq. by simplify_eq. }
        cbn [app] in Heq. injection Heq as <- Heq.
        apply Forall_cons in Hpre as [? _]. congruence.
Qed.

End Enhanced_loader.

Section Enhanced_load.

Lemma only_dependents_differ_same_keys h h' :
  only_dependents_differ h h' → same_keys h h'.
Proof.
  intros H. eapply Forall2_impl; [exact H|]. by intros c c' ->.
Qed.

Lemma same_declarations_same_keys h h' :
  same_declarations h h' → same_keys h h'.
Proof.
  intros H. eapply Forall2_impl; [exact H|]. by intros c c' (? & _).
Qed.

Lemma Enhanced_rebuild_ok st :
  catalog_wf Enhanced.isValidCourseId st →
  ∃ h', Enhanced.BuildDependencyGraph st = (Ok (), with_heap h' st) ∧
        only_dependents_differ (heap st) h' ∧
        catalog_wf Enhanced.isValidCourseId (with_heap h' st).
Proof.
  intros Hwf. pose proof Hwf as (Hm & _).
  destruct (Enhanced_BuildDependencyGraph_spec st (map_to_list (courseMap st)) Hm)
    as (h' & Hrun & Hrel & _).
  { by apply entries_of_order. }
  exists h'. split_and!; [done|done|].
  by apply catalog_wf_same_keys, only_dependents_differ_same_keys.
Qed.

Lemma Enhanced_validate_ok st :
  map_wf st → ∃ valid lines, Enhanced.ValidateAllPrerequisites st = Ok (valid, lines).
Proof.
  intros Hm. unfold Enhanced.ValidateAllPrerequisites.
  destruct (Enhanced_ValidateAllPrerequisites_spec st (map_to_list (courseMap st)))
    as [[-> _]|(? & ? & ? & ? & _ & _ & _ & ->)]; [|eauto..].
  intros [k p] Hkp%elem_of_map_to_list. destruct (Hm k p Hkp) as (c & ? & _).
  by exists c.
Qed.

End Enhanced_load.

(** X4. A file in which every record has an acceptable key.  The loader of
    [EnhancementTwo.cpp] inserts the records in the order of the lines,
    rebuilds the dependents, runs the validation pass and returns [true],
    also when the pass reports an unknown prerequisite: that only adds a
    warning to what is written. *)
Theorem Enhanced_load_succeeds (filepath text : string) (st : State) :
  catalog_wf Enhanced.isValidCourseId st →
  Forall (λ c, Enhanced.isValidCourseId (courseId c) = true)
         (Enhanced_records (getlines text)) →
  ∃ valid lines st',
    Enhanced.BuildDependencyGraph
      (insert_all Enhanced.Insert (Enhanced_records (getlines text)) st)
    = (Ok (), st') ∧
    Enhanced.ValidateAllPrerequisites st' = Ok (valid, lines) ∧
    Enhanced.loadDataStructure filepath (Some text) (Some st)
    = (Ok (true,
           mkWritten [] (lines ++ if valid : bool then []
                                  else ["Warning: Some prerequisites could not be validated"])),
       Some st') ∧
    catalog_wf Enhanced.isValidCourseId st'.
Proof.
  intros Hwf Hall.
  destruct (Enhanced_load_loop_spec (getlines text) st Hwf) as [Hloop _].
  specialize (Hloop Hall).
  pose proof (insert_all_wf _ (Enhanced_records (getlines text)) st Hwf) as Hwf1.
  destruct (Enhanced_rebuild_ok _ Hwf1) as (h' & Hrun & Hrel & Hwf2).
  destruct (Enhanced_validate_ok _ (proj1 Hwf2)) as (valid & lines & Hval).
  exists valid, lines,
    (with_heap h' (insert_all Enhanced.Insert (Enhanced_records (getlines text)) st)).
  split_and!; [done|done| |done].
  unfold Enhanced.loadDataStructure, Enhanced.load_file.
  unfold Enhanced.Insert in *. rewrite Hloop, Hrun, Hval.
  destruct valid; [|done]. by rewrite app_nil_r.
Qed.

(** X5. A file with a record whose key is rejected.  The loader of
    [EnhancementTwo.cpp] stops at that line and returns [false]; the lines
    after it are not read, the records before it stay in the catalog, and
    the dependents are not rebuilt. *)
Theorem Enhanced_load_stops_at_rejected_key (filepath text : string) (st : State)
    (pre post : list Course) (bad : Course) :
  catalog_wf Enhanced.isValidCourseId st →
  Enhanced_records (getlines text) = pre ++ bad :: post →
  Forall (λ c, Enhanced.isValidCourseId (courseId c) = true) pre →
  Enhanced.isValidCourseId (courseId bad) = false →
  Enhanced.loadDataStructure filepath (Some text) (Some st)
  = (Ok (false,
         mkWritten [] ["Error processing file: Invalid course ID format: "
                       +:+ courseId bad]),
     Some (alloc bad (insert_all Enhanced.Insert pre st)).2).
Proof.
  intros Hwf Hrec Hpre Hbad.
  destruct (Enhanced_load_loop_spec (getlines text) st Hwf) as [_ Hloop].
  specialize (Hloop pre bad post Hrec Hpre Hbad).
  unfold Enhanced.loadDataStructure, Enhanced.load_file.
  by rewrite Hloop.
Qed.

(** The sample file loaded into an empty catalog: the three records are
    found, and CS100 has CS200 as its dependent. *)
Lemma Enhanced_load_succeeds_witness :
  ∃ valid lines st',
    Enhanced.BuildDependencyGraph
      (insert_all Enhanced.Insert (Enhanced_records (getlines sample_file))
                  empty_State)
    = (Ok (), st') ∧
    Enhanced.ValidateAllPrerequisites st' = Ok (valid, lines) ∧
    Enhanced.loadDataStructure "infile.txt" (Some sample_file) (Some empty_State)
    = (Ok (true,
           mkWritten [] (lines ++ if valid : bool then []
                                  else ["Warning: Some prerequisites could not be validated"])),
       Some st') ∧
    catalog_wf Enhanced.isValidCourseId st'.
Proof.
  apply (Enhanced_load_succeeds "infile.txt" sample_file empty_State).
  - apply catalog_wf_empty.
  - vm_compute. repeat constructor.
Defined.

(** The file with the rejected key: CS100 is in the catalog, the record with
    the key "1" is allocated and not inserted, CS200 was never read. *)
Lemma Enhanced_load_stops_at_rejected_key_witness :
  Enhanced.loadDataStructure "infile.txt" (Some rejected_file) (Some empty_State)
  = (Ok (false,
         mkWritten [] ["Error processing file: Invalid course ID format: 1"]),
     Some (alloc (course "1" "Nameless" [])
                 (insert_all Enhanced.Insert [course "CS100" "Programming" []]
                             empty_State)).2).
Proof.
  apply (Enhanced_load_stops_at_rejected_key
           "infile.txt" rejected_file empty_State
           [course "CS100" "Programming" []]
           [course "CS200" "Data Structures" ["CS100"]]
           (course "1" "Nameless" [])).
  - apply catalog_wf_empty.
  - vm_compute; reflexivity.
  - vm_compute. repeat constructor.
  - vm_compute; reflexivity.
Defined.

Lemma filter_all {A} (P : A → Prop) `{∀ x, Decision (P x)} (l : list A) :
  Forall P l → filter P l = l.
Proof.
  induction 1 as [|x l Hx _ IH]; [done|].
  by rewrite filter_cons_True, IH.
Qed.

Section cumulative.
Variable isValid : string → bool.

Lemma insert_all_records cs : ∀ st rs0,
  catalog_wf isValid st → records_at (heap st) (inorder (root st)) rs0 →
  ∃ rs, records_at (heap (insert_all (Insert_with isValid) cs st))
                   (inorder (root (insert_all (Insert_with isValid) cs st))) rs ∧
        rs ≡ₚ filter (λ c, isValid (courseId c)) cs ++ rs0.
Proof.
  induction cs as [|c cs IH]; intros st rs0 Hwf Hrs.
  - exists rs0. by split.
  - rewrite insert_all_cons.
    destruct (insert_new_spec isValid c st rs0 Hwf Hrs) as (rs1 & Hwf1 & Hrs1 & Hp1).
    destruct (IH _ rs1 Hwf1 Hrs1) as (rs & Hrs' & Hp).
    exists rs. split; [done|]. rewrite Hp, Hp1.
    destruct (isValid (courseId c)) eqn:Hv.
    + rewrite filter_cons_True by (cbn; by rewrite Hv).
      by rewrite <- Permutation_middle.
    + by rewrite filter_cons_False by (cbn; rewrite Hv; tauto).
Qed.

Lemma records_at_same_keys h h' ps rs :
  same_keys h h' → records_at h ps rs →
  ∃ rs', records_at h' ps rs' ∧ courseId <$> rs' = courseId <$> rs.
Proof.
  intros Hk. induction 1 as [|p r ps rs Hp _ (rs' & Hrs' & Hids)].
  - exists []. split; [constructor|done].
  - destruct (Forall2_lookup_l _ _ _ _ _ Hk Hp) as (r' & Hr' & Hid).
    exists (r' :: rs'). split; [by constructor|]. cbn. by rewrite Hid, Hids.
Qed.

Lemma enumerate_inv st ks :
  catalog_wf isValid st → enumerate st = Ok ks →
  ∃ rs, records_at (heap st) (inorder (root st)) rs ∧ ks = courseId <$> rs.
Proof.
  intros (_ & Hb & _) He. destruct (bst_records _ _ Hb) as (rs & Hrs).
  exists rs. split; [done|]. rewrite (enumerate_spec st rs Hrs) in He.
  by simplify_eq.
Qed.

End cumulative.

(** X6. Loading adds to the catalog.  When the loader of [EnhancementTwo.cpp]
    reads a file whose records all have acceptable keys into a catalog that
    already lists the keys [ks0], the catalog afterwards lists the keys of
    the file's records together with [ks0]: no node is removed or replaced,
    so a file loaded twice has each of its keys listed twice. *)
Theorem Enhanced_load_is_cumulative (filepath text : string) (st : State)
    (ks0 : list string) :
  catalog_wf Enhanced.isValidCourseId st →
  enumerate st = Ok ks0 →
  Forall (λ c, Enhanced.isValidCourseId (courseId c) = true)
         (Enhanced_records (getlines text)) →
  ∃ w st' ks,
    Enhanced.loadDataStructure filepath (Some text) (Some st)
    = (Ok (true, w), Some st') ∧
    enumerate st' = Ok ks ∧
    ks ≡ₚ (courseId <$> Enhanced_records (getlines text)) ++ ks0.
Proof.
  intros Hwf He Hall.
  destruct (enumerate_inv _ st ks0 Hwf He) as (rs0 & Hrs0 & ->).
  destruct (Enhanced_load_loop_spec (getlines text) st Hwf) as [Hloop _].
  specialize (Hloop Hall).
  pose proof (insert_all_wf _ (Enhanced_records (getlines text)) st Hwf) as Hwf1.
  destruct (insert_all_records _ (Enhanced_records (getlines text)) st rs0 Hwf Hrs0)
    as (rs1 & Hrs1 & Hp1).
  destruct (Enhanced_rebuild_ok _ Hwf1) as (h' & Hrun & Hrel & Hwf2).
  destruct (Enhanced_validate_ok _ (proj1 Hwf2)) as (valid & lines & Hval).
  destruct (records_at_same_keys _ h' _ _ (only_dependents_differ_same_keys _ _ Hrel) Hrs1)
    as (rs2 & Hrs2 & Hids).
  assert (∃ w, Enhanced.loadDataStructure filepath (Some text) (Some st)
               = (Ok (true, w),
                  Some (with_heap h' (insert_all Enhanced.Insert
                                        (Enhanced_records (getlines text)) st))))
    as [w Hw].
  { unfold Enhanced.loadDataStructure, Enhanced.load_file.
    unfold Enhanced.Insert in *. rewrite Hloop, Hrun, Hval.
    destruct valid; eauto. }
  exists w, (with_heap h' (insert_all Enhanced.Insert
                             (Enhanced_records (getlines text)) st)),
         (courseId <$> rs2).
  split_and!; [done|by apply enumerate_spec|].
  rewrite Hids, Hp1, fmap_app. f_equiv.
  rewrite filter_all; [done|].
  eapply Forall_impl; [exact Hall|]. intros c Hc. cbn. by rewrite Hc.
Qed.

(** The sample file read into a catalog that already holds its three
    records: six keys are listed afterwards. *)
Lemma Enhanced_load_is_cumulative_witness :
  ∃ w st' ks,
    Enhanced.loadDataStructure
      "infile.txt" (Some sample_file)
      (Some (insert_all Enhanced.Insert (Enhanced_records (getlines sample_file))
                        empty_State))
    = (Ok (true, w), Some st') ∧
    enumerate st' = Ok ks ∧
    ks ≡ₚ (courseId <$> Enhanced_records (getlines sample_file))
          ++ ["CS100"; "CS200"; "CS300"].
Proof.
  apply (Enhanced_load_is_cumulative "infile.txt" sample_file).
  - apply insert_all_catalog_wf.
  - vm_compute; reflexivity.
  - vm_compute. repeat constructor.
Defined.

Section Harness_loader.

Lemma Harness_load_loop_spec lines : ∀ errors has st,
  catalog_wf Harness.isValidCourseId st →
  Harness.load_loop lines errors has st
  = (Ok (errors ++ Harness_errors lines,
         has || existsb (λ c, Harness.isValidCourseId (courseId c))
                        (Harness_records lines)),
     insert_all Harness.Insert (Harness_records lines) st).
Proof.
  induction lines as [|line lines IH]; intros errors has st Hwf.
  - cbn. by rewrite app_nil_r, orb_false_r.
  - cbn [Harness.load_loop].
    unfold Harness_errors, Harness_records, Harness_lines.
    cbn [omap list_omap].
    fold (Harness_lines lines).
    destruct (String.eqb line EmptyString
              || match line with String "#" _ => true | _ => false end).
    { fold (Harness_errors lines). fold (Harness_records lines). by apply IH. }
    destruct (String.eqb (trim line) EmptyString).
    { fold (Harness_errors lines). fold (Harness_records lines). by apply IH. }
    cbn [omap list_omap].
    fold (Harness_errors lines). fold (Harness_records lines).
    destruct (course_of_fields (parse_fields trim EmptyString (trim line)))
      as [c|] eqn:Hc.
    + destruct (Harness.isValidCourseId (courseId c)) eqn:Hv.
      * destruct (insert_new_valid _ c st Hwf Hv) as (st' & Hins & Hwf').
        unfold Harness.Insert in *. rewrite Hins, IH by done.
        rewrite (insert_all_cons _ c _ st), Hins. cbn [existsb].
        by rewrite Hv, orb_true_r.
      * pose proof (insert_new_wf _ c st Hwf) as Hwf'.
        unfold Harness.Insert in *. rewrite insert_new_invalid in * by done.
        rewrite IH by done.
        rewrite (insert_all_cons _ c _ st), insert_new_invalid by done.
        cbn [existsb]. rewrite Hv. cbn [orb e_what].
        by rewrite <- app_assoc.
    + rewrite IH by done. by rewrite <- app_assoc.
Qed.

Lemma insert_all_rejected isValid cs : ∀ st,
  Forall (λ c, isValid (courseId c) = false) cs →
  insert_all (Insert_with isValid) cs st = with_heap (heap st ++ cs) st.
Proof.
  induction cs as [|c cs IH]; intros st Hall.
  - rewrite app_nil_r. by destruct st.
  - apply Forall_cons in Hall as [Hc Hall].
    rewrite insert_all_cons, insert_new_invalid by done.
    rewrite IH by done. unfold alloc, with_heap. cbn.
    by rewrite <- app_assoc.
Qed.

Lemma Harness_rebuild_ok st :
  catalog_wf Harness.isValidCourseId st →
  ∃ h', Harness.BuildDependencyGraph st = (Ok (), with_heap h' st) ∧
        same_declarations (heap st) h' ∧
        catalog_wf Harness.isValidCourseId (with_heap h' st).
Proof.
  intros Hwf. pose proof Hwf as (Hm & _).
  destruct (Harness_BuildDependencyGraph_spec st (map_to_list (courseMap st)) Hm)
    as (h' & Hrun & Hrel & _).
  { by apply entries_of_order. }
  exists h'. split_and!; [done|done|].
  by apply catalog_wf_same_keys, same_declarations_same_keys.
Qed.

End Harness_loader.

(** X7. The loader of [EnhancementTwoTest.cpp] skips what it cannot use.  Lines
    that are empty, blank or start with [#] are passed over; a line with
    fewer than two fields and a record whose key is rejected each add an
    entry to [errors] and the loop goes on.  The call returns [true] exactly
    when a record was inserted, and then the dependents are rebuilt; when no
    record was inserted it returns [false] and leaves the tree and the map
    as they were. *)
Theorem Harness_load_skips_rejected (filepath text : string) (st : State) :
  catalog_wf Harness.isValidCourseId st →
  if existsb (λ c, Harness.isValidCourseId (courseId c))
             (Harness_records (getlines text))
  then
    ∃ st',
      Harness.BuildDependencyGraph
        (insert_all Harness.Insert (Harness_records (getlines text)) st)
      = (Ok (), st') ∧
      Harness.loadDataStructure filepath (Some text) (Some st)
      = (Ok (true,
             mkWritten
               match Harness_errors (getlines text) with
               | [] => []
               | _ => (endl +:+ "  Warning: Some courses had errors but file was loaded:")
                      :: ((λ error, "  - " +:+ error)
                            <$> Harness_errors (getlines text))
               end []),
         Some st')
  else
    Harness.loadDataStructure filepath (Some text) (Some st)
    = (Ok (false,
           mkWritten ("  No valid courses were loaded"
                      :: ((λ error, "  Error: " +:+ error)
                            <$> Harness_errors (getlines text))) []),
       Some (with_heap (heap st ++ Harness_records (getlines text)) st)).
Proof.
  intros Hwf.
  pose proof (Harness_load_loop_spec (getlines text) [] false st Hwf) as Hloop.
  cbn [app orb] in Hloop.
  unfold Harness.loadDataStructure, Harness.load_file. rewrite Hloop.
  destruct (existsb _ _) eqn:Hex.
  - pose proof (insert_all_wf _ (Harness_records (getlines text)) st Hwf) as Hwf1.
    destruct (Harness_rebuild_ok _ Hwf1) as (h' & Hrun & _).
    exists (with_heap h' (insert_all Harness.Insert
                            (Harness_records (getlines text)) st)).
    split; [done|]. unfold Harness.Insert in *. by rewrite Hrun.
  - unfold Harness.Insert. rewrite insert_all_rejected; [done|].
    apply Forall_forall. intros c Hc.
    destruct (Harness.isValidCourseId (courseId c)) eqn:Hv; [|done].
    assert (existsb (λ c, Harness.isValidCourseId (courseId c))
                    (Harness_records (getlines text)) = true) as E; [|congruence].
    apply existsb_exists. exists c. split; [|done]. by apply list_elem_of_In.
Qed.

Lemma Harness_load_skips_rejected_witness :
  Harness_records (getlines harness_file)
  = [course "CS100" " Programming" []; course "CS1" "Too short" [];
     course "CS200" "Data Structures" ["CS100"]] ∧
  Harness_errors (getlines harness_file)
  = ["Error processing course: Invalid course ID format: CS1";
     "Invalid course format in line: justone"] ∧
  if existsb (λ c, Harness.isValidCourseId (courseId c))
             (Harness_records (getlines harness_file))
  then
    ∃ st',
      Harness.BuildDependencyGraph
        (insert_all Harness.Insert (Harness_records (getlines harness_file))
                    empty_State)
      = (Ok (), st') ∧
      Harness.loadDataStructure "test_cases.txt" (Some harness_file)
                                (Some empty_State)
      = (Ok (true,
             mkWritten
               match Harness_errors (getlines harness_file) with
               | [] => []
               | _ => (endl +:+ "  Warning: Some courses had errors but file was loaded:")
                      :: ((λ error, "  - " +:+ error)
                            <$> Harness_errors (getlines harness_file))
               end []),
         Some st')
  else
    Harness.loadDataStructure "test_cases.txt" (Some harness_file)
                              (Some empty_State)
    = (Ok (false,
           mkWritten ("  No valid courses were loaded"
                      :: ((λ error, "  Error: " +:+ error)
                            <$> Harness_errors (getlines harness_file))) []),
       Some (with_heap (heap empty_State
                        ++ Harness_records (getlines harness_file)) empty_State)).
Proof.
  split; [vm_compute; reflexivity|]. split; [vm_compute; reflexivity|].
  apply (Harness_load_skips_rejected "test_cases.txt" harness_file empty_State).
  apply catalog_wf_empty.
Defined.

(** X8. Cutting a line loses nothing.  The fields that the loop of the loader
    of [EnhancementTwo.cpp] cuts out of a line hold no comma, there is at
    least one, and joined with commas they give the line back. *)
Theorem parse_fields_join (line : string) :
  parse_fields id EmptyString line ≠ [] ∧
  Forall (free_of ",") (parse_fields id EmptyString line) ∧
  String.concat "," (parse_fields id EmptyString line) = line.
Proof.
  split_and!.
  - apply parse_fields_nonempty.
  - apply parse_fields_free, free_of_nil.
  - by rewrite parse_fields_concat.
Qed.

Lemma split_last {A} (x : A) (l : list A) : ∃ init last, x :: l = init ++ [last].
Proof.
  revert x. induction l as [|y l IH]; intros x.
  - by exists [], x.
  - destruct (IH y) as (init & last & ->). by exists (x :: init), last.
Qed.

(** X9. A record written as a line is read back.  When the key, the title and
    the prerequisites of a record hold no comma and no prerequisite is
    empty, the loader of [EnhancementTwo.cpp] makes of the line
    "key,title,prerequisite,..." a record with that key, that title and
    those prerequisites, in order, no dependents and both flags false. *)
Theorem course_of_csv_line (c : Course) :
  free_of "," (courseId c) → free_of "," (courseTitle c) →
  Forall (λ p, free_of "," p ∧ p ≠ EmptyString) (prereqs c) →
  course_of_fields (parse_fields id EmptyString (csv_line c))
  = Some (set_prereqs (prereqs c) (new_Course (courseId c) (courseTitle c))).
Proof.
  intros Hid Htitle Hps. unfold csv_line.
  destruct (split_last (courseId c) (courseTitle c :: prereqs c))
    as (init & last & Heq).
  assert (Forall (free_of ",") (init ++ [last])) as Hfree.
  { rewrite <- Heq. repeat constructor; [done..|].
    eapply Forall_impl; [exact Hps|]. by intros p [? _]. }
  apply Forall_app in Hfree as [Hinit Hlast].
  rewrite Forall_singleton in Hlast.
  rewrite Heq, (parse_fields_of_concat id init last Hinit Hlast).
  rewrite list_fmap_id, <- Heq. cbn [course_of_fields]. do 2 f_equal.
  apply filter_all. eapply Forall_impl; [exact Hps|]. by intros p [_ ?].
Qed.

Lemma course_of_csv_line_witness :
  csv_line (course "CS200" "Data Structures" ["CS100"; "MATH101"])
  = "CS200,Data Structures,CS100,MATH101" ∧
  course_of_fields
    (parse_fields id EmptyString
                  (csv_line (course "CS200" "Data Structures" ["CS100"; "MATH101"])))
  = Some (course "CS200" "Data Structures" ["CS100"; "MATH101"]).
Proof.
  split; [vm_compute; reflexivity|].
  apply (course_of_csv_line (course "CS200" "Data Structures" ["CS100"; "MATH101"])).
  - vm_compute. set_solver.
  - vm_compute. set_solver.
  - repeat constructor; vm_compute; set_solver.
Defined.


Section trim.

Lemma all_chars_String P ch s :
  all_chars P (String ch s) ↔ P ch = true ∧ all_chars P s.
Proof. unfold all_chars. cbn. by rewrite Forall_cons. Qed.

Lemma all_chars_Empty P : all_chars P EmptyString.
Proof. unfold all_chars. cbn. constructor. Qed.

Lemma trim_front_spec s :
  ∃ ws, s = ws +:+ trim_front s ∧ all_chars isspace ws ∧
        ∀ ch, head (list_ascii_of_string (trim_front s)) = Some ch →
              isspace ch = false.
Proof.
  induction s as [|x s (ws & Hs & Hws & Hhead)].
  - exists EmptyString. split_and!; [done|apply all_chars_Empty|done].
  - cbn [trim_front]. destruct (isspace x) eqn:Hx.
    + exists (String x ws). split_and!; [|by apply all_chars_String|done].
      by rewrite append_String, <- Hs.
    + exists EmptyString. split_and!; [done|apply all_chars_Empty|].
      intros ch [= <-]. done.
Qed.

Lemma trim_back_spec s :
  ∃ ws, s = trim_back s +:+ ws ∧ all_chars isspace ws ∧
        (∀ ch, last (list_ascii_of_string (trim_back s)) = Some ch →
               isspace ch = false) ∧
        (∀ ch, head (list_ascii_of_string (trim_back s)) = Some ch →
               head (list_ascii_of_string s) = Some ch).
Proof.
  induction s as [|x s (ws & Hs & Hws & Hlast & Hhead)].
  - exists EmptyString. split_and!; [done|apply all_chars_Empty|done|done].
  - cbn [trim_back]. destruct (trim_back s) as [|y kept] eqn:Hk.
    + rewrite append_nil_l in Hs. subst ws. destruct (isspace x) eqn:Hx.
      * exists (String x s). split_and!; [done|by apply all_chars_String|done|done].
      * exists s. split_and!; [done|done| |done]. by intros ch [= <-].
    + exists ws. split_and!; [|done| |done].
      * by rewrite append_String, <- Hs.
      * intros ch Hch. apply Hlast. exact Hch.
Qed.

Lemma trim_back_id s :
  (∀ ch, last (list_ascii_of_string s) = Some ch → isspace ch = false) →
  trim_back s = s.
Proof.
  induction s as [|x s IH]; intros Hlast; [done|]. cbn [trim_back].
  destruct s as [|y s].
  - cbn. by rewrite (Hlast x).
  - rewrite IH by (intros ch Hch; apply Hlast; exact Hch). done.
Qed.

Lemma trim_front_id s :
  (∀ ch, head (list_ascii_of_string s) = Some ch → isspace ch = false) →
  trim_front s = s.
Proof. destruct s as [|x s]; [done|]. intros Hhead. cbn. by rewrite (Hhead x). Qed.

End trim.

(** X11. What the trimming loops of the loader of [EnhancementTwoTest.cpp] take
    away.  A string is its trimmed form with characters of the class
    [isspace] before it and after it; the trimmed form neither starts nor
    ends with such a character; and trimming it again changes nothing. *)
Theorem trim_spec (s : string) :
  ∃ ws1 ws2,
    s = ws1 +:+ trim s +:+ ws2 ∧
    all_chars isspace ws1 ∧ all_chars isspace ws2 ∧
    trimmed (trim s) ∧ trim (trim s) = trim s.
Proof.
  unfold trim.
  destruct (trim_front_spec s) as (ws1 & Hs1 & Hws1 & Hhead).
  destruct (trim_back_spec (trim_front s)) as (ws2 & Hs2 & Hws2 & Hlast & Hhead').
  assert (trimmed (trim_back (trim_front s))) as Ht.
  { intros ch [Hch|Hch]; [apply Hhead, Hhead', Hch|by apply Hlast]. }
  exists ws1, ws2. split_and!; [|done|done|done|].
  - rewrite Hs1 at 1. by rewrite Hs2 at 1.
  - rewrite (trim_front_id (trim_back (trim_front s))) by (intros; apply Ht; auto).
    apply trim_back_id. intros; apply Ht; auto.
Qed.

(** ** The test categories of [EnhancementTwoTest.cpp] *)

Section test_cases.

Lemma substr_is_starts_with p : ∀ k,
  Harness.substr_is (String.length p) p k = true ↔ starts_with p k.
Proof.
  unfold Harness.substr_is, starts_with.
  induction p as [|ch p IH]; intros k.
  - cbn. split; [by exists k|]. intros _. by destruct k.
  - destruct k as [|x k]; cbn [String.length substring].
    + split; [done|]. by intros (rest & ?).
    + rewrite String.eqb_eq. split.
      * intros [= -> Hp]. apply String.eqb_eq, IH in Hp as (rest & ->).
        by exists rest.
      * intros (rest & [= -> ->]). f_equal. apply String.eqb_eq, IH. by exists rest.
Qed.

Lemma getTestCaseType_cases k :
  (Harness.isTestCase k = false ∧ Harness.getTestCaseType k = "STANDARD") ∨
  (Harness.isTestCase k = true ∧
   ∃ e, e ∈ [("CIRC", "CIRCULAR_DEPENDENCY"); ("PATH", "MULTIPLE_PATHS");
             ("DEEP", "DEEP_CHAIN"); ("MULT", "MULTIPLE_PREREQUISITES");
             ("SPEC", "SPECIAL_CHARACTERS"); ("CASE", "CASE_SENSITIVITY");
             ("SPACE", "WHITESPACE"); ("EMPTY", "EMPTY_FIELDS");
             ("MAX", "MAXIMUM_CHAIN"); ("DUP", "DUPLICATE_PREREQUISITES");
             ("SELF", "SELF_REFERENCE"); ("CPX", "COMPLEX_PATHS");
             ("BRANCH", "BRANCH_PATHS"); ("CROSS", "CROSS_DISCIPLINE")] ∧
        starts_with e.1 k ∧ Harness.getTestCaseType k = e.2).
Proof.
  unfold Harness.getTestCaseType, Harness.isTestCase, Harness.has_test_prefix,
    Harness.validPrefixes.
  cbn [existsb String.length].
  repeat match goal with
  | |- context [Harness.substr_is ?n ?p k] =>
    let H := fresh "H" in
    destruct (Harness.substr_is n p k) eqn:H;
    [right; split; [done|]; cbn [negb orb];
     apply (substr_is_starts_with p) in H;
     eexists (p, _); split; [|split; [exact H|reflexivity]];
     set_solver
    |]
  end.
  by left.
Qed.

End test_cases.

Lemma isTestCase_starts_with k :
  Harness.isTestCase k = true ↔
  ∃ p, p ∈ Harness.validPrefixes ∧ starts_with p k.
Proof.
  unfold Harness.isTestCase, Harness.has_test_prefix.
  rewrite existsb_exists. split.
  - intros (p & Hp%list_elem_of_In & H). exists p. split; [done|].
    by apply substr_is_starts_with.
  - intros (p & Hp%list_elem_of_In & H). exists p. split; [done|].
    by apply substr_is_starts_with.
Qed.

(** X12. The categories of [getTestCaseType] are complete.  The answer is
    "STANDARD" exactly for a key that [isTestCase] rejects, that is one that
    starts with none of the fourteen listed prefixes, and the last line of
    the function is dead: the answer is never "UNKNOWN_TEST". *)
Theorem getTestCaseType_never_unknown (k : string) :
  Harness.getTestCaseType k ≠ "UNKNOWN_TEST" ∧
  (Harness.getTestCaseType k = "STANDARD" ↔ Harness.isTestCase k = false) ∧
  (Harness.isTestCase k = true ↔
   ∃ p, p ∈ Harness.validPrefixes ∧ starts_with p k).
Proof.
  split_and!; [| |apply isTestCase_starts_with].
  - destruct (getTestCaseType_cases k) as [[_ ->]|(_ & e & He & _ & ->)]; [done|].
    repeat (apply elem_of_cons in He as [->|He]; [done|]).
    by apply elem_of_nil in He.
  - destruct (getTestCaseType_cases k) as [[Hf ->]|(Ht & e & He & _ & ->)]; [done|].
    split; [|congruence]. intros Habs. exfalso. revert Habs.
    repeat (apply elem_of_cons in He as [->|He]; [done|]).
    by apply elem_of_nil in He.
Qed.

(** X13. The records the validation pass of [EnhancementTwoTest.cpp] passes
    over are exactly those whose key starts with CIRC, SELF or DUP. *)
Theorem exempt_iff_prefix (k : string) :
  Harness.exempt k = true ↔
  starts_with "CIRC" k ∨ starts_with "SELF" k ∨ starts_with "DUP" k.
Proof.
  unfold Harness.exempt.
  destruct (getTestCaseType_cases k) as [[Hf ->]|(Ht & e & He & Hs & ->)].
  - rewrite Hf. cbn [andb]. split; [done|]. intros Hd.
    assert (Harness.isTestCase k = true) as E; [|congruence].
    apply isTestCase_starts_with. unfold Harness.validPrefixes.
    destruct Hd as [H|[H|H]]; eexists; (split; [|exact H]); set_solver.
  - rewrite Ht. cbn [andb]. destruct Hs as (rest & ->).
    repeat (apply elem_of_cons in He as [->|He];
            [cbn [fst snd]; split;
              [intros Hb; vm_compute in Hb;
               first [ discriminate
                     | left; by exists rest
                     | right; left; by exists rest
                     | right; right; by exists rest ]
              |intros Hd;
               first [ vm_compute; reflexivity
                     | destruct Hd as [(r & Hr)|[(r & Hr)|(r & Hr)]];
                       vm_compute in Hr; congruence ]]|]).
    by apply elem_of_nil in He.
Qed.

(** ** The rebuild of [EnhancementTwo.cpp], exactly *)

Section Enhanced_rebuild_steps.
Variable m : gmap string ptr.

Lemma set_dependentCourses_twice l l' c :
  set_dependentCourses l (set_dependentCourses l' c) = set_dependentCourses l c.
Proof. done. Qed.

Lemma set_dependentCourses_id c : set_dependentCourses (dependentCourses c) c = c.
Proof. by destruct c. Qed.

Lemma store_imap (F F' : ptr → Course → Course) (g : Course → Course) h0 p c0 :
  h0 !! p = Some c0 →
  F' p c0 = g (F p c0) →
  (∀ q c, q ≠ p → h0 !! q = Some c → F' q c = F q c) →
  store_with g p (imap F h0) = Ok (imap F' h0).
Proof.
  intros Hp Hg Hother.
  rewrite (store_with_Some g p (imap F h0) (F p c0))
    by (by rewrite list_lookup_imap, Hp).
  f_equal. apply list_eq. intros i.
  destruct (decide (i = p)) as [->|Hne].
  - rewrite list_lookup_insert_eq
      by (rewrite length_imap; by eapply lookup_lt_Some).
    rewrite list_lookup_imap, Hp. cbn. by rewrite Hg.
  - rewrite list_lookup_insert_ne by done. rewrite !list_lookup_imap.
    destruct (h0 !! i) as [c|] eqn:Hi; [|done]. cbn. f_equal.
    symmetry. by apply Hother.
Qed.

Lemma Enhanced_clear_exact h0 order :
  (∀ e, e ∈ order → is_Some (h0 !! e.2)) →
  for_each Enhanced.clear_dependents order h0
  = Ok (imap (λ q c, if decide (q ∈ order.*2)
                     then set_dependentCourses [] c else c) h0).
Proof.
  intros Hvalid.
  destruct (for_each_inv
              (λ done h, h = imap (λ q c, if decide (q ∈ done.*2)
                                          then set_dependentCourses [] c else c) h0)
              Enhanced.clear_dependents order) with (s := h0)
    as (h & -> & ->); [| |done].
  - intros done e h -> He. destruct (Hvalid e He) as [c0 Hc0].
    eexists. split; [|reflexivity]. unfold Enhanced.clear_dependents.
    apply (store_imap _ _ _ h0 e.2 c0 Hc0).
    + rewrite decide_True by (rewrite fmap_app; set_solver).
      by destruct (decide (e.2 ∈ done.*2)).
    + intros q c Hne _. apply decide_ext. rewrite fmap_app. set_solver.
  - apply list_eq. intros i. rewrite list_lookup_imap.
    destruct (h0 !! i); [|done]. cbn. by rewrite decide_False by set_solver.
Qed.

Lemma rebuilt_dependents_snoc h done e q :
  rebuilt_dependents m h (done ++ [e]) q
  = rebuilt_dependents m h done q
    ++ from_option (dependents_from m q) [] (h !! e.2).
Proof. unfold rebuilt_dependents. by rewrite bind_app, bind_singleton. Qed.

Lemma Enhanced_add_one_exact h1 (base : ptr → Course → list string) c :
  (∀ y q, m !! y = Some q → is_Some (h1 !! q)) →
  for_each (λ prereqId h,
              match m !! prereqId with
              | Some prereq => store_with (push_dependent (courseId c)) prereq h
              | None => Ok h
              end) (prereqs c)
           (imap (λ q c1, set_dependentCourses (base q c1) c1) h1)
  = Ok (imap (λ q c1, set_dependentCourses (base q c1 ++ dependents_from m q c) c1) h1).
Proof.
  intros Hm.
  destruct (for_each_inv
              (λ pdone h,
                 h = imap (λ q c1,
                             set_dependentCourses
                               (base q c1 ++ ((λ _, courseId c)
                                             <$> filter (λ y, m !! y = Some q) pdone))
                               c1) h1)
              (λ prereqId h,
                 match m !! prereqId with
                 | Some prereq => store_with (push_dependent (courseId c)) prereq h
                 | None => Ok h
                 end) (prereqs c))
    with (s := imap (λ q c1, set_dependentCourses (base q c1) c1) h1)
    as (h & -> & ->); [| |done].
  - intros pdone y h -> Hy. destruct (m !! y) as [p|] eqn:Hmy.
    + destruct (Hm y p Hmy) as [cp Hcp]. eexists. split; [|reflexivity].
      apply (store_imap _ _ _ h1 p cp Hcp).
      * rewrite filter_app, filter_cons_True, filter_nil by done.
        unfold push_dependent. cbn. by rewrite fmap_app, app_assoc.
      * intros q c1 Hne _.
        rewrite filter_app, filter_cons_False, filter_nil, app_nil_r; [done|].
        congruence.
    + eexists. split; [done|]. apply imap_ext. intros q c1 _. cbn.
      rewrite filter_app, filter_cons_False, filter_nil, app_nil_r; [done|].
      congruence.
  - apply imap_ext. intros q c1 _. cbn. by rewrite app_nil_r.
Qed.

Lemma Enhanced_add_exact h1 order :
  (∀ y q, m !! y = Some q → is_Some (h1 !! q)) →
  (∀ e, e ∈ order → is_Some (h1 !! e.2)) →
  for_each (Enhanced.add_dependents m) order h1
  = Ok (imap (λ q c1, set_dependentCourses
                        (dependentCourses c1 ++ rebuilt_dependents m h1 order q) c1)
             h1).
Proof.
  intros Hm Hvalid.
  destruct (for_each_inv
              (λ done h,
                 h = imap (λ q c1,
                             set_dependentCourses
                               (dependentCourses c1 ++ rebuilt_dependents m h1 done q)
                               c1) h1)
              (Enhanced.add_dependents m) order) with (s := h1)
    as (h & -> & ->); [| |done].
  - intros done e h -> He. destruct (Hvalid e He) as [ce Hce].
    unfold Enhanced.add_dependents.
    rewrite (load_Some e.2 _ (set_dependentCourses
                                (dependentCourses ce ++ rebuilt_dependents m h1 done e.2)
                                ce))
      by (by rewrite list_lookup_imap, Hce).
    cbn [mbind outcome_bind courseId prereqs set_dependentCourses].
    eexists. split.
    + apply (Enhanced_add_one_exact
               h1 (λ q c1, dependentCourses c1 ++ rebuilt_dependents m h1 done q)
               ce Hm).
    + apply imap_ext. intros q c1 Hq. cbn.
      rewrite rebuilt_dependents_snoc, Hce. cbn. by rewrite app_assoc.
  - apply list_eq. intros i. rewrite list_lookup_imap.
    destruct (h1 !! i) as [c|]; [|done]. cbn.
    unfold rebuilt_dependents. cbn. by rewrite app_nil_r, set_dependentCourses_id.
Qed.

End Enhanced_rebuild_steps.

Lemma filter_none {A} (P : A → Prop) `{∀ x, Decision (P x)} (l : list A) :
  Forall (λ x, ¬ P x) l → filter P l = [].
Proof.
  induction 1 as [|x l Hx _ IH]; [done|]. by rewrite filter_cons_False.
Qed.

Section Enhanced_rebuild_top.

Lemma rebuilt_dependents_ext m h h' order q :
  (∀ e, e ∈ order →
        from_option (dependents_from m q) [] (h' !! e.2)
        = from_option (dependents_from m q) [] (h !! e.2)) →
  rebuilt_dependents m h' order q = rebuilt_dependents m h order q.
Proof.
  intros Hext. unfold rebuilt_dependents.
  induction order as [|e order IH]; [done|].
  rewrite !bind_cons, Hext by set_solver. f_equal. apply IH.
  intros e' He'. apply Hext. set_solver.
Qed.

Lemma rebuilt_dependents_unmapped m h order q :
  (∀ y, m !! y ≠ Some q) → rebuilt_dependents m h order q = [].
Proof.
  intros Hq. unfold rebuilt_dependents.
  induction order as [|e order IH]; [done|].
  rewrite bind_cons, IH, app_nil_r.
  destruct (h !! e.2) as [c|]; [|done]. cbn. unfold dependents_from.
  rewrite filter_none; [done|].
  apply Forall_forall. intros y _. apply Hq.
Qed.

Lemma map_wf_order st order :
  map_wf st → order ≡ₚ map_to_list (courseMap st) →
  (∀ e, e ∈ order → ∃ c, heap st !! e.2 = Some c ∧ courseId c = e.1) ∧
  (∀ y q, courseMap st !! y = Some q → q ∈ order.*2 ∧ is_Some (heap st !! q)).
Proof.
  intros Hwf Hperm. pose proof (entries_of_order _ _ Hperm) as Ho. split.
  - intros [k p] He%Ho. by apply Hwf.
  - intros y q Hy. split.
    + apply list_elem_of_fmap. exists (y, q). split; [done|]. by apply Ho.
    + destruct (Hwf y q Hy) as (c & ? & _). eauto.
Qed.

Lemma Enhanced_BuildDependencyGraph_exact st order :
  map_wf st → order ≡ₚ map_to_list (courseMap st) →
  Enhanced.BuildDependencyGraph_in order st
  = (Ok (), with_heap (Enhanced_rebuilt (courseMap st) order (heap st)) st).
Proof.
  intros Hwf Hperm. destruct (map_wf_order st order Hwf Hperm) as [Ho Hm].
  unfold Enhanced.BuildDependencyGraph_in.
  rewrite Enhanced_clear_exact by (intros e (c & ? & _)%Ho; eauto).
  cbn [mbind outcome_bind].
  rewrite Enhanced_add_exact.
  - do 2 f_equal. unfold Enhanced_rebuilt. apply list_eq. intros q.
    rewrite !list_lookup_imap. destruct (heap st !! q) as [c|] eqn:Hq; [|done].
    cbn. f_equal.
    rewrite (rebuilt_dependents_ext _ (heap st)).
    + destruct (decide (q ∈ order.*2)) as [Hin|Hout]; [done|].
      rewrite rebuilt_dependents_unmapped, app_nil_r.
      * apply set_dependentCourses_id.
      * intros y Hy. by destruct (Hm y q Hy).
    + intros e _. rewrite list_lookup_imap.
      destruct (heap st !! e.2) as [ce|]; [|done]. cbn.
      by destruct (decide (e.2 ∈ order.*2)).
  - intros y p Hy. destruct (Hm y p Hy) as [_ [c Hc]].
    rewrite list_lookup_imap, Hc. eauto.
  - intros e (c & Hc & _)%Ho. rewrite list_lookup_imap, Hc. eauto.
Qed.

Lemma Enhanced_rebuilt_twice m order h :
  Enhanced_rebuilt m order (Enhanced_rebuilt m order h) = Enhanced_rebuilt m order h.
Proof.
  unfold Enhanced_rebuilt at 1. apply list_eq. intros q.
  rewrite list_lookup_imap.
  unfold Enhanced_rebuilt at 2 3. rewrite list_lookup_imap.
  destruct (h !! q) as [c|] eqn:Hq; [|done]. cbn. f_equal.
  destruct (decide (q ∈ order.*2)) as [Hin|Hout]; [|done].
  rewrite set_dependentCourses_twice. f_equal.
  apply rebuilt_dependents_ext. intros e _. unfold Enhanced_rebuilt.
  rewrite list_lookup_imap. destruct (h !! e.2) as [ce|]; [|done]. cbn.
  by destruct (decide (e.2 ∈ order.*2)).
Qed.

Lemma map_wf_same_keys st h' :
  map_wf st → same_keys (heap st) h' → map_wf (with_heap h' st).
Proof.
  intros Hm Hs k p Hp. destruct (Hm k p Hp) as (c & Hc & <-).
  destruct (Forall2_lookup_l _ _ _ _ _ Hs Hc) as (c' & ? & ?). eauto.
Qed.

Lemma Enhanced_rebuilt_same_keys m order h :
  same_keys h (Enhanced_rebuilt m order h).
Proof.
  apply Forall2_same_length_lookup. split.
  - unfold Enhanced_rebuilt. by rewrite length_imap.
  - intros q c c' Hc. unfold Enhanced_rebuilt. rewrite list_lookup_imap, Hc.
    intros [= <-]. by destruct (decide _).
Qed.

End Enhanced_rebuild_top.

(** X14. The rebuild of [EnhancementTwo.cpp], exactly.  In any iteration
    order of the map the call returns; the tree and the map are as before; a record
    the map designates has the same key, title, prerequisites and flags and
    gets as dependents, in iteration order, the key of each mapped record
    once for each of that record's prerequisites that resolves to it; and a
    record the map does not designate, such as one shadowed by a later
    insertion under the same key, is not touched. *)
Theorem Enhanced_rebuild_exact (st : State) (order : list (string * ptr)) :
  map_wf st → order ≡ₚ map_to_list (courseMap st) →
  ∃ h', Enhanced.BuildDependencyGraph_in order st = (Ok (), with_heap h' st) ∧
        length h' = length (heap st) ∧
        (∀ k q c, courseMap st !! k = Some q → heap st !! q = Some c →
           h' !! q = Some (set_dependentCourses
                             (rebuilt_dependents (courseMap st) (heap st) order q) c)) ∧
        (∀ q c, (∀ k, courseMap st !! k ≠ Some q) → heap st !! q = Some c →
           h' !! q = Some c).
Proof.
  intros Hwf Hperm. destruct (map_wf_order st order Hwf Hperm) as [Ho Hm].
  exists (Enhanced_rebuilt (courseMap st) order (heap st)).
  split_and!.
  - by apply Enhanced_BuildDependencyGraph_exact.
  - unfold Enhanced_rebuilt. by rewrite length_imap.
  - intros k q c Hk Hc. unfold Enhanced_rebuilt. rewrite list_lookup_imap, Hc. cbn.
    by rewrite decide_True by (by destruct (Hm k q Hk)).
  - intros q c Hq Hc. unfold Enhanced_rebuilt. rewrite list_lookup_imap, Hc. cbn.
    rewrite decide_False; [done|].
    intros ([k p] & -> & He)%list_elem_of_fmap.
    apply (entries_of_order _ _ Hperm) in He. by destruct (Hq k).
Qed.

(** X15. Rebuilding twice is rebuilding once: with the same iteration order, a
    second rebuild of [EnhancementTwo.cpp] returns and leaves the state the
    first one produced. *)
Theorem Enhanced_rebuild_idempotent (st : State) (order : list (string * ptr)) :
  map_wf st → order ≡ₚ map_to_list (courseMap st) →
  ∃ st', Enhanced.BuildDependencyGraph_in order st = (Ok (), st') ∧
         Enhanced.BuildDependencyGraph_in order st' = (Ok (), st').
Proof.
  intros Hwf Hperm. eexists. split.
  - by apply Enhanced_BuildDependencyGraph_exact.
  - rewrite Enhanced_BuildDependencyGraph_exact.
    + cbn [with_heap heap root courseMap]. by rewrite Enhanced_rebuilt_twice.
    + apply map_wf_same_keys; [done|apply Enhanced_rebuilt_same_keys].
    + done.
Qed.

Lemma Enhanced_rebuild_exact_witness :
  ∃ h', Enhanced.BuildDependencyGraph two_cycle = (Ok (), with_heap h' two_cycle) ∧
        length h' = length (heap two_cycle) ∧
        (∀ k q c, courseMap two_cycle !! k = Some q → heap two_cycle !! q = Some c →
           h' !! q = Some (set_dependentCourses
                             (rebuilt_dependents (courseMap two_cycle) (heap two_cycle)
                                (map_to_list (courseMap two_cycle)) q) c)) ∧
        (∀ q c, (∀ k, courseMap two_cycle !! k ≠ Some q) →
           heap two_cycle !! q = Some c → h' !! q = Some c).
Proof.
  exact (Enhanced_rebuild_exact two_cycle (map_to_list (courseMap two_cycle))
           (insert_all_map_wf _ _) (reflexivity _)).
Defined.

Lemma Enhanced_rebuild_idempotent_witness :
  ∃ st', Enhanced.BuildDependencyGraph_in (map_to_list (courseMap two_cycle))
                                          two_cycle = (Ok (), st') ∧
         Enhanced.BuildDependencyGraph_in (map_to_list (courseMap two_cycle)) st'
         = (Ok (), st').
Proof.
  exact (Enhanced_rebuild_idempotent two_cycle (map_to_list (courseMap two_cycle))
           (insert_all_map_wf _ _) (reflexivity _)).
Defined.

Section multiplicity.
Variable m : gmap string ptr.
Variable h : list Course.

Lemma occurrences_app x l1 l2 :
  occurrences x (l1 ++ l2) = occurrences x l1 + occurrences x l2.
Proof. unfold occurrences. by rewrite filter_app, length_app. Qed.

Lemma occurrences_dependents_from q c x :
  occurrences x (dependents_from m q c)
  = if decide (courseId c = x)
    then length (filter (λ y, m !! y = Some q) (prereqs c)) else 0.
Proof.
  unfold occurrences, dependents_from.
  induction (filter (λ y, m !! y = Some q) (prereqs c)) as [|y l IH].
  - by destruct (decide _).
  - cbn [fmap list_fmap]. destruct (decide (courseId c = x)) as [E|E].
    + rewrite filter_cons_True by done. cbn. by rewrite IH.
    + by rewrite filter_cons_False.
Qed.

Lemma occurrences_rebuilt_absent order q x :
  (∀ e, e ∈ order → ∃ c, h !! e.2 = Some c ∧ courseId c = e.1) →
  x ∉ order.*1 → occurrences x (rebuilt_dependents m h order q) = 0.
Proof.
  intros Ho Hx. unfold rebuilt_dependents.
  induction order as [|e order IH]; [done|].
  rewrite bind_cons, occurrences_app, IH; [|intros; apply Ho; set_solver|set_solver].
  destruct (Ho e) as (c & -> & Hc); [set_solver|]. cbn [from_option].
  rewrite occurrences_dependents_from, decide_False; [done|].
  rewrite Hc. set_solver.
Qed.

Lemma occurrences_rebuilt order q x px cx :
  (∀ e, e ∈ order → ∃ c, h !! e.2 = Some c ∧ courseId c = e.1) →
  NoDup order.*1 → (x, px) ∈ order → h !! px = Some cx →
  occurrences x (rebuilt_dependents m h order q)
  = length (filter (λ y, m !! y = Some q) (prereqs cx)).
Proof.
  intros Ho Hnd Hx Hcx.
  induction order as [|e order IH]; [by apply elem_of_nil in Hx|].
  cbn [fmap list_fmap] in Hnd. apply NoDup_cons in Hnd as [He Hnd].
  unfold rebuilt_dependents. rewrite bind_cons, occurrences_app.
  fold (rebuilt_dependents m h order q).
  destruct (Ho e) as (c & Hc & Hk); [set_solver|]. rewrite Hc. cbn [from_option].
  rewrite occurrences_dependents_from.
  apply elem_of_cons in Hx as [<-|Hx].
  - cbn [snd fst] in *. simplify_eq. rewrite decide_True by done.
    rewrite occurrences_rebuilt_absent; [lia| |done].
    intros; apply Ho; set_solver.
  - rewrite decide_False.
    + apply IH; [|done|done]. intros; apply Ho; set_solver.
    + rewrite Hk. intros E. apply He. rewrite E.
      apply list_elem_of_fmap. by exists (x, px).
Qed.

End multiplicity.

(** X16. Duplicates carry over.  After a rebuild of [EnhancementTwo.cpp], a
    key [x] occurs among the dependents of the record stored under [k] as
    many times as [k] occurs among the prerequisites of the record that the
    map stores under [x], and not at all when the map stores no record
    under [x]: a prerequisite listed twice makes a dependent listed twice,
    and a record that is in the tree only, shadowed in the map by a later
    insertion under its key, does not count. *)
Theorem Enhanced_dependents_multiplicity (st : State)
    (order : list (string * ptr)) (k x : string) (q : ptr) :
  map_wf st → order ≡ₚ map_to_list (courseMap st) →
  courseMap st !! k = Some q →
  ∃ st' c', Enhanced.BuildDependencyGraph_in order st = (Ok (), st') ∧
            heap st' !! q = Some c' ∧
            occurrences x (dependentCourses c')
            = match record_of st x with
              | Some cx => occurrences k (prereqs cx)
              | None => 0
              end.
Proof.
  intros Hwf Hperm Hk.
  destruct (map_wf_order st order Hwf Hperm) as [Ho Hm].
  destruct (Hwf k q Hk) as (c & Hc & _).
  exists (with_heap (Enhanced_rebuilt (courseMap st) order (heap st)) st),
         (set_dependentCourses
            (rebuilt_dependents (courseMap st) (heap st) order q) c).
  split_and!.
  - by apply Enhanced_BuildDependencyGraph_exact.
  - cbn [with_heap heap]. unfold Enhanced_rebuilt. rewrite list_lookup_imap, Hc. cbn.
    by rewrite decide_True by (by destruct (Hm k q Hk)).
  - cbn [dependentCourses set_dependentCourses]. unfold record_of.
    destruct (courseMap st !! x) as [px|] eqn:Hx; cbn [mbind option_bind].
    + destruct (Hwf x px Hx) as (cx & Hcx & _). rewrite Hcx.
      rewrite (occurrences_rebuilt _ _ order q x px cx); [|done| | |done].
      * unfold occurrences. f_equal. apply list_filter_iff. intros y. split.
        -- intros Hy. by eapply map_wf_inj.
        -- by intros ->.
      * rewrite Hperm. apply NoDup_fst_map_to_list.
      * by apply (entries_of_order _ _ Hperm).
    + apply occurrences_rebuilt_absent; [done|].
      intros ([x' p] & Hx' & He)%list_elem_of_fmap. cbn in Hx'. subst x'.
      apply (entries_of_order _ _ Hperm) in He. cbn in He. congruence.
Qed.

(** CS200 lists CS100 twice and is listed twice among the dependents of
    CS100; CS300, which the catalog does not hold, is listed nowhere. *)
Lemma Enhanced_dependents_multiplicity_witness :
  (dependentCourses <$> heap (Enhanced.BuildDependencyGraph listed_twice).2 !! 0)
  = Some ["CS200"; "CS200"] ∧
  (∃ st' c', Enhanced.BuildDependencyGraph listed_twice = (Ok (), st') ∧
             heap st' !! 0 = Some c' ∧
             occurrences "CS200" (dependentCourses c') = 2) ∧
  (∃ st' c', Enhanced.BuildDependencyGraph listed_twice = (Ok (), st') ∧
             heap st' !! 0 = Some c' ∧
             occurrences "CS300" (dependentCourses c') = 0).
Proof.
  split; [vm_compute; reflexivity|]. split.
  - exact (Enhanced_dependents_multiplicity
             listed_twice (map_to_list (courseMap listed_twice))
             "CS100" "CS200" 0 (insert_all_map_wf _ _) (reflexivity _)
             (eq_refl : courseMap listed_twice !! "CS100" = Some 0)).
  - exact (Enhanced_dependents_multiplicity
             listed_twice (map_to_list (courseMap listed_twice))
             "CS100" "CS300" 0 (insert_all_map_wf _ _) (reflexivity _)
             (eq_refl : courseMap listed_twice !! "CS100" = Some 0)).
Defined.

(** ** The rebuild of [EnhancementTwoTest.cpp], exactly *)

Section unique.

Lemma unique_loop_acc ps : ∀ seen acc,
  Harness.unique_loop ps seen acc = acc ++ Harness.unique_loop ps seen [].
Proof.
  induction ps as [|y ps IH]; intros seen acc; cbn.
  - by rewrite app_nil_r.
  - destruct (decide (y ∈ seen)); [apply IH|].
    rewrite (IH _ (acc ++ [y])), (IH _ ([] ++ [y])). by rewrite <- app_assoc.
Qed.

Lemma unique_loop_NoDup ps : ∀ seen, NoDup (Harness.unique_loop ps seen []).
Proof.
  induction ps as [|y ps IH]; intros seen; cbn; [constructor|].
  destruct (decide (y ∈ seen)); [apply IH|].
  rewrite unique_loop_acc. cbn. constructor; [|apply IH].
  rewrite unique_loop_elem. set_solver.
Qed.

Lemma unique_loop_sublist ps : ∀ seen, sublist (Harness.unique_loop ps seen []) ps.
Proof.
  induction ps as [|y ps IH]; intros seen; cbn; [constructor|].
  destruct (decide (y ∈ seen)).
  - apply sublist_cons, IH.
  - rewrite unique_loop_acc. cbn. apply sublist_skip, IH.
Qed.

Lemma unique_loop_id ps : ∀ seen,
  NoDup ps → (∀ y, y ∈ ps → y ∉ seen) → Harness.unique_loop ps seen [] = ps.
Proof.
  induction ps as [|y ps IH]; intros seen Hnd Hseen; cbn; [done|].
  apply NoDup_cons in Hnd as [Hy Hnd].
  rewrite decide_False by (apply Hseen; set_solver).
  rewrite unique_loop_acc. cbn. f_equal. apply IH; [done|].
  intros z Hz. specialize (Hseen z). set_solver.
Qed.

Lemma unique_NoDup ps : NoDup (unique ps).
Proof. apply unique_loop_NoDup. Qed.

Lemma unique_elem ps y : y ∈ unique ps ↔ y ∈ ps.
Proof. apply unique_loop_same. Qed.

Lemma unique_id ps : NoDup ps → unique ps = ps.
Proof. intros. apply unique_loop_id; [done|set_solver]. Qed.

Lemma unique_unique ps : unique (unique ps) = unique ps.
Proof. apply unique_id, unique_NoDup. Qed.

End unique.

Section Harness_rebuild_exact.
Variable m : gmap string ptr.

Lemma load_imap (F : ptr → Course → Course) h p c :
  h !! p = Some c → load (imap F h) p = Ok (F p c).
Proof. intros Hp. apply load_Some. by rewrite list_lookup_imap, Hp. Qed.

Lemma Harness_clear_exact h0 order :
  (∀ e, e ∈ order → is_Some (h0 !! e.2)) →
  for_each Harness.clear_dependents order h0
  = Ok (imap (λ q c, if decide (q ∈ order.*2)
                     then set_isProcessing false
                            (set_isVisited false (set_dependentCourses [] c))
                     else c) h0).
Proof.
  intros Hvalid.
  destruct (for_each_inv
              (λ done h,
                 h = imap (λ q c, if decide (q ∈ done.*2)
                                  then set_isProcessing false
                                         (set_isVisited false
                                            (set_dependentCourses [] c))
                                  else c) h0)
              Harness.clear_dependents order) with (s := h0)
    as (h & -> & ->); [| |done].
  - intros done e h -> He. destruct (Hvalid e He) as [c0 Hc0].
    eexists. split; [|reflexivity]. unfold Harness.clear_dependents.
    apply (store_imap _ _ _ h0 e.2 c0 Hc0).
    + rewrite decide_True by (rewrite fmap_app; set_solver).
      by destruct (decide (e.2 ∈ done.*2)).
    + intros q c Hne _. apply decide_ext. rewrite fmap_app. set_solver.
  - apply list_eq. intros i. rewrite list_lookup_imap.
    destruct (h0 !! i); [|done]. cbn. by rewrite decide_False by set_solver.
Qed.

(** The inner loop of the second pass, for a record with the key [id] and
    the prerequisites [ps], duplicates removed. *)
Lemma Harness_add_one_exact h1 (B : ptr → Course → Course) id ps :
  (∀ y q, m !! y = Some q → is_Some (h1 !! q)) →
  (∀ q c1, courseId (B q c1) = courseId c1) →
  for_each (λ prereqId h,
              match m !! prereqId with
              | Some prereq =>
                target ← load h prereq;
                if decide (courseId target ≠ id)
                then store_with (push_dependent id) prereq h
                else Ok h
              | None => Ok h
              end) ps (imap B h1)
  = Ok (imap (λ q c1,
                set_dependentCourses
                  (dependentCourses (B q c1)
                   ++ if decide (courseId c1 ≠ id)
                      then (λ _, id) <$> filter (λ y, m !! y = Some q) ps
                      else [])
                  (B q c1)) h1).
Proof.
  intros Hm HB.
  destruct (for_each_inv
              (λ pdone h,
                 h = imap (λ q c1,
                             set_dependentCourses
                               (dependentCourses (B q c1)
                                ++ if decide (courseId c1 ≠ id)
                                   then (λ _, id)
                                          <$> filter (λ y, m !! y = Some q) pdone
                                   else [])
                               (B q c1)) h1)
              (λ prereqId h,
                 match m !! prereqId with
                 | Some prereq =>
                   target ← load h prereq;
                   if decide (courseId target ≠ id)
                   then store_with (push_dependent id) prereq h
                   else Ok h
                 | None => Ok h
                 end) ps)
    with (s := imap B h1) as (h & -> & ->); [| |done].
  - intros pdone y h -> Hy. destruct (m !! y) as [p|] eqn:Hmy.
    + destruct (Hm y p Hmy) as [cp Hcp].
      rewrite (load_imap _ h1 p cp Hcp). cbn [mbind outcome_bind courseId set_dependentCourses].
      rewrite HB. destruct (decide (courseId cp ≠ id)) as [Hne|Heq].
      * eexists. split; [|reflexivity].
        apply (store_imap _ _ _ h1 p cp Hcp).
        -- rewrite !decide_True by done.
           rewrite filter_app, filter_cons_True, filter_nil by done.
           unfold push_dependent. cbn. by rewrite fmap_app, app_assoc.
        -- intros q c1 Hq _.
           rewrite filter_app, filter_cons_False, filter_nil, app_nil_r; [done|].
           congruence.
      * eexists. split; [done|]. apply imap_ext. intros q c1 Hq. cbn.
        destruct (decide (q = p)) as [->|Hqp].
        -- simplify_eq. by rewrite !decide_False by done.
        -- rewrite filter_app, filter_cons_False, filter_nil, app_nil_r; [done|].
           congruence.
    + eexists. split; [done|]. apply imap_ext. intros q c1 _. cbn.
      rewrite filter_app, filter_cons_False, filter_nil, app_nil_r; [done|].
      congruence.
  - apply imap_ext. intros q c1 _. cbn.
    destruct (decide (courseId c1 ≠ id)); rewrite app_nil_r; by destruct (B q c1).
Qed.

End Harness_rebuild_exact.

Section Harness_rebuild_outer.
Variable m : gmap string ptr.

Lemma Harness_rebuilt_dependents_snoc h done e q kq :
  Harness_rebuilt_dependents m h (done ++ [e]) q kq
  = Harness_rebuilt_dependents m h done q kq
    ++ from_option (Harness_dependents_from m q kq) [] (h !! e.2).
Proof. unfold Harness_rebuilt_dependents. by rewrite bind_app, bind_singleton. Qed.

Lemma Harness_add_exact h1 order :
  (∀ y q, m !! y = Some q → is_Some (h1 !! q)) →
  (∀ e, e ∈ order → is_Some (h1 !! e.2)) →
  for_each (Harness.add_dependents m) order h1
  = Ok (imap (λ q c1,
                mkCourse (courseId c1) (courseTitle c1)
                  (if decide (q ∈ order.*2) then unique (prereqs c1)
                   else prereqs c1)
                  (dependentCourses c1
                   ++ Harness_rebuilt_dependents m h1 order q (courseId c1))
                  (isVisited c1) (isProcessing c1)) h1).
Proof.
  intros Hm Hvalid.
  destruct (for_each_inv
              (λ done h,
                 h = imap (λ q c1,
                             mkCourse (courseId c1) (courseTitle c1)
                               (if decide (q ∈ done.*2) then unique (prereqs c1)
                                else prereqs c1)
                               (dependentCourses c1
                                ++ Harness_rebuilt_dependents m h1 done q (courseId c1))
                               (isVisited c1) (isProcessing c1)) h1)
              (Harness.add_dependents m) order) with (s := h1)
    as (h & -> & ->); [| |done].
  - intros done e h -> He. destruct (Hvalid e He) as [ce Hce].
    unfold Harness.add_dependents.
    rewrite (load_imap _ h1 e.2 ce Hce).
    cbn [mbind outcome_bind courseId prereqs].
    fold (unique (if decide (e.2 ∈ done.*2) then unique (prereqs ce) else prereqs ce)).
    assert (unique (if decide (e.2 ∈ done.*2) then unique (prereqs ce) else prereqs ce)
            = unique (prereqs ce)) as ->.
    { destruct (decide _); [apply unique_unique|done]. }
    rewrite (store_imap
               _ (λ q c1,
                    if decide (q = e.2)
                    then mkCourse (courseId c1) (courseTitle c1) (unique (prereqs ce))
                           (dependentCourses c1
                            ++ Harness_rebuilt_dependents m h1 done q (courseId c1))
                           (isVisited c1) (isProcessing c1)
                    else mkCourse (courseId c1) (courseTitle c1)
                           (if decide (q ∈ done.*2) then unique (prereqs c1)
                            else prereqs c1)
                           (dependentCourses c1
                            ++ Harness_rebuilt_dependents m h1 done q (courseId c1))
                           (isVisited c1) (isProcessing c1))
               _ h1 e.2 ce Hce).
    + cbn [mbind outcome_bind].
      rewrite Harness_add_one_exact; [|done|by intros q c1; destruct (decide _)].
      eexists. split; [done|]. apply imap_ext. intros q c1 Hq.
      rewrite Harness_rebuilt_dependents_snoc, Hce. cbn [from_option].
      unfold Harness_dependents_from.
      destruct (decide (q = e.2)) as [->|Hne].
      * simplify_eq.
        destruct (decide (e.2 ∈ (done ++ [e]).*2)) as [_|Hn];
          [|destruct Hn; rewrite fmap_app; set_solver].
        cbn. by rewrite app_assoc.
      * rewrite (decide_ext (q ∈ (done ++ [e]).*2) (q ∈ done.*2))
          by (rewrite fmap_app; set_solver).
        cbn. by rewrite app_assoc.
    + by rewrite decide_True.
    + intros q c1 Hne _. by rewrite decide_False.
  - apply list_eq. intros i. rewrite list_lookup_imap.
    destruct (h1 !! i) as [c|]; [|done]. cbn. rewrite app_nil_r. by destruct c.
Qed.

End Harness_rebuild_outer.

Section Harness_rebuild_top.

Lemma Harness_rebuilt_dependents_ext m h h' order q kq :
  (∀ e, e ∈ order →
        from_option (Harness_dependents_from m q kq) [] (h' !! e.2)
        = from_option (Harness_dependents_from m q kq) [] (h !! e.2)) →
  Harness_rebuilt_dependents m h' order q kq
  = Harness_rebuilt_dependents m h order q kq.
Proof.
  intros Hext. unfold Harness_rebuilt_dependents.
  induction order as [|e order IH]; [done|].
  rewrite !bind_cons, Hext by set_solver. f_equal. apply IH.
  intros e' He'. apply Hext. set_solver.
Qed.

Lemma Harness_rebuilt_dependents_unmapped m h order q kq :
  (∀ y, m !! y ≠ Some q) → Harness_rebuilt_dependents m h order q kq = [].
Proof.
  intros Hq. unfold Harness_rebuilt_dependents.
  induction order as [|e order IH]; [done|].
  rewrite bind_cons, IH, app_nil_r.
  destruct (h !! e.2) as [c|]; [|done]. cbn. unfold Harness_dependents_from.
  destruct (decide _); [|done].
  rewrite filter_none; [done|].
  apply Forall_forall. intros y _. apply Hq.
Qed.

Lemma Harness_BuildDependencyGraph_exact st order :
  map_wf st → order ≡ₚ map_to_list (courseMap st) →
  Harness.BuildDependencyGraph_in order st
  = (Ok (), with_heap (Harness_rebuilt (courseMap st) order (heap st)) st).
Proof.
  intros Hwf Hperm. destruct (map_wf_order st order Hwf Hperm) as [Ho Hm].
  unfold Harness.BuildDependencyGraph_in.
  rewrite Harness_clear_exact by (intros e (c & ? & _)%Ho; eauto).
  cbn [mbind outcome_bind].
  rewrite Harness_add_exact.
  - do 2 f_equal. unfold Harness_rebuilt. apply list_eq. intros q.
    rewrite !list_lookup_imap. destruct (heap st !! q) as [c|] eqn:Hq; [|done].
    cbn. f_equal.
    destruct (decide (q ∈ order.*2)) as [Hin|Hout].
    + cbn. f_equal. apply Harness_rebuilt_dependents_ext.
      intros e _. rewrite list_lookup_imap.
      destruct (heap st !! e.2) as [ce|]; [|done]. cbn.
      by destruct (decide (e.2 ∈ order.*2)).
    + rewrite Harness_rebuilt_dependents_unmapped, app_nil_r; [by destruct c|].
      intros y Hy. by destruct (Hm y q Hy).
  - intros y p Hy. destruct (Hm y p Hy) as [_ [c Hc]].
    rewrite list_lookup_imap, Hc. eauto.
  - intros e (c & Hc & _)%Ho. rewrite list_lookup_imap, Hc. eauto.
Qed.

Lemma Harness_rebuilt_twice m order h :
  Harness_rebuilt m order (Harness_rebuilt m order h) = Harness_rebuilt m order h.
Proof.
  unfold Harness_rebuilt at 1. apply list_eq. intros q.
  rewrite list_lookup_imap.
  unfold Harness_rebuilt at 2 3. rewrite list_lookup_imap.
  destruct (h !! q) as [c|] eqn:Hq; [|done]. cbn. f_equal.
  destruct (decide (q ∈ order.*2)) as [Hin|Hout]; [|done].
  cbn -[unique]. rewrite unique_unique. f_equal.
  apply Harness_rebuilt_dependents_ext. intros e _. unfold Harness_rebuilt.
  rewrite list_lookup_imap. destruct (h !! e.2) as [ce|]; [|done]. cbn -[unique].
  destruct (decide (e.2 ∈ order.*2)); [|done].
  unfold Harness_dependents_from. cbn -[unique]. by rewrite unique_unique.
Qed.

Lemma Harness_rebuilt_same_keys m order h :
  same_keys h (Harness_rebuilt m order h).
Proof.
  apply Forall2_same_length_lookup. split.
  - unfold Harness_rebuilt. by rewrite length_imap.
  - intros q c c' Hc. unfold Harness_rebuilt. rewrite list_lookup_imap, Hc.
    intros [= <-]. by destruct (decide _).
Qed.

Lemma filter_at_most_one {A} (P : A → Prop) `{∀ x, Decision (P x)} (l : list A) :
  NoDup l → (∀ y y', P y → P y' → y = y') → length (filter P l) ≤ 1.
Proof.
  intros Hnd Hone. induction Hnd as [|x l Hx Hnd IH]; [cbn; lia|].
  destruct (decide (P x)) as [HP|HP].
  - rewrite filter_cons_True by done. rewrite filter_none; [cbn; lia|].
    apply Forall_forall. intros y Hy HPy. apply Hx.
    by rewrite (Hone x y HP HPy).
  - by rewrite filter_cons_False.
Qed.

Lemma Harness_dependents_from_one m q kq c :
  (∀ y y', m !! y = Some q → m !! y' = Some q → y = y') →
  Harness_dependents_from m q kq c = []
  ∨ Harness_dependents_from m q kq c = [courseId c].
Proof.
  intros Hone. unfold Harness_dependents_from.
  destruct (decide _); [|by left].
  pose proof (filter_at_most_one (λ y, m !! y = Some q) (unique (prereqs c))
                (unique_NoDup _) Hone) as Hlen.
  destruct (filter _ _) as [|y [|y' l]]; [by left|by right|cbn in Hlen; lia].
Qed.

Lemma Harness_rebuilt_dependents_NoDup m h order q kq :
  (∀ y y', m !! y = Some q → m !! y' = Some q → y = y') →
  (∀ e, e ∈ order → ∃ c, h !! e.2 = Some c ∧ courseId c = e.1) →
  NoDup order.*1 →
  NoDup (Harness_rebuilt_dependents m h order q kq) ∧
  ∀ x, x ∈ Harness_rebuilt_dependents m h order q kq → x ∈ order.*1.
Proof.
  intros Hone Ho Hnd. unfold Harness_rebuilt_dependents.
  induction order as [|e order IH]; [split; [constructor|by intros ? ?%elem_of_nil]|].
  cbn [fmap list_fmap] in Hnd. apply NoDup_cons in Hnd as [He Hnd].
  destruct IH as [IH1 IH2]; [intros; apply Ho; set_solver|done|].
  rewrite bind_cons. destruct (Ho e) as (c & -> & Hk); [set_solver|].
  cbn [from_option].
  destruct (Harness_dependents_from_one m q kq c Hone) as [-> | ->].
  - split; [done|]. intros x Hx. cbn. right. by apply IH2.
  - rewrite Hk. cbn. split.
    + constructor; [|done]. intros Habs. by apply He, IH2.
    + intros x [->|Hx]%elem_of_cons; [by left|right; by apply IH2].
Qed.

End Harness_rebuild_top.

(** X17. The rebuild of [EnhancementTwoTest.cpp] normalises the records of the
    map.  In any iteration order the call returns and leaves the tree and
    the map as they were.  A record the map designates keeps its key and
    title; its prerequisites become the first occurrences of the old ones,
    in order, so nothing is listed twice, nothing is lost, and a list
    without duplicates is unchanged; both traversal flags are [false]; and
    no key occurs twice among its dependents.  A record the map does not
    designate is not touched. *)
Theorem Harness_rebuild_normalises (st : State) (order : list (string * ptr)) :
  map_wf st → order ≡ₚ map_to_list (courseMap st) →
  ∃ h', Harness.BuildDependencyGraph_in order st = (Ok (), with_heap h' st) ∧
        length h' = length (heap st) ∧
        (∀ k q c, courseMap st !! k = Some q → heap st !! q = Some c →
           ∃ c', h' !! q = Some c' ∧
                 courseId c' = courseId c ∧ courseTitle c' = courseTitle c ∧
                 prereqs c' = unique (prereqs c) ∧
                 NoDup (prereqs c') ∧ (∀ y, y ∈ prereqs c' ↔ y ∈ prereqs c) ∧
                 sublist (prereqs c') (prereqs c) ∧
                 (NoDup (prereqs c) → prereqs c' = prereqs c) ∧
                 NoDup (dependentCourses c') ∧
                 isVisited c' = false ∧ isProcessing c' = false) ∧
        (∀ q c, (∀ k, courseMap st !! k ≠ Some q) → heap st !! q = Some c →
           h' !! q = Some c).
Proof.
  intros Hwf Hperm. destruct (map_wf_order st order Hwf Hperm) as [Ho Hm].
  exists (Harness_rebuilt (courseMap st) order (heap st)).
  split_and!.
  - by apply Harness_BuildDependencyGraph_exact.
  - unfold Harness_rebuilt. by rewrite length_imap.
  - intros k q c Hk Hc. eexists. split.
    { unfold Harness_rebuilt. rewrite list_lookup_imap, Hc. cbn -[unique].
      by rewrite decide_True by (by destruct (Hm k q Hk)). }
    cbn -[unique]. split_and!; [done|done|done|apply unique_NoDup| | | |  |done|done].
    + intros y. apply unique_elem.
    + apply unique_loop_sublist.
    + apply unique_id.
    + apply Harness_rebuilt_dependents_NoDup.
      * intros y y' Hy Hy'. by eapply map_wf_inj.
      * done.
      * rewrite Hperm. apply NoDup_fst_map_to_list.
  - intros q c Hq Hc. unfold Harness_rebuilt. rewrite list_lookup_imap, Hc. cbn.
    rewrite decide_False; [done|].
    intros ([k p] & -> & He)%list_elem_of_fmap.
    apply (entries_of_order _ _ Hperm) in He. by destruct (Hq k).
Qed.

(** X18. Rebuilding twice is rebuilding once in [EnhancementTwoTest.cpp] too:
    with the same iteration order, a second rebuild returns and leaves the
    state the first one produced. *)
Theorem Harness_rebuild_idempotent (st : State) (order : list (string * ptr)) :
  map_wf st → order ≡ₚ map_to_list (courseMap st) →
  ∃ st', Harness.BuildDependencyGraph_in order st = (Ok (), st') ∧
         Harness.BuildDependencyGraph_in order st' = (Ok (), st').
Proof.
  intros Hwf Hperm. eexists. split.
  - by apply Harness_BuildDependencyGraph_exact.
  - rewrite Harness_BuildDependencyGraph_exact.
    + cbn [with_heap heap root courseMap]. by rewrite Harness_rebuilt_twice.
    + apply map_wf_same_keys; [done|apply Harness_rebuilt_same_keys].
    + done.
Qed.

Lemma Harness_rebuild_normalises_witness :
  (prereqs <$> heap (Harness.BuildDependencyGraph duplicate_prerequisite).2 !! 1)
  = Some ["CS100"] ∧
  (dependentCourses
     <$> heap (Harness.BuildDependencyGraph duplicate_prerequisite).2 !! 0)
  = Some ["DUP101"] ∧
  ∃ h', Harness.BuildDependencyGraph duplicate_prerequisite
        = (Ok (), with_heap h' duplicate_prerequisite) ∧
        length h' = length (heap duplicate_prerequisite) ∧
        (∀ k q c, courseMap duplicate_prerequisite !! k = Some q →
                  heap duplicate_prerequisite !! q = Some c →
           ∃ c', h' !! q = Some c' ∧
                 courseId c' = courseId c ∧ courseTitle c' = courseTitle c ∧
                 prereqs c' = unique (prereqs c) ∧
                 NoDup (prereqs c') ∧ (∀ y, y ∈ prereqs c' ↔ y ∈ prereqs c) ∧
                 sublist (prereqs c') (prereqs c) ∧
                 (NoDup (prereqs c) → prereqs c' = prereqs c) ∧
                 NoDup (dependentCourses c') ∧
                 isVisited c' = false ∧ isProcessing c' = false) ∧
        (∀ q c, (∀ k, courseMap duplicate_prerequisite !! k ≠ Some q) →
                heap duplicate_prerequisite !! q = Some c → h' !! q = Some c).
Proof.
  split; [vm_compute; reflexivity|]. split; [vm_compute; reflexivity|].
  exact (Harness_rebuild_normalises
           duplicate_prerequisite (map_to_list (courseMap duplicate_prerequisite))
           (insert_all_map_wf _ _) (reflexivity _)).
Defined.

Lemma Harness_rebuild_idempotent_witness :
  ∃ st', Harness.BuildDependencyGraph_in
           (map_to_list (courseMap duplicate_prerequisite)) duplicate_prerequisite
         = (Ok (), st') ∧
         Harness.BuildDependencyGraph_in
           (map_to_list (courseMap duplicate_prerequisite)) st'
         = (Ok (), st').
Proof.
  exact (Harness_rebuild_idempotent
           duplicate_prerequisite (map_to_list (courseMap duplicate_prerequisite))
           (insert_all_map_wf _ _) (reflexivity _)).
Defined.

(** ** The invariant of the class *)

Section invariant.
Variable isValid : string → bool.

Lemma Insert_with_wf p st :
  catalog_wf isValid st → catalog_wf isValid (Insert_with isValid p st).2.
Proof.
  intros Hwf. destruct p as [p|]; [|done]. unfold Insert_with.
  destruct (heap st !! p) as [c|] eqn:Hp; [|done].
  destruct (isValid (courseId c)) eqn:Hv.
  - destruct (Insert_accepts isValid p c st Hwf Hp Hv)
      as (r' & l1 & l2 & HI & _ & _ & _ & _ & Hwf').
    unfold Insert_with in HI. rewrite Hp, Hv in HI. cbn [negb] in *.
    by rewrite HI.
  - done.
Qed.

Lemma same_but_isProcessing_same_keys h h' :
  same_but_isProcessing h h' → same_keys h h'.
Proof.
  intros H. eapply Forall2_impl; [exact H|]. by intros c c' ->.
Qed.

Lemma catalog_wf_same_catalog st st' :
  catalog_wf isValid st → same_catalog st st' → catalog_wf isValid st'.
Proof.
  intros Hwf (Hh & Hr & Hm).
  pose proof (catalog_wf_same_keys isValid st (heap st') Hwf
                (same_but_isProcessing_same_keys _ _ Hh)) as Hwf'.
  destruct st' as [h' r' m']. cbn in *. by subst.
Qed.

End invariant.

(** X19. The invariant of the class.  The empty catalog satisfies it, and in
    both builds every public member that can write keeps it: [Insert] with
    any argument, accepted or not, [BuildDependencyGraph],
    [HasPrerequisiteCycle] and [GetPrerequisiteOrder] with any key.  The
    invariant: every entry of the map points at a record that carries the
    entry's key and is a node of the tree, the key passed the format check,
    and the tree is a search tree. *)
Theorem catalog_wf_is_invariant (st : State) (p : option ptr) (k : string) :
  (catalog_wf Enhanced.isValidCourseId empty_State ∧
   catalog_wf Harness.isValidCourseId empty_State) ∧
  (catalog_wf Enhanced.isValidCourseId st →
   catalog_wf Enhanced.isValidCourseId (Enhanced.Insert p st).2 ∧
   catalog_wf Enhanced.isValidCourseId (Enhanced.BuildDependencyGraph st).2 ∧
   catalog_wf Enhanced.isValidCourseId (Enhanced.HasPrerequisiteCycle k st).2 ∧
   catalog_wf Enhanced.isValidCourseId (Enhanced.GetPrerequisiteOrder k st).2) ∧
  (catalog_wf Harness.isValidCourseId st →
   catalog_wf Harness.isValidCourseId (Harness.Insert p st).2 ∧
   catalog_wf Harness.isValidCourseId (Harness.BuildDependencyGraph st).2 ∧
   catalog_wf Harness.isValidCourseId (Harness.HasPrerequisiteCycle k st).2 ∧
   catalog_wf Harness.isValidCourseId (Harness.GetPrerequisiteOrder k st).2).
Proof.
  split_and!; [apply catalog_wf_empty..| |].
  - intros Hwf. split_and!.
    + by apply Insert_with_wf.
    + by destruct (Enhanced_rebuild_ok st Hwf) as (h' & -> & _ & ?).
    + by rewrite Enhanced_HasPrerequisiteCycle_frame.
    + by rewrite Enhanced_GetPrerequisiteOrder_frame.
  - intros Hwf. split_and!.
    + by apply Insert_with_wf.
    + by destruct (Harness_rebuild_ok st Hwf) as (h' & -> & _ & ?).
    + eapply catalog_wf_same_catalog; [done|].
      apply Harness_HasPrerequisiteCycle_frame, Hwf.
    + eapply catalog_wf_same_catalog; [done|].
      apply Harness_GetPrerequisiteOrder_frame, Hwf.
Qed.

Lemma catalog_wf_is_invariant_witness :
  catalog_wf Enhanced.isValidCourseId (Enhanced.Insert None two_cycle).2 ∧
  catalog_wf Enhanced.isValidCourseId (Enhanced.BuildDependencyGraph two_cycle).2 ∧
  catalog_wf Harness.isValidCourseId
    (Harness.HasPrerequisiteCycle "SELF101" self_reference).2.
Proof.
  destruct (catalog_wf_is_invariant two_cycle None "CS100") as (_ & HE & _).
  destruct (catalog_wf_is_invariant self_reference None "SELF101") as (_ & _ & HH).
  destruct HE as (H1 & H2 & _); [apply insert_all_catalog_wf|].
  destruct HH as (_ & _ & H3 & _); [apply insert_all_catalog_wf|].
  done.
Defined.

(** ** The flags written by [hasCycle] in [EnhancementTwoTest.cpp] *)

Section flags.

Lemma flags_cleared_refl h : flags_cleared h h.
Proof.
  apply Forall2_same_length_lookup. split; [done|]. intros; simplify_eq; auto.
Qed.

Lemma flags_cleared_trans h1 h2 h3 :
  flags_cleared h1 h2 → flags_cleared h2 h3 → flags_cleared h1 h3.
Proof.
  intros H12 H23. apply Forall2_same_length_lookup. split.
  - apply Forall2_length in H12, H23. congruence.
  - intros i c1 c3 Hc1 Hc3.
    destruct (Forall2_lookup_l _ _ _ _ _ H12 Hc1) as (c2 & Hc2 & H1).
    destruct (Forall2_lookup_l _ _ _ _ _ H23 Hc2) as (c3' & Hc3' & H2).
    simplify_eq. destruct H1 as [->| ->], H2 as [->| ->]; auto.
Qed.

Lemma store_inv f p h h' :
  store_with f p h = Ok h' → ∃ c, h !! p = Some c ∧ h' = <[p := f c]> h.
Proof.
  unfold store_with. destruct (h !! p) as [c|]; [|done]. intros [= <-]. eauto.
Qed.

Lemma flags_cleared_store h p b h' :
  store_with (set_isProcessing b) p h = Ok h' → b = false → flags_cleared h h'.
Proof.
  intros (c & Hc & ->)%store_inv ->. apply Forall2_same_length_lookup. split.
  - by rewrite length_insert.
  - intros i x x' Hx [[-> ->]|[Hne Hx']]%lookup_store_cases; simplify_eq; auto.
Qed.

(** Setting the flag of [q], running something that only clears flags, and
    clearing the flag of [q]: in all, flags were only cleared. *)
Lemma flags_cleared_bracket h h1 h1' h2 q :
  store_with (set_isProcessing true) q h = Ok h1 →
  flags_cleared h1 h1' →
  store_with (set_isProcessing false) q h1' = Ok h2 →
  flags_cleared h h2.
Proof.
  intros (c & Hc & ->)%store_inv Hcl (c1 & Hc1 & ->)%store_inv.
  apply Forall2_same_length_lookup. split.
  - apply Forall2_length in Hcl. rewrite !length_insert in *. done.
  - intros i x x' Hx [[-> ->]|[Hne Hx']]%lookup_store_cases.
    + simplify_eq. right.
      assert (<[q := set_isProcessing true c]> h !! q
              = Some (set_isProcessing true c)) as Hq.
      { apply list_lookup_insert_eq. by eapply lookup_lt_Some. }
      destruct (Forall2_lookup_l _ _ _ _ _ Hcl Hq) as (y & Hy & [->| ->]);
        by simplify_eq.
    + assert (<[q := set_isProcessing true c]> h !! i = Some x) as Hi
        by (by rewrite list_lookup_insert_ne).
      destruct (Forall2_lookup_l _ _ _ _ _ Hcl Hi) as (y & Hy & HR).
      by simplify_eq.
Qed.

Lemma Harness_hasCycle_loop_clears descend p :
  (∀ course st V S st' V' S',
     descend course st V S = Ok (false, st', V', S') →
     flags_cleared (heap st) (heap st') ∧
     root st' = root st ∧ courseMap st' = courseMap st) →
  ∀ ps st V S st' V' S',
    Harness.hasCycle_loop descend p ps st V S = Ok (false, st', V', S') →
    flags_cleared (heap st) (heap st') ∧
    root st' = root st ∧ courseMap st' = courseMap st.
Proof.
  intros Hdesc. induction ps as [|y ps IH]; intros st V S st' V' S' Hrun.
  - cbn in Hrun. simplify_eq. split; [apply flags_cleared_refl|done].
  - cbn [Harness.hasCycle_loop] in Hrun.
    destruct (FindCourse st y) as [q|]; [|by eapply IH].
    destruct (decide (y ∈ S)).
    { destruct (store_with _ p _) as [h1| |]; [|done..].
      cbn [mbind outcome_bind] in Hrun.
      by destruct (store_with _ q _). }
    destruct (decide (y ∈ V)); [by eapply IH|].
    destruct (store_with (set_isProcessing true) q (heap st)) as [h1| |] eqn:H1;
      [|done..].
    cbn [mbind outcome_bind] in Hrun.
    destruct (descend (Some q) (with_heap h1 st) V S)
      as [[[[found st1] V1] S1]| |] eqn:Hd; [|done..].
    cbn [mbind outcome_bind] in Hrun. destruct found; [done|].
    destruct (store_with (set_isProcessing false) q (heap st1)) as [h2| |] eqn:H2;
      [|done..].
    cbn [mbind outcome_bind] in Hrun.
    destruct (Hdesc _ _ _ _ _ _ _ Hd) as (Hc1 & Hr1 & Hm1).
    destruct (IH _ _ _ _ _ _ Hrun) as (Hc2 & Hr2 & Hm2).
    cbn [with_heap heap root courseMap] in *.
    split_and!; [|congruence..].
    eapply flags_cleared_trans; [|exact Hc2].
    by eapply flags_cleared_bracket.
Qed.

Lemma Harness_hasCycle_clears fuel :
  ∀ course st V S st' V' S',
    Harness.hasCycle fuel course st V S = Ok (false, st', V', S') →
    flags_cleared (heap st) (heap st') ∧
    root st' = root st ∧ courseMap st' = courseMap st.
Proof.
  induction fuel as [|fuel IH]; intros [p|] st V S st' V' S' Hrun;
    cbn [Harness.hasCycle] in Hrun; try done.
  - simplify_eq. split; [apply flags_cleared_refl|done].
  - destruct (load (heap st) p) as [c| |]; [|done..].
    cbn [mbind outcome_bind] in Hrun.
    destruct (Harness.hasCycle_loop _ _ _ _ _ _)
      as [[[[found st1] V1] S1]| |] eqn:Hloop; [|done..].
    cbn [mbind outcome_bind] in Hrun. destruct found; [done|].
    destruct (store_with (set_isProcessing false) p (heap st1)) as [h| |] eqn:Hs;
      [|done..].
    cbn [mbind outcome_bind] in Hrun. simplify_eq.
    destruct (Harness_hasCycle_loop_clears _ _ IH _ _ _ _ _ _ _ Hloop)
      as (Hc & Hr & Hm).
    cbn [with_heap heap root courseMap]. split_and!; [|done..].
    eapply flags_cleared_trans; [exact Hc|]. by eapply flags_cleared_store.
  - simplify_eq. split; [apply flags_cleared_refl|done].
Qed.

Lemma flags_cleared_clean h h' :
  Forall (λ c, isProcessing c = false) h → flags_cleared h h' → h' = h.
Proof.
  intros Hclean Hcl. apply list_eq_same_length with (length h).
  - done.
  - by apply Forall2_length in Hcl.
  - intros i c' c _ Hc' Hc.
    destruct (Forall2_lookup_l _ _ _ _ _ Hcl Hc) as (c'' & ? & [->| ->]);
      simplify_eq; [done|].
    rewrite Forall_forall in Hclean.
    rewrite <- (Hclean c) by (by eapply list_elem_of_lookup_2). by destruct c.
Qed.

End flags.

(** X20. A query that finds no cycle sets no flag.  In
    [EnhancementTwoTest.cpp], when [HasPrerequisiteCycle] answers [false] or
    [GetPrerequisiteOrder] returns a list, the tree and the map are as
    before and every record is as before or has had its [isProcessing] flag
    cleared; so in a catalog in which no flag is set, as after a load, such
    a query leaves the state exactly as it was. *)
Theorem Harness_negative_query_sets_no_flag (st st' : State) (k : string) :
  Harness.HasPrerequisiteCycle k st = (Ok false, st')
  ∨ (∃ order, Harness.GetPrerequisiteOrder k st = (Ok order, st')) →
  root st' = root st ∧ courseMap st' = courseMap st ∧
  flags_cleared (heap st) (heap st') ∧
  (Forall (λ c, isProcessing c = false) (heap st) → st' = st).
Proof.
  intros Hq.
  assert (∃ p, Harness.run_hasCycle p st = (Ok false, st')) as [p Hrun].
  { destruct Hq as [Hq|[order Hq]].
    - unfold Harness.HasPrerequisiteCycle in Hq.
      destruct (FindCourse st k) as [p|]; [eauto|done].
    - unfold Harness.GetPrerequisiteOrder in Hq.
      destruct (FindCourse st k) as [p|]; [|done].
      destruct (Harness.run_hasCycle p st) as [[[]| |] st1] eqn:Hr;
        simplify_eq; eauto. }
  unfold Harness.run_hasCycle in Hrun.
  destruct (Harness.hasCycle _ _ _ _ _) as [[[[found st1] V1] S1]| |] eqn:Hc;
    [|done..].
  simplify_eq.
  destruct (Harness_hasCycle_clears _ _ _ _ _ _ _ _ Hc) as (Hcl & Hr & Hm).
  split_and!; [done..|].
  intros Hclean. pose proof (flags_cleared_clean _ _ Hclean Hcl) as Hh.
  destruct st, st'. cbn in *. by subst.
Qed.

(** The chain CS100, CS200, CS300: no flag is set, no cycle is found from
    CS300, and the state after the query is the state before. *)
Lemma Harness_negative_query_sets_no_flag_witness :
  Harness.HasPrerequisiteCycle "CS300" chain = (Ok false, chain) ∧
  (root chain = root chain ∧ courseMap chain = courseMap chain ∧
   flags_cleared (heap chain) (heap chain) ∧
   (Forall (λ c, isProcessing c = false) (heap chain) → chain = chain)).
Proof.
  assert (Harness.HasPrerequisiteCycle "CS300" chain = (Ok false, chain)) as H.
  { vm_compute; reflexivity. }
  split; [exact H|].
  apply (Harness_negative_query_sets_no_flag chain chain "CS300"). by left.
Defined.

(** ** Validation after a rebuild in [EnhancementTwoTest.cpp] *)

Section no_duplicate.

Lemma first_violation_NoDup st id ps e y id' :
  NoDup ps → first_violation st id ps e → e ≠ Harness.DuplicatePrerequisite y id'.
Proof.
  intros Hnd (pre & z & post & -> & _ & Hcase) ->.
  destruct Hcase as [[_ He]|[(_ & Hz & _)|(_ & _ & _ & He)]].
  - by injection He.
  - apply NoDup_app in Hnd as (_ & Hnd & _). apply (Hnd z Hz). by left.
  - by injection He.
Qed.

End no_duplicate.

(** X21. After a rebuild the duplicate check finds nothing.  The rebuild of
    [EnhancementTwoTest.cpp] removes the repeated prerequisites, so a
    validation pass that follows it returns and none of the lines it writes
    reports a duplicate prerequisite. *)
Theorem Harness_no_duplicate_after_rebuild (st : State)
    (order : list (string * ptr)) :
  map_wf st → order ≡ₚ map_to_list (courseMap st) →
  ∃ st' valid lines,
    Harness.BuildDependencyGraph_in order st = (Ok (), st') ∧
    Harness.ValidateAllPrerequisites_in st' order = Ok (valid, lines) ∧
    ∀ y id, ("  Validation error: "
             +:+ e_what (Harness.DuplicatePrerequisite y id)) ∉ lines.
Proof.
  intros Hwf Hperm. destruct (map_wf_order st order Hwf Hperm) as [Ho Hm].
  pose proof (Harness_BuildDependencyGraph_exact st order Hwf Hperm) as Hrun.
  set (st' := with_heap (Harness_rebuilt (courseMap st) order (heap st)) st) in *.
  assert (∀ e, e ∈ order →
               ∃ c, heap st !! e.2 = Some c ∧
                    heap st' !! e.2
                    = Some (mkCourse (courseId c) (courseTitle c)
                              (unique (prereqs c))
                              (Harness_rebuilt_dependents
                                 (courseMap st) (heap st) order e.2 (courseId c))
                              false false)) as Hrec.
  { intros e He. destruct (Ho e He) as (c & Hc & _). exists c. split; [done|].
    cbn [st' with_heap heap]. unfold Harness_rebuilt.
    rewrite list_lookup_imap, Hc. cbn -[unique].
    rewrite decide_True; [done|]. apply list_elem_of_fmap. by exists e. }
  eexists st', _, _. split; [done|]. split.
  - apply Harness_ValidateAllPrerequisites_spec.
    intros e He. destruct (Hrec e He) as (c & _ & ->). eauto.
  - intros y id (what & Heq & Hwhat)%list_elem_of_fmap.
    apply (inj (String.app _)) in Heq.
    apply list_elem_of_omap in Hwhat as (e & He & Hrep).
    destruct (Hrec e He) as (c & _ & Hc').
    unfold Harness_report in Hrep. rewrite Hc' in Hrep.
    destruct (Harness.exempt _); [done|].
    destruct (Harness_validatePrerequisites_spec st' e.2 _ Hc')
      as [[Hok _]|(e0 & Hthrow & Hviol)].
    + by rewrite Hok in Hrep.
    + rewrite Hthrow in Hrep. destruct e0 as [w|w]; [done|]. simplify_eq.
      eapply first_violation_NoDup; [|exact Hviol|done].
      apply unique_NoDup.
Qed.

(** CS200 lists CS100 twice: a pass before the rebuild reports the
    duplicate, a pass after it reports nothing. *)
Lemma Harness_no_duplicate_after_rebuild_witness :
  Harness.ValidateAllPrerequisites listed_twice
  = Ok (false, ["  Validation error: Duplicate prerequisite detected: "
                +:+ "CS100 listed multiple times for CS200"]) ∧
  Harness.ValidateAllPrerequisites (Harness.BuildDependencyGraph listed_twice).2
  = Ok (true, []) ∧
  ∃ st' valid lines,
    Harness.BuildDependencyGraph_in (map_to_list (courseMap listed_twice))
                                    listed_twice
    = (Ok (), st') ∧
    Harness.ValidateAllPrerequisites_in st' (map_to_list (courseMap listed_twice))
    = Ok (valid, lines) ∧
    ∀ y id, ("  Validation error: "
             +:+ e_what (Harness.DuplicatePrerequisite y id)) ∉ lines.
Proof.
  split; [vm_compute; reflexivity|]. split; [vm_compute; reflexivity|].
  exact (Harness_no_duplicate_after_rebuild
           listed_twice (map_to_list (courseMap listed_twice))
           (insert_all_map_wf _ _) (reflexivity _)).
Defined.

(** ** Showing a course in [EnhancementTwoTest.cpp] *)

Section Harness_printer.

Lemma Harness_course_details_plain cur id st :
  Harness.contains "TEST" id = false → Harness.contains "CIRC" id = false →
  Harness.contains "PATH" id = false →
  Harness.course_details cur id st
  = ((Enhanced.course_details cur, [], Ok ()), st).
Proof.
  intros H1 H2 H3. unfold Harness.course_details, Enhanced.course_details.
  rewrite H1, H2, H3. cbn [orb]. cbv iota. do 3 f_equal.
  destruct (prereqs cur) as [|y ps]; unfold printSubHeader;
    by rewrite !append_assoc.
Qed.

Lemma Harness_printCourseInformation_plain nd id st :
  Harness.contains "TEST" id = false → Harness.contains "CIRC" id = false →
  Harness.contains "PATH" id = false →
  Harness.printCourseInformation nd id st
  = (match Enhanced.printCourseInformation (heap st) nd id with
     | Ok text => (text, [], Ok ())
     | Throw e => (EmptyString, [], Throw e)
     | Stuck => (EmptyString, [], Stuck)
     end, st).
Proof.
  intros H1 H2 H3. induction nd as [|c l IHl r IHr]; [done|].
  cbn [Harness.printCourseInformation Enhanced.printCourseInformation].
  unfold load. destruct (heap st !! c) as [cur|]; [|done].
  cbn [mbind outcome_bind].
  destruct (String.eqb id (courseId cur)).
  - by apply Harness_course_details_plain.
  - by destruct (String.ltb id (courseId cur)).
Qed.

End Harness_printer.

(** X22. The two builds show an ordinary course alike.  For a key that contains
    none of TEST, CIRC and PATH, [PrintCourseInformation] of
    [EnhancementTwoTest.cpp] writes to [cout] exactly what that of
    [EnhancementTwo.cpp] writes, writes nothing to [cerr], and leaves the
    state as it was. *)
Theorem Harness_prints_ordinary_course_like_Enhanced (st : State) (id : string) :
  Harness.contains "TEST" id = false → Harness.contains "CIRC" id = false →
  Harness.contains "PATH" id = false →
  Harness.PrintCourseInformation id st
  = (match Enhanced.PrintCourseInformation st id with
     | Ok text => (text, [], Ok ())
     | Throw e => (EmptyString, [], Throw e)
     | Stuck => (EmptyString, [], Stuck)
     end, st).
Proof.
  intros H1 H2 H3.
  unfold Harness.PrintCourseInformation, Enhanced.PrintCourseInformation.
  destruct (root st) as [|c l r] eqn:Hr; [done|].
  by apply Harness_printCourseInformation_plain.
Qed.

Lemma Harness_prints_ordinary_course_like_Enhanced_witness :
  Harness.PrintCourseInformation "CS200" chain
  = ((Enhanced.course_details (course "CS200" "Data Structures" ["CS100"]), [],
      Ok ()), chain) ∧
  Harness.PrintCourseInformation "CS200" chain
  = (match Enhanced.PrintCourseInformation chain "CS200" with
     | Ok text => (text, [], Ok ())
     | Throw e => (EmptyString, [], Throw e)
     | Stuck => (EmptyString, [], Stuck)
     end, chain).
Proof.
  split; [vm_compute; reflexivity|].
  apply (Harness_prints_ordinary_course_like_Enhanced chain "CS200");
    vm_compute; reflexivity.
Defined.

Section Harness_printer_frame.

Lemma insert_all_key_present isValid cs k i :
  accepted_as isValid cs k i →
  is_Some (courseMap (insert_all (Insert_with isValid) cs empty_State) !! k).
Proof.
  revert i. induction cs as [|c cs IH] using rev_ind; intros i.
  - intros (x & Hx & _). by rewrite lookup_nil in Hx.
  - rewrite insert_all_snoc. unfold insert_new.
    pose proof (insert_all_catalog_wf isValid cs) as Hwf.
    pose proof (catalog_wf_alloc isValid c _ Hwf) as Hwf'.
    pose proof (alloc_lookup c (insert_all (Insert_with isValid) cs empty_State)) as Hp.
    destruct (alloc c _) as [p st'] eqn:Halloc. cbn [fst snd] in *.
    assert (courseMap st' = courseMap (insert_all (Insert_with isValid) cs empty_State))
      as Hm'.
    { unfold alloc in Halloc. by simplify_eq. }
    intros [Hi|(-> & Hv & Hk)]%accepted_as_snoc.
    + specialize (IH i Hi). destruct (isValid (courseId c)) eqn:Hv.
      * destruct (Insert_accepts isValid _ c st' Hwf' Hp Hv) as
          (r' & l1 & l2 & -> & _). cbn [snd courseMap].
        rewrite Hm'. destruct (decide (courseId c = k)) as [->|Hne].
        -- rewrite lookup_insert_eq. eauto.
        -- by rewrite lookup_insert_ne.
      * rewrite (Insert_rejects isValid _ c st' Hp Hv). cbn [snd]. by rewrite Hm'.
    + destruct (Insert_accepts isValid _ c st' Hwf' Hp Hv) as
        (r' & l1 & l2 & -> & _). cbn [snd courseMap].
      rewrite Hk, lookup_insert_eq. eauto.
Qed.

Lemma Harness_validate_ok st :
  map_wf st → ∃ valid lines, Harness.ValidateAllPrerequisites st = Ok (valid, lines).
Proof.
  intros Hm. unfold Harness.ValidateAllPrerequisites.
  rewrite Harness_ValidateAllPrerequisites_spec; [eauto|].
  intros [k p] Hkp%elem_of_map_to_list. destruct (Hm k p Hkp) as (c & ? & _).
  by exists c.
Qed.

Lemma Harness_printCourseInformation_ends st nd id :
  map_wf st →
  (∀ p, p ∈ inorder nd →
        ∃ c, heap st !! p = Some c ∧ is_Some (courseMap st !! courseId c)) →
  ∃ text lines st',
    Harness.printCourseInformation nd id st = ((text, lines, Ok ()), st') ∧
    same_catalog st st'.
Proof.
  intros Hm. induction nd as [|c l IHl r IHr]; intros Hnodes.
  - eexists _, _, st. split; [done|apply same_catalog_refl].
  - cbn [Harness.printCourseInformation].
    destruct (Hnodes c) as (cur & -> & Hkey); [cbn; set_solver|].
    destruct (String.eqb_spec id (courseId cur)) as [->|Hne].
    + unfold Harness.course_details.
      destruct (_ || _ || _);
        [|eexists _, _, st; split; [done|apply same_catalog_refl]].
      destruct (Harness_validate_ok st Hm) as (valid & lines & ->).
      destruct (Harness_HasPrerequisiteCycle_present st (courseId cur) Hm Hkey)
        as (b & st' & -> & Hsame & _).
      eexists _, _, st'. by split.
    + destruct (String.ltb id (courseId cur)).
      * apply IHl. intros p Hp. apply Hnodes. cbn. set_solver.
      * apply IHr. intros p Hp. apply Hnodes. cbn. set_solver.
Qed.

End Harness_printer_frame.

(** X23. Showing a course in [EnhancementTwoTest.cpp] ends normally and writes
    flags at most.  Records [cs] are inserted into an empty catalog and [h']
    is the arena at a later time, with every key as inserted.  Then
    [PrintCourseInformation] with any key returns, and although the member
    is [const] and calls [ValidateAllPrerequisites] and
    [HasPrerequisiteCycle] for a test case, the state after it differs from
    the state before in [isProcessing] flags at most. *)
Theorem Harness_PrintCourseInformation_frame (cs h' : list Course) (id : string) :
  same_keys cs h' →
  ∃ text lines st',
    Harness.PrintCourseInformation
      id (with_heap h' (insert_all Harness.Insert cs empty_State))
    = ((text, lines, Ok ()), st') ∧
    same_catalog (with_heap h' (insert_all Harness.Insert cs empty_State)) st'.
Proof.
  intros Hk. unfold Harness.Insert.
  destruct (insert_all_listing Harness.isValidCourseId cs)
    as (Hwf & Hh & Hin & _).
  set (st := insert_all (Insert_with Harness.isValidCourseId) cs empty_State) in *.
  assert (map_wf (with_heap h' st)) as Hm.
  { apply map_wf_same_keys; [apply Hwf|by rewrite Hh]. }
  assert (∀ p, p ∈ inorder (root st) →
               ∃ c, h' !! p = Some c ∧ is_Some (courseMap st !! courseId c))
    as Hnodes.
  { intros p (x & Hx & Hv)%Hin.
    destruct (Forall2_lookup_l _ _ _ _ _ Hk Hx) as (x' & Hx' & Hid).
    exists x'. split; [done|]. rewrite Hid.
    apply (insert_all_key_present _ _ _ p). by exists x. }
  unfold Harness.PrintCourseInformation. cbn [with_heap root].
  destruct (root st) as [|c l r].
  { eexists _, _, _. split; [done|apply same_catalog_refl]. }
  by apply Harness_printCourseInformation_ends.
Qed.

Lemma Harness_PrintCourseInformation_frame_witness :
  (isProcessing
     <$> heap (Harness.PrintCourseInformation
                 "CIRC101"
                 (insert_all Harness.Insert circular_test_case empty_State)).2 !! 0)
  = Some true ∧
  ∃ text lines st',
    Harness.PrintCourseInformation
      "CIRC101"
      (with_heap circular_test_case
                 (insert_all Harness.Insert circular_test_case empty_State))
    = ((text, lines, Ok ()), st') ∧
    same_catalog (with_heap circular_test_case
                            (insert_all Harness.Insert circular_test_case empty_State))
                 st'.
Proof.
  split; [vm_compute; reflexivity|].
  apply (Harness_PrintCourseInformation_frame circular_test_case circular_test_case).
  by repeat constructor.
Defined.

(** ** A record shadowed by a duplicate *)

(** X24. A rebuild passes over a record shadowed by a duplicate.  Records
    [cs] were inserted into an empty catalog of [EnhancementTwo.cpp], with
    or without rebuilds in between, and [h] is the arena now.  When two of
    them were accepted under the same key, a rebuild leaves the first one as
    it is in [h]: its dependents are neither cleared nor brought up to
    date.  [PrintCourseInformation] after the rebuild shows that record,
    with the dependents it had before, while [FindCourse] returns a later
    record: the "Required by" part shown for such a key is not that of the
    graph. *)
Theorem shadowed_record_is_not_rebuilt (cs h : list Course)
    (order : list (string * ptr)) (k : string) (i j : ptr) (c : Course) :
  same_keys cs h →
  order ≡ₚ map_to_list (courseMap (insert_all Enhanced.Insert cs empty_State)) →
  h !! i = Some c →
  accepted_as Enhanced.isValidCourseId cs k i →
  (∀ i', accepted_as Enhanced.isValidCourseId cs k i' → i ≤ i') →
  accepted_as Enhanced.isValidCourseId cs k j → i < j →
  ∃ st' last,
    Enhanced.BuildDependencyGraph_in
      order (with_heap h (insert_all Enhanced.Insert cs empty_State))
    = (Ok (), st') ∧
    heap st' !! i = Some c ∧
    Enhanced.PrintCourseInformation st' k = Ok (Enhanced.course_details c) ∧
    FindCourse st' k = Some last ∧ i < last.
Proof.
  intros Hkeys Hperm Hc Hi Hmin Hj Hij. unfold Enhanced.Insert in *.
  pose proof (insert_all_map_wf Enhanced.isValidCourseId cs) as Hm.
  pose proof (insert_all_heap Enhanced.isValidCourseId cs empty_State) as Hh.
  cbn [heap empty_State app] in Hh.
  set (st := insert_all (Insert_with Enhanced.isValidCourseId) cs empty_State) in *.
  assert (map_wf (with_heap h st)) as Hm'.
  { apply map_wf_same_keys; [done|by rewrite Hh]. }
  rewrite (Enhanced_BuildDependencyGraph_exact (with_heap h st) order Hm') by done.
  cbn [with_heap heap root courseMap].
  set (h' := Enhanced_rebuilt (courseMap st) order h).
  assert (h' !! i = Some c) as Hc'.
  { unfold h', Enhanced_rebuilt. rewrite list_lookup_imap, Hc. cbn.
    rewrite decide_False; [done|].
    intros ([k' p] & Hp & He)%list_elem_of_fmap. cbn in Hp. subst p.
    apply (entries_of_order _ _ Hperm) in He. cbn in He.
    destruct (Hm k' i He) as (x & Hx & Hxk).
    destruct Hi as (y & Hy & _ & Hyk). rewrite Hh in Hx. simplify_eq.
    apply insert_all_courseMap in He as [_ Hmax]. specialize (Hmax j Hj). lia. }
  assert (same_keys cs h') as Hk.
  { eapply Forall2_trans; [|exact Hkeys|apply Enhanced_rebuilt_same_keys].
    intros x y z Hxy Hyz. cbn in *. congruence. }
  destruct (insert_all_key_present _ _ _ _ Hj) as [last Hlast].
  fold st in Hlast.
  assert (i < last) as Hlt.
  { apply insert_all_courseMap in Hlast as [_ Hmax]. specialize (Hmax j Hj). lia. }
  exists (mkState h' (root st) (courseMap st)), last.
  split_and!; [done|done| |done|done].
  destruct (lookups_after_insertions cs h' k Hk) as (Hfirst & _).
  unfold Enhanced.Insert in Hfirst. fold st in Hfirst.
  destruct (Hfirst i Hi Hmin) as (c' & Hc'' & Hp).
  unfold with_heap in Hp. rewrite Hp. by simplify_eq.
Qed.

(** CS101 and CS200 are loaded and the dependents rebuilt; then a second
    CS101 and a CS200 that requires nothing are loaded.  After the next
    rebuild the details shown for CS101 are those of the first record,
    "Required by" CS200, while the record that [FindCourse] returns, at
    address 2, has no dependent. *)
Lemma shadowed_record_is_not_rebuilt_witness :
  insert_all Enhanced.Insert
    [course "CS101" "Second" []; course "CS200" "Data Structures" []]
    (Enhanced.BuildDependencyGraph
       (insert_all Enhanced.Insert
          [course "CS101" "First" []; course "CS200" "Data Structures" ["CS101"]]
          empty_State)).2
  = with_heap reloaded_arena (insert_all Enhanced.Insert reloaded empty_State) ∧
  (dependentCourses
     <$> heap (Enhanced.BuildDependencyGraph
                 (with_heap reloaded_arena
                    (insert_all Enhanced.Insert reloaded empty_State))).2 !! 2)
  = Some [] ∧
  ∃ st' last,
    Enhanced.BuildDependencyGraph
      (with_heap reloaded_arena (insert_all Enhanced.Insert reloaded empty_State))
    = (Ok (), st') ∧
    heap st' !! 0 = Some (mkCourse "CS101" "First" [] ["CS200"] false false) ∧
    Enhanced.PrintCourseInformation st' "CS101"
    = Ok (Enhanced.course_details
            (mkCourse "CS101" "First" [] ["CS200"] false false)) ∧
    FindCourse st' "CS101" = Some last ∧ 0 < last.
Proof.
  split; [vm_compute; reflexivity|]. split; [vm_compute; reflexivity|].
  apply (shadowed_record_is_not_rebuilt
           reloaded reloaded_arena
           (map_to_list (courseMap (insert_all Enhanced.Insert reloaded empty_State)))
           "CS101" 0 2).
  - repeat constructor.
  - reflexivity.
  - reflexivity.
  - exists (course "CS101" "First" []). by vm_compute.
  - intros; lia.
  - exists (course "CS101" "Second" []). by vm_compute.
  - lia.
Defined.

(** * The claims on the rebuild and on the validation pass

    Both go through [courseMap]: they reach the record stored under each
    key and no other. *)

Section map_only.
Variable st : State.
Variable h' : list Course.

Lemma Enhanced_validatePrerequisites_map_only p :
  h' !! p = heap st !! p →
  Enhanced.validatePrerequisites (with_heap h' st) p
  = Enhanced.validatePrerequisites st p.
Proof.
  intros Hp. unfold Enhanced.validatePrerequisites, load. cbn [with_heap heap].
  by rewrite Hp.
Qed.

Lemma Enhanced_ValidateAllPrerequisites_map_only order :
  (∀ e, e ∈ order → h' !! e.2 = heap st !! e.2) →
  Enhanced.ValidateAllPrerequisites_in (with_heap h' st) order
  = Enhanced.ValidateAllPrerequisites_in st order.
Proof.
  induction order as [|e order IH]; intros Ho; [done|].
  cbn [Enhanced.ValidateAllPrerequisites_in].
  rewrite Enhanced_validatePrerequisites_map_only by (apply Ho; by left).
  rewrite IH; [done|]. intros e' He'. apply Ho. by right.
Qed.

Lemma Harness_validate_loop_map_only id ps :
  ∀ seen, Harness.validate_loop (with_heap h' st) id ps seen
          = Harness.validate_loop st id ps seen.
Proof.
  induction ps as [|y ps IH]; intros seen; [done|].
  cbn [Harness.validate_loop]. unfold FindCourse. cbn [with_heap courseMap].
  by rewrite IH.
Qed.

Lemma Harness_validatePrerequisites_map_only p :
  h' !! p = heap st !! p →
  Harness.validatePrerequisites (with_heap h' st) p
  = Harness.validatePrerequisites st p.
Proof.
  intros Hp. unfold Harness.validatePrerequisites, load. cbn [with_heap heap].
  rewrite Hp. destruct (heap st !! p) as [c|]; [|done].
  cbn [mbind outcome_bind]. apply Harness_validate_loop_map_only.
Qed.

Lemma Harness_validate_all_loop_map_only order :
  (∀ e, e ∈ order → h' !! e.2 = heap st !! e.2) →
  ∀ errors isValid,
    Harness.validate_all_loop (with_heap h' st) order errors isValid
    = Harness.validate_all_loop st order errors isValid.
Proof.
  induction order as [|e order IH]; intros Ho errors isValid; [done|].
  cbn [Harness.validate_all_loop]. unfold load. cbn [with_heap heap].
  rewrite (Ho e) by (by left).
  destruct (heap st !! e.2) as [c|]; [|done]. cbn [mbind outcome_bind].
  rewrite Harness_validatePrerequisites_map_only by (apply Ho; by left).
  assert (∀ e', e' ∈ order → h' !! e'.2 = heap st !! e'.2) as Ho'.
  { intros e' He'. apply Ho. by right. }
  destruct (Harness.exempt (courseId c)); [by apply IH|].
  destruct (Harness.validatePrerequisites st e.2) as [[]|[]|]; try done;
    by apply IH.
Qed.

Lemma Harness_ValidateAllPrerequisites_map_only order :
  (∀ e, e ∈ order → h' !! e.2 = heap st !! e.2) →
  Harness.ValidateAllPrerequisites_in (with_heap h' st) order
  = Harness.ValidateAllPrerequisites_in st order.
Proof.
  intros Ho. unfold Harness.ValidateAllPrerequisites_in.
  by rewrite Harness_validate_all_loop_map_only.
Qed.

End map_only.

(** C7, as the code has it.  [BuildDependencyGraph] goes through the map, in
    any iteration order, and returns; the tree and the map are as before.
    The records it reaches are those the map designates, for each key the
    one [FindCourse] returns.  In [EnhancementTwo.cpp], for every such
    record [r] and every key [d] it lists, [d] is absent from the map or the
    record stored under [d] has [r]'s key among its dependents; in
    [EnhancementTwoTest.cpp] the same holds except when [d] is [r]'s own
    key, which is passed over.  In both builds a key [a] is among the
    dependents of the record stored under [b] only if the record stored
    under [a] lists [b].  A record that the map does not designate, which is
    one that stays in the tree after a later insertion under its key, is
    left as it was: its dependents are not rebuilt, and its prerequisites
    make it nobody's dependent. *)
Theorem C7_rebuild_dependents (st : State) (order : list (string * ptr)) :
  map_wf st → order ≡ₚ map_to_list (courseMap st) →
  (∃ st', Enhanced.BuildDependencyGraph_in order st = (Ok (), st') ∧
     root st' = root st ∧ courseMap st' = courseMap st ∧
     (∀ r cr d, record_of st' r = Some cr → d ∈ prereqs cr →
        courseMap st' !! d = None ∨
        ∃ cd, record_of st' d = Some cd ∧ r ∈ dependentCourses cd) ∧
     (∀ a b cb, record_of st' b = Some cb → a ∈ dependentCourses cb →
        ∃ ca, record_of st' a = Some ca ∧ b ∈ prereqs ca) ∧
     (∀ q c, (∀ k, courseMap st !! k ≠ Some q) → heap st !! q = Some c →
        heap st' !! q = Some c)) ∧
  (∃ st', Harness.BuildDependencyGraph_in order st = (Ok (), st') ∧
     root st' = root st ∧ courseMap st' = courseMap st ∧
     (∀ r cr d, record_of st' r = Some cr → d ∈ prereqs cr →
        courseMap st' !! d = None ∨ d = r ∨
        ∃ cd, record_of st' d = Some cd ∧ r ∈ dependentCourses cd) ∧
     (∀ a b cb, record_of st' b = Some cb → a ∈ dependentCourses cb →
        a ≠ b ∧ ∃ ca, record_of st' a = Some ca ∧ b ∈ prereqs ca) ∧
     (∀ q c, (∀ k, courseMap st !! k ≠ Some q) → heap st !! q = Some c →
        heap st' !! q = Some c)).
Proof.
  intros Hwf Hperm. pose proof (entries_of_order _ _ Hperm) as Horder.
  assert (∀ q, (∀ k, courseMap st !! k ≠ Some q) → q ∉ order.*2) as Hout.
  { intros q Hq ([k p] & -> & He)%list_elem_of_fmap.
    apply Horder in He. by destruct (Hq k). }
  split.
  - destruct (Enhanced_BuildDependencyGraph_spec st order Hwf Horder)
      as (h' & Hrun & Hrel & Hdeps).
    apply only_dependents_differ_same_declarations in Hrel.
    destruct (dependents_invariant st h' (λ _ _, False)) as [Hfwd Hbwd]; auto.
    { intros x k. right. tauto. }
    { intros k q c' Hk Hc' x. rewrite (Hdeps k q c' Hk Hc' x). tauto. }
    exists (with_heap h' st). split_and!; [done|done|done| | |].
    + intros r cr d Hr Hd. destruct (Hfwd r cr d Hr Hd) as [?|[[]|?]]; auto.
    + intros a b cb Hb Ha. by destruct (Hbwd a b cb Hb Ha) as [_ ?].
    + intros q c Hq Hc.
      rewrite (Enhanced_BuildDependencyGraph_exact st order Hwf Hperm) in Hrun.
      injection Hrun as <-. cbn [with_heap heap]. unfold Enhanced_rebuilt.
      rewrite list_lookup_imap, Hc. cbn. by rewrite decide_False by auto.
  - destruct (Harness_BuildDependencyGraph_spec st order Hwf Horder)
      as (h' & Hrun & Hrel & Hdeps).
    destruct (dependents_invariant st h' (λ x k, x = k)) as [Hfwd Hbwd]; auto.
    { intros x k. apply decide. apply _. }
    exists (with_heap h' st). split_and!; [done|done|done| | |].
    + intros r cr d Hr Hd. destruct (Hfwd r cr d Hr Hd) as [?|[->|?]]; auto.
    + intros a b cb Hb Ha. exact (Hbwd a b cb Hb Ha).
    + intros q c Hq Hc.
      rewrite (Harness_BuildDependencyGraph_exact st order Hwf Hperm) in Hrun.
      injection Hrun as <-. cbn [with_heap heap]. unfold Harness_rebuilt.
      rewrite list_lookup_imap, Hc. cbn. by rewrite decide_False by auto.
Qed.

(** The two records of a cycle, the map gone through from CS100 to CS200. *)
Lemma C7_witness :
  map_wf two_cycle ∧
  [("CS100", 0); ("CS200", 1)] ≡ₚ map_to_list (courseMap two_cycle) ∧
  (∃ st', Enhanced.BuildDependencyGraph_in [("CS100", 0); ("CS200", 1)] two_cycle
          = (Ok (), st') ∧
     root st' = root two_cycle ∧ courseMap st' = courseMap two_cycle ∧
     (∀ r cr d, record_of st' r = Some cr → d ∈ prereqs cr →
        courseMap st' !! d = None ∨
        ∃ cd, record_of st' d = Some cd ∧ r ∈ dependentCourses cd) ∧
     (∀ a b cb, record_of st' b = Some cb → a ∈ dependentCourses cb →
        ∃ ca, record_of st' a = Some ca ∧ b ∈ prereqs ca) ∧
     (∀ q c, (∀ k, courseMap two_cycle !! k ≠ Some q) →
        heap two_cycle !! q = Some c → heap st' !! q = Some c)) ∧
  (∃ st', Harness.BuildDependencyGraph_in [("CS100", 0); ("CS200", 1)] two_cycle
          = (Ok (), st') ∧
     root st' = root two_cycle ∧ courseMap st' = courseMap two_cycle ∧
     (∀ r cr d, record_of st' r = Some cr → d ∈ prereqs cr →
        courseMap st' !! d = None ∨ d = r ∨
        ∃ cd, record_of st' d = Some cd ∧ r ∈ dependentCourses cd) ∧
     (∀ a b cb, record_of st' b = Some cb → a ∈ dependentCourses cb →
        a ≠ b ∧ ∃ ca, record_of st' a = Some ca ∧ b ∈ prereqs ca) ∧
     (∀ q c, (∀ k, courseMap two_cycle !! k ≠ Some q) →
        heap two_cycle !! q = Some c → heap st' !! q = Some c)).
Proof.
  assert ([("CS100", 0); ("CS200", 1)] ≡ₚ map_to_list (courseMap two_cycle))
    as Hperm.
  { vm_compute. first [reflexivity | apply perm_swap]. }
  split; [apply insert_all_map_wf|]. split; [exact Hperm|].
  exact (C7_rebuild_dependents two_cycle [("CS100", 0); ("CS200", 1)]
           (insert_all_map_wf _ _) Hperm).
Defined.

(** The claim as the specification words it fails in two ways.  In
    [EnhancementTwoTest.cpp] the record SELF101 lists SELF101, which is in
    the catalog, and after the rebuild its dependents are empty.  In
    [EnhancementTwo.cpp] the first CS100 of [shadowing] is a node of the
    tree and is listed, it requires CS200, which is in the catalog, and
    after the rebuild the record stored under CS200 has no dependents. *)
Lemma C7_counterexample :
  ((Harness.BuildDependencyGraph self_reference).1 = Ok () ∧
   record_of (Harness.BuildDependencyGraph self_reference).2 "SELF101"
   = Some (course "SELF101" "Itself" ["SELF101"]) ∧
   "SELF101" ∈ prereqs (course "SELF101" "Itself" ["SELF101"]) ∧
   "SELF101" ∉ dependentCourses (course "SELF101" "Itself" ["SELF101"])) ∧
  ((Enhanced.BuildDependencyGraph shadowing).1 = Ok () ∧
   enumerate (Enhanced.BuildDependencyGraph shadowing).2
   = Ok ["CS100"; "CS100"; "CS200"] ∧
   inorder (root (Enhanced.BuildDependencyGraph shadowing).2) = [0; 2; 1] ∧
   heap (Enhanced.BuildDependencyGraph shadowing).2 !! 0
   = Some (course "CS100" "First" ["CS200"]) ∧
   "CS200" ∈ prereqs (course "CS100" "First" ["CS200"]) ∧
   record_of (Enhanced.BuildDependencyGraph shadowing).2 "CS200"
   = Some (course "CS200" "Data Structures" []) ∧
   "CS100" ∉ dependentCourses (course "CS200" "Data Structures" [])).
Proof.
  split.
  - split; [vm_compute; reflexivity|].
    split; [vm_compute; reflexivity|].
    split; [by left|]. by intros ?%elem_of_nil.
  - split; [vm_compute; reflexivity|].
    split; [vm_compute; reflexivity|].
    split; [vm_compute; reflexivity|].
    split; [vm_compute; reflexivity|].
    split; [by left|].
    split; [vm_compute; reflexivity|]. by intros ?%elem_of_nil.
Qed.

(** C8, as the code has it.  The pass goes through the map, in its
    iteration order [order], and checks the record stored under each key.
    In [EnhancementTwoTest.cpp] a record whose key starts with CIRC, SELF or
    DUP is passed over; for any other record nothing is recorded when its
    prerequisite list is well-formed, and otherwise one message is recorded,
    of its first violation, classed as self-reference, duplicate or unknown
    prerequisite; the pass goes on after a failure, writes the recorded
    messages in the order of the iteration and returns [false] exactly when
    there is one.  In [EnhancementTwo.cpp] the pass knows unknown
    prerequisites only and stops at the first record, in the order of the
    iteration, that has one: it writes the one line of that record's first
    unknown prerequisite, and the records after it are not checked.  In
    both builds a record that the map does not designate is not checked:
    what such records hold has no effect on the result. *)
Theorem C8_validation_pass (st : State) (order : list (string * ptr)) :
  map_wf st → order ≡ₚ map_to_list (courseMap st) →
  (Harness.ValidateAllPrerequisites_in st order
   = Ok (bool_decide (omap (Harness_report st) order = []),
         (λ error, "  Validation error: " +:+ error)
           <$> omap (Harness_report st) order) ∧
   ∀ e c, e ∈ order → heap st !! e.2 = Some c →
     (Harness.exempt (courseId c) = true ∧ Harness_report st e = None) ∨
     (Harness.exempt (courseId c) = false ∧ Harness_report st e = None ∧
      well_formed_prereqs st (courseId c) (prereqs c)) ∨
     (Harness.exempt (courseId c) = false ∧
      ∃ what, Harness_report st e = Some what ∧
              first_violation st (courseId c) (prereqs c) (runtime_error what))) ∧
  ((Enhanced.ValidateAllPrerequisites_in st order = Ok (true, []) ∧
    ∀ e c y, e ∈ order → heap st !! e.2 = Some c → y ∈ prereqs c →
             is_Some (courseMap st !! y)) ∨
   (∃ pre e post c ps1 y ps2,
       order = pre ++ e :: post ∧
       (∀ e' c' y', e' ∈ pre → heap st !! e'.2 = Some c' → y' ∈ prereqs c' →
                    is_Some (courseMap st !! y')) ∧
       heap st !! e.2 = Some c ∧ prereqs c = ps1 ++ y :: ps2 ∧
       (∀ y', y' ∈ ps1 → is_Some (courseMap st !! y')) ∧
       courseMap st !! y = None ∧
       Enhanced.ValidateAllPrerequisites_in st order
       = Ok (false, ["Validation error: "
                     +:+ ("Invalid prerequisite: " +:+ y
                          +:+ " for course " +:+ courseId c)]))) ∧
  (∀ h', (∀ k q, courseMap st !! k = Some q → h' !! q = heap st !! q) →
     Harness.ValidateAllPrerequisites_in (with_heap h' st) order
     = Harness.ValidateAllPrerequisites_in st order ∧
     Enhanced.ValidateAllPrerequisites_in (with_heap h' st) order
     = Enhanced.ValidateAllPrerequisites_in st order).
Proof.
  intros Hwf Hperm. pose proof (entries_of_order _ _ Hperm) as Horder.
  assert (∀ e, e ∈ order → is_Some (heap st !! e.2)) as Hvalid.
  { intros e He. apply Horder in He. destruct (Hwf _ _ He) as (c & Hc & _). eauto. }
  split_and!.
  - by apply Harness_ValidateAllPrerequisites_spec.
  - intros e c He Hc. unfold Harness_report. rewrite Hc.
    destruct (Harness.exempt (courseId c)); [by left|right].
    destruct (Harness_validatePrerequisites_spec st e.2 c Hc)
      as [[-> Hok]|(ex & -> & Hfv)]; [by left|right].
    destruct (first_violation_runtime_error st _ _ _ Hfv) as [what ->]. eauto.
  - destruct (Enhanced_ValidateAllPrerequisites_spec st order Hvalid)
      as [[Hrun Hall]|(pre & e & post & what & -> & Hpre & He & Hrun)].
    + left. split; [done|]. intros e c y He Hc Hy.
      destruct (Enhanced_validatePrerequisites_spec st e.2 c Hc)
        as [[_ Hres]|(ps1 & y' & ps2 & _ & _ & _ & Hthrow)]; [by apply Hres|].
      rewrite (Hall e He) in Hthrow. discriminate.
    + right. destruct (Hvalid e) as [c Hc].
      { apply elem_of_app. right. by left. }
      destruct (Enhanced_validatePrerequisites_spec st e.2 c Hc)
        as [[Hok _]|(ps1 & y & ps2 & Hps & Hps1 & Hy & Hthrow)]; [congruence|].
      exists pre, e, post, c, ps1, y, ps2. split_and!; auto.
      * intros e' c' y' He' Hc' Hy'.
        destruct (Enhanced_validatePrerequisites_spec st e'.2 c' Hc')
          as [[_ Hres]|(? & ? & ? & _ & _ & _ & Hthrow')]; [by apply Hres|].
        rewrite (Hpre e' He') in Hthrow'. discriminate.
      * rewrite Hrun. rewrite He in Hthrow. by injection Hthrow as ->.
  - intros h' Hh'.
    assert (∀ e, e ∈ order → h' !! e.2 = heap st !! e.2) as Ho.
    { intros e He. apply (Hh' e.1). by apply Horder. }
    split.
    + by apply Harness_ValidateAllPrerequisites_map_only.
    + by apply Enhanced_ValidateAllPrerequisites_map_only.
Qed.

(** Two records that each list an unknown key, the map gone through from
    CS100 to CS200: the pass of [EnhancementTwoTest.cpp] writes a line for
    each, that of [EnhancementTwo.cpp] the line of CS100 only. *)
Lemma C8_witness :
  map_wf two_unknown ∧
  [("CS100", 0); ("CS200", 1)] ≡ₚ map_to_list (courseMap two_unknown) ∧
  Harness.ValidateAllPrerequisites_in two_unknown [("CS100", 0); ("CS200", 1)]
  = Ok (false,
        ["  Validation error: Invalid prerequisite: XX999 for course CS100";
         "  Validation error: Invalid prerequisite: YY999 for course CS200"]) ∧
  Enhanced.ValidateAllPrerequisites_in two_unknown [("CS100", 0); ("CS200", 1)]
  = Ok (false, ["Validation error: Invalid prerequisite: XX999 for course CS100"]) ∧
  (Harness.ValidateAllPrerequisites_in two_unknown [("CS100", 0); ("CS200", 1)]
   = Ok (bool_decide (omap (Harness_report two_unknown)
                           [("CS100", 0); ("CS200", 1)] = []),
         (λ error, "  Validation error: " +:+ error)
           <$> omap (Harness_report two_unknown) [("CS100", 0); ("CS200", 1)]) ∧
   ∀ e c, e ∈ [("CS100", 0); ("CS200", 1)] →
     heap two_unknown !! e.2 = Some c →
     (Harness.exempt (courseId c) = true ∧ Harness_report two_unknown e = None) ∨
     (Harness.exempt (courseId c) = false ∧ Harness_report two_unknown e = None ∧
      well_formed_prereqs two_unknown (courseId c) (prereqs c)) ∨
     (Harness.exempt (courseId c) = false ∧
      ∃ what, Harness_report two_unknown e = Some what ∧
              first_violation two_unknown (courseId c) (prereqs c)
                              (runtime_error what))) ∧
  ((Enhanced.ValidateAllPrerequisites_in two_unknown [("CS100", 0); ("CS200", 1)]
    = Ok (true, []) ∧
    ∀ e c y, e ∈ [("CS100", 0); ("CS200", 1)] →
             heap two_unknown !! e.2 = Some c → y ∈ prereqs c →
             is_Some (courseMap two_unknown !! y)) ∨
   (∃ pre e post c ps1 y ps2,
       [("CS100", 0); ("CS200", 1)] = pre ++ e :: post ∧
       (∀ e' c' y', e' ∈ pre → heap two_unknown !! e'.2 = Some c' →
                    y' ∈ prereqs c' → is_Some (courseMap two_unknown !! y')) ∧
       heap two_unknown !! e.2 = Some c ∧ prereqs c = ps1 ++ y :: ps2 ∧
       (∀ y', y' ∈ ps1 → is_Some (courseMap two_unknown !! y')) ∧
       courseMap two_unknown !! y = None ∧
       Enhanced.ValidateAllPrerequisites_in two_unknown
                                            [("CS100", 0); ("CS200", 1)]
       = Ok (false, ["Validation error: "
                     +:+ ("Invalid prerequisite: " +:+ y
                          +:+ " for course " +:+ courseId c)]))) ∧
  (∀ h', (∀ k q, courseMap two_unknown !! k = Some q →
                 h' !! q = heap two_unknown !! q) →
     Harness.ValidateAllPrerequisites_in (with_heap h' two_unknown)
                                         [("CS100", 0); ("CS200", 1)]
     = Harness.ValidateAllPrerequisites_in two_unknown
                                           [("CS100", 0); ("CS200", 1)] ∧
     Enhanced.ValidateAllPrerequisites_in (with_heap h' two_unknown)
                                          [("CS100", 0); ("CS200", 1)]
     = Enhanced.ValidateAllPrerequisites_in two_unknown
                                            [("CS100", 0); ("CS200", 1)]).
Proof.
  assert ([("CS100", 0); ("CS200", 1)] ≡ₚ map_to_list (courseMap two_unknown))
    as Hperm.
  { vm_compute. first [reflexivity | apply perm_swap]. }
  split; [apply insert_all_map_wf|].
  split; [exact Hperm|].
  split; [vm_compute; reflexivity|].
  split; [vm_compute; reflexivity|].
  exact (C8_validation_pass two_unknown [("CS100", 0); ("CS200", 1)]
           (insert_all_map_wf _ _) Hperm).
Defined.

(** The claim as the specification words it fails.  In [EnhancementTwo.cpp]
    the pass over two records that each list an unknown key writes one line,
    in either iteration order of the map: the unknown key of the record that
    comes second is not reported.  In [EnhancementTwoTest.cpp] a record that
    lists itself and then an unknown key gets one message: the unknown key
    XX999 is not reported.  And in both builds the first CS100 of
    [shadowed_violations], a node of the tree that lists itself and the
    unknown key ZZ999, is not checked: the pass answers [true] and writes
    nothing. *)
Lemma C8_counterexample :
  (Enhanced.ValidateAllPrerequisites_in two_unknown [("CS100", 0); ("CS200", 1)]
   = Ok (false, ["Validation error: Invalid prerequisite: XX999 for course CS100"]) ∧
   Enhanced.ValidateAllPrerequisites_in two_unknown [("CS200", 1); ("CS100", 0)]
   = Ok (false, ["Validation error: Invalid prerequisite: YY999 for course CS200"]) ∧
   record_of two_unknown "CS100" = Some (course "CS100" "Algorithms" ["XX999"]) ∧
   courseMap two_unknown !! "XX999" = None ∧
   record_of two_unknown "CS200"
   = Some (course "CS200" "Data Structures" ["YY999"]) ∧
   courseMap two_unknown !! "YY999" = None) ∧
  (Harness.ValidateAllPrerequisites_in two_violations [("CS100", 0)]
   = Ok (false, ["  Validation error: Self-reference detected: "
                 +:+ "CS100 requires itself as a prerequisite"]) ∧
   map_to_list (courseMap two_violations) = [("CS100", 0)] ∧
   record_of two_violations "CS100"
   = Some (course "CS100" "Algorithms" ["CS100"; "XX999"]) ∧
   courseMap two_violations !! "XX999" = None) ∧
  (map_to_list (courseMap shadowed_violations) = [("CS100", 1)] ∧
   inorder (root shadowed_violations) = [0; 1] ∧
   heap shadowed_violations !! 0
   = Some (course "CS100" "First" ["ZZ999"; "CS100"]) ∧
   courseMap shadowed_violations !! "ZZ999" = None ∧
   Enhanced.ValidateAllPrerequisites_in shadowed_violations [("CS100", 1)]
   = Ok (true, []) ∧
   Harness.ValidateAllPrerequisites_in shadowed_violations [("CS100", 1)]
   = Ok (true, [])).
Proof. vm_compute. done. Qed.
